(** * Variation-matrix extractors: a shallow embedding

    The development follows the Demandware extractors
    ([mk_matrix_v4.js], [mk_matrix_v5.js]) and the 6pm save-one-by-one
    batch script.  Pure helpers are Rocq functions; asynchronous code is
    modelled with explicit state: a logical clock and an event trace for
    [fetchJson], an interleaving semantics for [mapLimit], append-only
    sinks for the batch drivers. *)

From Stdlib Require Import String Ascii Bool Arith ZArith Lia List.
From Stdlib Require Import Numbers.DecimalString.
Import ListNotations.

Local Open Scope string_scope.
Local Open Scope list_scope.

Set Implicit Arguments.
Local Set Warnings "-register-all".

(* ------------------------------------------------------------------ *)
(** * JavaScript values *)
(* ------------------------------------------------------------------ *)

Module JS.

(** A number is kept as its canonical rendering ([String(n)]): the code
    never computes with the numbers it reads from a response, it only
    tests them for truthiness and prints them. *)
Inductive value : Type :=
| JUndefined
| JNull
| JBool (b : bool)
| JNum (repr : string)
| JStr (s : string)
| JArr (xs : list value)
| JObj (fields : list (string * value)).

Definition is_nullish (v : value) : bool :=
  match v with JUndefined | JNull => true | _ => false end.

(** [Boolean(v)]. *)
Definition truthy (v : value) : bool :=
  match v with
  | JUndefined | JNull => false
  | JBool b => b
  | JNum r => negb (String.eqb r "0" || String.eqb r "NaN")
  | JStr s => negb (String.eqb s "")
  | JArr _ | JObj _ => true
  end.

(** [a || b] and [a ?? b]. *)
Definition or_else (a b : value) : value := if truthy a then a else b.
Definition coalesce (a b : value) : value := if is_nullish a then b else a.

(** The own properties of an object, each name once. *)
Fixpoint lookup (k : string) (fields : list (string * value)) : value :=
  match fields with
  | [] => JUndefined
  | (k', v) :: rest => if String.eqb k k' then v else lookup k rest
  end.

(** [v?.k] for the property names the extractors read: an own property
    of an object, [undefined] on everything else. *)
Definition get (v : value) (k : string) : value :=
  match v with
  | JObj fields => lookup k fields
  | _ => JUndefined
  end.

(** [v?.[0]]. *)
Definition get0 (v : value) : value :=
  match v with
  | JArr xs => nth 0 xs JUndefined
  | JStr (String c _) => JStr (String c "")
  | JObj fields => lookup "0" fields
  | _ => JUndefined
  end.

Definition isArray (v : value) : bool :=
  match v with JArr _ => true | _ => false end.

Definition elements (v : value) : list value :=
  match v with JArr xs => xs | _ => [] end.

(** [xs.join(sep)] on strings. *)
Fixpoint join (sep : string) (xs : list string) : string :=
  match xs with
  | [] => ""
  | [x] => x
  | x :: rest => x ++ sep ++ join sep rest
  end.

(** [String(v)]. *)
Fixpoint to_string (v : value) : string :=
  match v with
  | JUndefined => "undefined"
  | JNull => "null"
  | JBool true => "true"
  | JBool false => "false"
  | JNum r => r
  | JStr s => s
  | JArr xs =>
      join ","
        ((fix items (l : list value) : list string :=
            match l with
            | [] => []
            | x :: l' =>
                (if is_nullish x then "" else to_string x) :: items l'
            end) xs)
  | JObj _ => "[object Object]"
  end.

(** Strict equality with a string literal. *)
Definition eq_str (v : value) (lit : string) : bool :=
  match v with JStr s => String.eqb s lit | _ => false end.

End JS.

Import JS.

(* ------------------------------------------------------------------ *)
(** * CSV helpers *)
(* ------------------------------------------------------------------ *)

Module Csv.

(** The double quote, code 34. *)
Definition dquote : ascii :=
  Ascii false true false false false true false false.
Definition comma : ascii := ","%char.
Definition LF : ascii := "010"%char.
Definition CR : ascii := "013"%char.

(** The test of [csvEscape]: a double quote, a comma, LF or CR occurs. *)
Fixpoint needs_quoting (s : string) : bool :=
  match s with
  | EmptyString => false
  | String c s' =>
      Ascii.eqb c dquote || Ascii.eqb c comma || Ascii.eqb c LF
      || Ascii.eqb c CR || needs_quoting s'
  end.

(** Every double quote is doubled. *)
Fixpoint double_quotes (s : string) : string :=
  match s with
  | EmptyString => EmptyString
  | String c s' =>
      if Ascii.eqb c dquote
      then String dquote (String dquote (double_quotes s'))
      else String c (double_quotes s')
  end.

Definition csvEscapeStr (s : string) : string :=
  if needs_quoting s
  then String dquote (double_quotes s ++ String dquote EmptyString)
  else s.

Definition csvEscape (val : value) : string :=
  match val with
  | JNull | JUndefined => ""
  | _ => csvEscapeStr (to_string val)
  end.

(** The loop of [splitCSVLine]: [line] is the part of the line from
    index [i] on; an escaped quote consumes two characters. *)
Fixpoint splitLoop (line : string) (cur : string) (inQuotes : bool)
    (out : list string) : list string :=
  match line with
  | EmptyString => out ++ [cur]
  | String ch rest =>
      if Ascii.eqb ch dquote then
        match rest with
        | String ch' rest' =>
            if inQuotes && Ascii.eqb ch' dquote
            then splitLoop rest' (cur ++ String dquote EmptyString) inQuotes out
            else splitLoop rest cur (negb inQuotes) out
        | EmptyString => splitLoop rest cur (negb inQuotes) out
        end
      else if Ascii.eqb ch comma && negb inQuotes then
        splitLoop rest "" inQuotes (out ++ [cur])
      else splitLoop rest (cur ++ String ch EmptyString) inQuotes out
  end.

Definition splitCSVLine (line : string) : list string :=
  splitLoop line "" false [].

(** A CSV row as [buildBulkCSV] and the 6pm driver write it. *)
Definition csvLine (fields : list value) : string :=
  join "," (map csvEscape fields).

Fixpoint has_newline (s : string) : bool :=
  match s with
  | EmptyString => false
  | String c s' => Ascii.eqb c LF || Ascii.eqb c CR || has_newline s'
  end.

(** The shape of what may follow the closing quote of a field. *)
Definition noLeadingQuote (s : string) : Prop :=
  match s with
  | EmptyString => True
  | String c _ => Ascii.eqb c dquote = false
  end.

(** The round trip at one list of fields, none holding a newline. *)
Definition roundTrip (fields : list string) : Prop :=
  Forall (fun f => has_newline f = false) fields ->
  splitCSVLine (csvLine (map JStr fields)) = fields.

Definition sampleFields : list string :=
  [ "plain"; "a,b"; String dquote "q"; ""; String "x" (String dquote "") ].

End Csv.

(* ------------------------------------------------------------------ *)
(** * Dimension discovery and combination generation *)
(* ------------------------------------------------------------------ *)

Module Discovery.

Record Color : Type := mkColor {
  color_id : string;
  color_name : value;
  color_inStockHint : value;
  swatch_url : value
}.

Record Size : Type := mkSize {
  size_id : string;
  size_label : value;
  size_inStockHint : value
}.

Record Variation : Type := mkVariation {
  colors : list Color;
  sizes : list Size;
  hasSizeAttribute : bool
}.

(** [product?.variationAttributes] when it is an array, no attribute
    otherwise. *)
Definition declaredAttributes (product : value) : list value :=
  if isArray (get product "variationAttributes")
  then elements (get product "variationAttributes")
  else [].

(** [a?.id || a?.attributeId] *)
Definition attributeId (a : value) : value :=
  or_else (get a "id") (get a "attributeId").

(** [attrs.find((a) => (a?.id || a?.attributeId) === name)]; [find]
    gives [undefined] when nothing matches. *)
Fixpoint findAttr (name : string) (attrs : list value) : value :=
  match attrs with
  | [] => JUndefined
  | a :: rest =>
      if eq_str (attributeId a) name then a else findAttr name rest
  end.

(** [Array.isArray(a?.values) && a.values.length] *)
Definition hasValues (a : value) : bool :=
  isArray (get a "values")
  && negb (Nat.eqb (length (elements (get a "values"))) 0).

(** [(v) => v?.selectable !== false] *)
Definition selectable (v : value) : bool :=
  match get v "selectable" with
  | JBool false => false
  | _ => true
  end.

(** [String(v?.value ?? v?.id ?? empty)] *)
Definition valueId (v : value) : string :=
  to_string (coalesce (coalesce (get v "value") (get v "id")) (JStr "")).

Definition toColor (v : value) : Color :=
  {| color_id := valueId v;
     color_name := coalesce (get v "displayValue") JNull;
     color_inStockHint := coalesce (get v "inStock") JNull;
     swatch_url :=
       or_else (get (get0 (get (get v "images") "swatch")) "absURL")
         (or_else (get (get0 (get (get v "images") "swatch")) "url") JNull) |}.

Definition toSize (v : value) : Size :=
  {| size_id := valueId v;
     size_label := coalesce (get v "displayValue") JNull;
     size_inStockHint := coalesce (get v "inStock") JNull |}.

Definition nonEmpty (s : string) : bool := negb (String.eqb s "").

Definition placeholderSize : Size :=
  {| size_id := "NS"; size_label := JStr "NS"; size_inStockHint := JNull |}.

Definition extractVariationAttributes (product : value) : Variation :=
  let attrs := declaredAttributes product in
  let colorAttr := findAttr "color" attrs in
  let sizeAttr := findAttr "size" attrs in
  let colors :=
    if isArray (get colorAttr "values")
    then filter (fun c => nonEmpty (color_id c))
           (map toColor (filter selectable (elements (get colorAttr "values"))))
    else [] in
  let hasSizeAttribute := hasValues sizeAttr in
  let sizes :=
    if hasSizeAttribute
    then filter (fun s => nonEmpty (size_id s))
           (map toSize (filter selectable (elements (get sizeAttr "values"))))
    else [placeholderSize] in
  {| colors := colors; sizes := sizes; hasSizeAttribute := hasSizeAttribute |}.

(** The nested loop that builds the tasks of the matrix:
    [for (const c of colors) for (const s of sizes) tasks.push(...)]. *)
Record Task : Type := mkTask { color : Color; size : Size }.

Fixpoint pushSizes (c : Color) (sizes : list Size) (tasks : list Task)
  : list Task :=
  match sizes with
  | [] => tasks
  | s :: rest => pushSizes c rest (tasks ++ [mkTask c s])
  end.

Fixpoint pushColors (colors : list Color) (sizes : list Size)
    (tasks : list Task) : list Task :=
  match colors with
  | [] => tasks
  | c :: rest => pushColors rest sizes (pushSizes c sizes tasks)
  end.

Definition buildTasks (colors : list Color) (sizes : list Size) : list Task :=
  pushColors colors sizes [].


(** A combination as the list of its values, in dimension order. *)
Definition combination (t : Task) : list (Color + Size) :=
  [inl (color t); inr (size t)].

(** The cartesian product of a list of dimensions as the specification
    words it: one value per dimension, in declaration order, the first
    dimension varying slowest.  Only used to compare [buildTasks] with. *)
Fixpoint cartesian_spec {V : Type} (dims : list (list V)) : list (list V) :=
  match dims with
  | [] => [[]]
  | d :: rest =>
      flat_map (fun v => map (fun combo => v :: combo) (cartesian_spec rest)) d
  end.

(** A base product with two colors and no size attribute. *)
Definition bagProduct : value :=
  JObj
    [ ("productName", JStr "Tote");
      ("variationAttributes",
        JArr
          [ JObj
              [ ("id", JStr "color");
                ("values",
                  JArr
                    [ JObj [("value", JStr "0001"); ("displayValue", JStr "Black")];
                      JObj [("value", JStr "0002"); ("displayValue", JStr "Brown")] ]) ] ]) ].

(** A base product whose size attribute only has values that cannot be
    selected. *)
Definition soldOutSizes : value :=
  JObj
    [ ("variationAttributes",
        JArr
          [ JObj
              [ ("id", JStr "size");
                ("values",
                  JArr [ JObj [("value", JStr "M"); ("selectable", JBool false)] ]) ] ]) ].

Definition colorA : Color := mkColor "A" JNull JNull JNull.
Definition colorB : Color := mkColor "B" JNull JNull JNull.
Definition sizeS : Size := mkSize "S" JNull JNull.
Definition sizeM : Size := mkSize "M" JNull JNull.

End Discovery.

(* ------------------------------------------------------------------ *)
(** * The bounded worker pool, [mapLimit] *)
(* ------------------------------------------------------------------ *)

Module Pool.

(** [l[n] = x] for an index inside the array (the pool never writes
    outside [out], whose length is the number of items). *)
Fixpoint update {X : Type} (n : nat) (x : X) (l : list X) : list X :=
  match l, n with
  | [], _ => []
  | _ :: t, O => x :: t
  | h :: t, S n' => h :: update n' x t
  end.

(** How the promise returned by the mapper behaves: it is fulfilled,
    it is rejected, or it stays pending for ever. *)
Inductive outcome (B E : Type) : Type :=
| Resolve (b : B)
| Reject (e : E)
| Never.
Arguments Resolve {B E} b.
Arguments Reject {B E} e.
Arguments Never {B E}.

(** A worker is suspended at [await mapper(items[my], my)], has returned
    (it read an index past the end), or has thrown what the mapper
    rejected with. *)
Inductive worker (E : Type) : Type :=
| Awaiting (my : nat)
| Returned
| Threw (e : E).
Arguments Awaiting {E} my.
Arguments Returned {E}.
Arguments Threw {E} e.

(** The instants of a run: the mapper is called on item [i], the promise
    of item [i] settles. *)
Inductive event : Type :=
| Start (i : nat)
| Settle (i : nat).

(** The limit as a caller has it.  [parseArgs] gives [Number(...)] of a
    command-line argument, which is NaN for a text that is no number.  A
    finite number is given by its integer part, which is all that
    [Array.from({ length })] keeps of it; plus infinity behaves as a
    count of 2^32 or more, minus infinity as a count below 1. *)
Inductive limit : Type :=
| Count (n : Z)
| NotANumber.

(** The longest array: [Array.from] throws a [RangeError] above it. *)
Definition MAX_ARRAY_LENGTH : Z := 4294967295.

Record state (B E : Type) : Type := mkState {
  idx : nat;                      (* the shared counter *)
  out : list (option B);          (* [new Array(n)]: [None] is a hole *)
  workers : list (worker E);      (* the promises given to [Promise.all] *)
  rejection : option E;           (* first rejection seen by [Promise.all] *)
  log : list event                (* ghost: what happened, oldest first *)
}.

Section MapLimit.

Variables A B E : Type.
Variable items : list A.
Variable mapper : A -> nat -> outcome B E.

(** One turn of the worker loop up to its [await]:
    [const my = idx++; if (my >= items.length) return; mapper(items[my], my)]. *)
Definition dispatch (st : state B E) : worker E * state B E :=
  let my := idx st in
  match nth_error items my with
  | None =>
      (Returned,
       mkState (S my) (out st) (workers st) (rejection st) (log st))
  | Some _ =>
      (Awaiting my,
       mkState (S my) (out st) (workers st) (rejection st)
         (log st ++ [Start my]))
  end.

(** [Array.from({ length: n }, () => worker())]: the workers are
    started one after the other, each running up to its first [await]. *)
Fixpoint spawn (n : nat) (st : state B E) : state B E :=
  match n with
  | O => st
  | S n' =>
      let (w, st') := dispatch st in
      spawn n'
        (mkState (idx st') (out st') (workers st' ++ [w]) (rejection st')
           (log st'))
  end.

Definition init : state B E :=
  mkState 0 (repeat None (length items)) [] None [].

(** [Math.max(1, limit)] turned into an array length, for a limit that
    is a number. *)
Definition workerCount (limit : Z) : nat := Z.to_nat (Z.max 1 limit).

Definition start (limit : Z) : state B E := spawn (workerCount limit) init.

(** [mapLimit] up to [await Promise.all(workers)], for any limit.
    [Math.max(1, NaN)] is NaN, a length that [Array.from] reads as 0: no
    worker is started.  A count above the longest array makes
    [Array.from] throw, which rejects [mapLimit] before any worker is
    started. *)
Definition startAt (rangeError : E) (l : limit) : state B E :=
  match l with
  | NotANumber => init
  | Count n =>
      if Z.ltb MAX_ARRAY_LENGTH n
      then mkState 0 (repeat None (length items)) [] (Some rangeError) []
      else start n
  end.

(** The promise awaited by worker [w] settles.  On a value the worker
    stores it in [out[my]] and takes its next turn; on a rejection the
    worker throws, which rejects [Promise.all] unless it is rejected
    already. *)
Definition settle (w : nat) (st : state B E) : option (state B E) :=
  match nth_error (workers st) w with
  | Some (Awaiting my) =>
      match nth_error items my with
      | Some x =>
          match mapper x my with
          | Resolve b =>
              let st1 :=
                mkState (idx st) (update my (Some b) (out st)) (workers st)
                  (rejection st) (log st ++ [Settle my]) in
              let (w', st2) := dispatch st1 in
              Some (mkState (idx st2) (out st2) (update w w' (workers st2))
                      (rejection st2) (log st2))
          | Reject e =>
              Some (mkState (idx st) (out st) (update w (Threw e) (workers st))
                      (match rejection st with
                       | None => Some e
                       | Some e0 => Some e0
                       end)
                      (log st ++ [Settle my]))
          | Never => None
          end
      | None => None
      end
  | _ => None
  end.

(** A schedule names, step by step, the worker whose promise settles
    next: the completion order of the tasks. *)
Fixpoint run (sched : list nat) (st : state B E) : option (state B E) :=
  match sched with
  | [] => Some st
  | w :: rest =>
      match settle w st with
      | Some st' => run rest st'
      | None => None
      end
  end.

Definition isReturned (w : worker E) : bool :=
  match w with Returned => true | _ => false end.

Definition isAwaiting (w : worker E) : bool :=
  match w with Awaiting _ => true | _ => false end.

(** What [await Promise.all(workers); return out] has produced so far:
    nothing while pending, the array once every worker has returned,
    the first rejection as soon as there is one. *)
Definition result (st : state B E) : option (list (option B) + E) :=
  match rejection st with
  | Some e => Some (inr e)
  | None =>
      if forallb isReturned (workers st) then Some (inl (out st)) else None
  end.

(** Tasks in flight after a sequence of events: started, not settled. *)
Fixpoint inFlight (evs : list event) (n : nat) : nat :=
  match evs with
  | [] => n
  | Start _ :: rest => inFlight rest (S n)
  | Settle _ :: rest => inFlight rest (pred n)
  end.

(** The largest number of tasks in flight at any instant of the log. *)
Fixpoint peak (evs : list event) (n : nat) : nat :=
  match evs with
  | [] => n
  | Start _ :: rest => Nat.max n (peak rest (S n))
  | Settle _ :: rest => Nat.max n (peak rest (pred n))
  end.

Definition starts (evs : list event) : list nat :=
  flat_map (fun e => match e with Start i => [i] | Settle _ => [] end) evs.

Definition settles (evs : list event) : list nat :=
  flat_map (fun e => match e with Settle i => [i] | Start _ => [] end) evs.

(** The first of the workers [ws] whose promise can settle. *)
Fixpoint firstReady (ws : list nat) (st : state B E) : option nat :=
  match ws with
  | [] => None
  | w :: rest =>
      match settle w st with
      | Some _ => Some w
      | None => firstReady rest st
      end
  end.

(** One run to the end, always settling the first worker that can. *)
Fixpoint drain (fuel : nat) (st : state B E) : state B E :=
  match fuel with
  | O => st
  | S fuel' =>
      match firstReady (seq 0 (length (workers st))) st with
      | Some w =>
          match settle w st with
          | Some st' => drain fuel' st'
          | None => st
          end
      | None => st
      end
  end.

(** What [mapLimit] returns ([inl]) or throws ([inr]), computed along
    the run above; [None] when that run never completes.  The order in
    which the promises settle does not change the array. *)
Definition mapLimit (limit : Z) : option (list (option B) + E) :=
  result (drain (length items) (start limit)).

Definition mapLimitAt (rangeError : E) (l : limit)
  : option (list (option B) + E) :=
  result (drain (length items) (startAt rangeError l)).

End MapLimit.

Arguments init {A B E} items.
Arguments start {A B E} items limit.
Arguments startAt {A B E} items rangeError l.
Arguments isReturned {E} w.
Arguments isAwaiting {E} w.

(** The workers with a pending promise. *)
Definition awaitingCount {E : Type} (ws : list (worker E)) : nat :=
  length (filter isAwaiting ws).

(** A mapper whose promise is always fulfilled, with the value [f]
    computes: the tasks of the extractors are of this kind, their
    failures being caught and returned as values. *)
Definition resolving {A B : Type} (E : Type) (f : A -> nat -> B)
  : A -> nat -> outcome B E :=
  fun x i => Resolve (f x i).

(** What a settled promise leaves in its slot of [out]. *)
Definition stored {B E : Type} (o : outcome B E) : option B :=
  match o with
  | Resolve b => Some b
  | _ => None
  end.

Definition weight {E : Type} (w : worker E) : nat :=
  if isAwaiting w then 1 else 0.

Section Invariant.

Variables A B E : Type.
Variable items : list A.
Variable mapper : A -> nat -> outcome B E.

(** What holds of every state of a run of at most [K] workers. *)
Record inv (K : nat) (st : state B E) : Prop := mkInv {
  inv_out_len : length (out st) = length items;
  inv_workers : length (workers st) <= K;
  inv_starts : starts (log st) = seq 0 (Nat.min (idx st) (length items));
  inv_await :
    forall w i, nth_error (workers st) w = Some (Awaiting i) ->
                In i (starts (log st));
  inv_cover :
    forall i, In i (starts (log st)) ->
              In i (settles (log st))
              \/ exists w, nth_error (workers st) w = Some (Awaiting i);
  inv_out :
    forall i x, nth_error items i = Some x ->
                nth_error (out st) i
                = Some (if existsb (Nat.eqb i) (settles (log st))
                        then stored (mapper x i) else None);
  inv_ret :
    forall w, nth_error (workers st) w = Some Returned ->
              length items <= idx st;
  inv_count :
    length (starts (log st))
    = length (settles (log st)) + awaitingCount (workers st);
  inv_flight : inFlight (log st) 0 = awaitingCount (workers st);
  inv_peak : peak (log st) 0 <= K
}.

End Invariant.

(** Nothing was rejected and no worker threw. *)
Definition clean {B E : Type} (st : state B E) : Prop :=
  rejection st = None
  /\ forall w e, nth_error (workers st) w <> Some (Threw e).


(** C9 as the claim words it, for any mapper: with [max(1, limit)]
    workers the pool processes every task and what it completes with is
    a fully populated array. *)
Definition processesEveryTask {A B E : Type} (items : list A)
    (mapper : A -> nat -> outcome B E) (limit : Z) : Prop :=
  forall sched st r,
    run items mapper sched (start items limit) = Some st ->
    result st = Some r ->
    (forall i, i < length items -> In i (settles (log st)))
    /\ exists o,
         r = inl o
         /\ length o = length items
         /\ Forall (fun slot => slot <> None) o.

(** [items.map(f)] with the index passed along. *)
Fixpoint mapi_from {A B : Type} (f : A -> nat -> B) (i : nat) (l : list A)
  : list B :=
  match l with
  | [] => []
  | x :: rest => f x i :: mapi_from f (S i) rest
  end.

Definition mapi {A B : Type} (f : A -> nat -> B) (l : list A) : list B :=
  mapi_from f 0 l.

(** Three tasks for two workers, the second task finishing first. *)
Definition threeItems : list string := ["a"; "b"; "c"].
Definition tagged (x : string) (i : nat) : string * nat := (x, i).
Definition secondFirst : list nat := [1; 0; 1].

Definition threeDone : state (string * nat) unit :=
  mkState 5 [Some ("a", 0); Some ("b", 1); Some ("c", 2)]
    [Returned; Returned] None
    [Start 0; Start 1; Settle 1; Start 2; Settle 0; Settle 2].

(** A mapper that rejects the first task. *)
Definition rejectFirst (x : string) (i : nat) : outcome (string * nat) string :=
  match i with
  | O => Reject "boom"
  | _ => Resolve (x, i)
  end.

End Pool.

(* ------------------------------------------------------------------ *)
(** * The retrying fetcher, [fetchJson] *)
(* ------------------------------------------------------------------ *)

Module Fetch.

Local Open Scope Z_scope.

(** An [Error] object. *)
Record exn : Type := mkExn { exn_name : string; exn_message : string }.

(** What a [catch] clause can receive: an error, or [undefined] (the
    value of [lastErr] when the loop body never ran). *)
Inductive thrown : Type :=
| Thrown (e : exn)
| ThrownUndefined.

(** [String(e?.message || e)] *)
Definition describe (t : thrown) : string :=
  match t with
  | Thrown e =>
      if String.eqb (exn_message e) "" then exn_name e else exn_message e
  | ThrownUndefined => "undefined"
  end.

(** What the remote end does with one request, the signal left aside.
    The body of an error response is read by a second await,
    [res.text()]: it is at hand when the headers are ([HttpError]), or
    it settles [bodyAfter] milliseconds after them ([HttpErrorLate]),
    with the text or, for [None], with a rejection. *)
Inductive response : Type :=
| NetworkFailure (e : exn)                          (* [fetch] rejects *)
| HttpError (status : Z) (statusText body : string) (* [res.ok] is false *)
| HttpErrorLate (status : Z) (statusText : string) (bodyAfter : N)
    (body : option string)                          (* [res.ok] is false *)
| Malformed (e : exn)                               (* [res.json()] rejects *)
| Body (j : value).                                 (* [res.json()] *)

(** A reply comes [latency] milliseconds after the request. *)
Record reply : Type := mkReply { latency : N; resp : response }.

(** The replies to the successive attempts of one logical fetch. *)
Definition server : Type := nat -> reply.

Definition abortError : exn :=
  mkExn "AbortError" "This operation was aborted".

Definition decimal (n : Z) : string := NilZero.string_of_int (Z.to_int n).

(** [`HTTP ${res.status} ${res.statusText} :: ${text.slice(0, 200)}`] *)
Definition httpError (status : Z) (statusText body : string) : exn :=
  mkExn "Error"
    ("HTTP " ++ decimal status ++ " " ++ statusText ++ " :: "
       ++ substring 0 200 body)%string.

(** [res.text().catch(() => empty)] *)
Definition textOr (body : option string) : string :=
  match body with
  | Some text => text
  | None => ""
  end.

(** The body of the inner [try] when the signal does not interfere. *)
Definition classify (r : response) : exn + value :=
  match r with
  | NetworkFailure e => inl e
  | HttpError status statusText body => inl (httpError status statusText body)
  | HttpErrorLate status statusText _ body =>
      inl (httpError status statusText (textOr body))
  | Malformed e => inl e
  | Body j => inr j
  end.

(** The longest delay of a timer, 2^31 - 1 ms. *)
Definition TIMEOUT_MAX : Z := 2147483647.

(** When a timer set with the delay [ms] fires: [setTimeout] runs a
    delay above the longest one after 1 ms.  It also raises a delay
    below 1 ms to 1 ms; the clock, in whole milliseconds, keeps such a
    delay as it is. *)
Definition timerDelay (ms : Z) : Z := if TIMEOUT_MAX <? ms then 1 else ms.

Inductive event : Type :=
| TimerSet (ms : Z)                             (* [setTimeout(abort, ms)] *)
| FetchCall (attempt : nat) (at_ : Z) (cut : bool)
    (* [fetch(url, { signal })] at time [at_]; [cut]: the signal ended it *)
| Sleep (ms : Z)                                (* [await sleep(ms)] *)
| TimerCleared.                                 (* [clearTimeout(timer)] *)

Section FetchJson.

Variable timeoutMs : Z.
Variable retries : Z.
Variable retryDelayMs : Z.
Variable srv : server.

(** The signal is the one of the controller created before the loop; it
    aborts when the timer set at the call of [fetchJson] (time 0)
    fires. *)
Definition deadline : Z := timerDelay timeoutMs.

(** A request made at time [now] is answered if the reply comes before
    the deadline; otherwise it is rejected with an [AbortError], at once
    when the signal is aborted already. *)
Definition cutBySignal (now : Z) (r : reply) : bool :=
  deadline <=? now + Z.of_N (latency r).

(** One turn of the inner [try]: what it gives, and when.  When the
    signal aborts while the body of an error response is being read,
    the rejection of [res.text()] is caught and the error of the
    response is thrown with an empty text. *)
Definition attempt (now : Z) (r : reply) : (exn + value) * Z :=
  if cutBySignal now r
  then (inl abortError, Z.max now deadline)
  else
    match resp r with
    | HttpErrorLate status statusText bodyAfter body =>
        if deadline <=? now + Z.of_N (latency r) + Z.of_N bodyAfter
        then (inl (httpError status statusText ""), deadline)
        else (inl (httpError status statusText (textOr body)),
              now + Z.of_N (latency r) + Z.of_N bodyAfter)
    | _ => (classify (resp r), now + Z.of_N (latency r))
    end.

(** [sleep(ms)] takes no time for a negative delay, and 1 ms for a
    delay above the longest one. *)
Definition pause (ms : Z) : Z := Z.max 0 (timerDelay ms).

(** The [for] loop, [n] iterations to go, [k] the value of [attempt]:
    what the fetch returns or throws, the events, the time at the end. *)
Fixpoint attemptLoop (n : nat) (k : nat) (now : Z) (lastErr : thrown)
  : (thrown + value) * list event * Z :=
  match n with
  | O => (inl lastErr, [], now)
  | S n' =>
      let call := FetchCall k now (cutBySignal now (srv k)) in
      match attempt now (srv k) with
      | (inr j, t) => (inr j, [call], t)
      | (inl e, t) =>
          if Z.of_nat k <? retries then
            let ms := retryDelayMs * (Z.of_nat k + 1) in
            let '(r, evs, t') := attemptLoop n' (S k) (t + pause ms) (Thrown e) in
            (r, call :: Sleep ms :: evs, t')
          else
            let '(r, evs, t') := attemptLoop n' (S k) t (Thrown e) in
            (r, call :: evs, t')
      end
  end.

Record run : Type := mkRun {
  returned : thrown + value;   (* [inl]: thrown *)
  trace : list event;
  finish : Z
}.

(** [attempt] runs from 0 while [attempt <= retries]. *)
Definition iterations : nat := Z.to_nat (retries + 1).

Definition fetchJson : run :=
  let '(r, evs, t) := attemptLoop iterations 0 0 ThrownUndefined in
  mkRun r (TimerSet timeoutMs :: evs ++ [TimerCleared]) t.

(** When attempt [k] starts if every attempt before it failed. *)
Fixpoint startOf (k : nat) : Z :=
  match k with
  | O => 0
  | S k' =>
      snd (attempt (startOf k') (srv k'))
      + pause (retryDelayMs * (Z.of_nat k' + 1))
  end.

(** How attempt [k] ends if every attempt before it failed. *)
Definition outcomeOf (k : nat) : exn + value :=
  fst (attempt (startOf k) (srv k)).

(** The events of attempt [j] when it fails and is retried, and of
    attempt [k] when it is the last one. *)
Definition failedRound (j : nat) : list event :=
  [ FetchCall j (startOf j) (cutBySignal (startOf j) (srv j));
    Sleep (retryDelayMs * (Z.of_nat j + 1)) ].

Definition lastRound (k : nat) : list event :=
  [ FetchCall k (startOf k) (cutBySignal (startOf k) (srv k)) ].

(** What the fetch returns or throws when attempt [k] is the last one. *)
Definition finalOutcome (k : nat) : thrown + value :=
  match outcomeOf k with
  | inl e => inl (Thrown e)
  | inr j => inr j
  end.

End FetchJson.

Definition failed (o : exn + value) : bool :=
  match o with inl _ => true | inr _ => false end.

Definition calls (evs : list event) : nat :=
  length (filter (fun e => match e with FetchCall _ _ _ => true | _ => false end) evs).



Definition sleeps (evs : list event) : list Z :=
  flat_map (fun e => match e with Sleep ms => [ms] | _ => [] end) evs.


(** A malformed body seen as the transport failure with the same error. *)
Definition asTransportFailure (s : server) : server :=
  fun k =>
    match resp (s k) with
    | Malformed e => mkReply (latency (s k)) (NetworkFailure e)
    | _ => s k
    end.


(** C6 as the claim words it: an attempt that receives a malformed body
    is the last one, and its error is what the fetch throws. *)
Definition parseErrorIsFinal (timeoutMs retries retryDelayMs : Z)
    (srv : server) : Prop :=
  forall k t e,
    In (FetchCall k t false)
       (trace (fetchJson timeoutMs retries retryDelayMs srv)) ->
    resp (srv k) = Malformed e ->
    calls (trace (fetchJson timeoutMs retries retryDelayMs srv)) = S k
    /\ returned (fetchJson timeoutMs retries retryDelayMs srv)
       = inl (Thrown e).


Definition syntaxError : exn :=
  mkExn "SyntaxError" "Unexpected token < in JSON at position 0".

(** An HTML page under a 200 status first, then the JSON document. *)
Definition htmlThenJson : server :=
  fun k =>
    match k with
    | O => mkReply 10 (Malformed syntaxError)
    | _ => mkReply 10 (Body (JObj []))
    end.

(** A reply that takes five seconds first, then prompt ones. *)
Definition slowThenPrompt : server :=
  fun k =>
    match k with
    | O => mkReply 5000 (Body (JObj []))
    | _ => mkReply 10 (Body (JObj []))
    end.

(** A 503 answer, then one whose body takes longer than its headers. *)
Definition bodyCutShort : server :=
  fun k =>
    match k with
    | O => mkReply 10 (HttpError 503 "Service Unavailable" "busy")
    | _ => mkReply 900 (HttpErrorLate 503 "Service Unavailable" 200 (Some "busy"))
    end.

(** Two 503 answers, then the JSON document. *)
Definition twice503 : server :=
  fun k =>
    match k with
    | O | S O => mkReply 10 (HttpError 503 "Service Unavailable" "busy")
    | _ => mkReply 10 (Body (JObj []))
    end.

End Fetch.

(* ------------------------------------------------------------------ *)
(** * One product: discovery, tasks, pooled fetch, matrix *)
(* ------------------------------------------------------------------ *)

Module Extract.

Import Discovery.

(** The settings.  [concurrency] is kept as the limit [parseArgs] may
    give; the bulk driver is studied for a [productConcurrency] that is
    a number. *)
Record Args : Type := mkArgs {
  site : string;
  locale : string;
  concurrency : Pool.limit;
  productConcurrency : Z;
  timeoutMs : Z;
  retries : Z;
  retryDelayMs : Z;
  quantity : value
}.

(** A request target: the path and the [URLSearchParams] in order. *)
Record url : Type := mkUrl { path : string; query : list (string * string) }.

(** [qp.set(k, v)] *)
Fixpoint qset (k v : string) (q : list (string * string))
  : list (string * string) :=
  match q with
  | [] => [(k, v)]
  | (k', v') :: rest =>
      if String.eqb k k'
      then (k, v) :: filter (fun kv => negb (String.eqb k (fst kv))) rest
      else (k', v') :: qset k v rest
  end.

Definition demandwareBase (site locale : string) : string :=
  "https://www.michaelkors.com/on/demandware.store/Sites-" ++ site
    ++ "-Site/" ++ locale.

Definition nonCachedUrl (site locale pid color : string) : url :=
  let qp := qset "pid" pid [] in
  let qp :=
    if nonEmpty color then qset ("dwvar_" ++ pid ++ "_color") color qp
    else qp in
  mkUrl (demandwareBase site locale ++ "/Product-NonCachedAttributes") qp.

Definition variationUrl (site locale pid color size : string)
    (quantity : value) : url :=
  let qp := qset ("dwvar_" ++ pid ++ "_color") color [] in
  let qp := qset ("dwvar_" ++ pid ++ "_size") size qp in
  let qp := qset "pid" pid qp in
  let qp := qset "quantity" (to_string (coalesce quantity (JNum "1"))) qp in
  mkUrl (demandwareBase site locale ++ "/Product-Variation") qp.

Record Cta : Type := mkCta {
  cta_type : string;
  cta_label : value;
  cta_available : bool;
  isNotifyMeActive : bool
}.

Definition ctaFrom (product : value) : Cta :=
  let available := truthy (get product "available") in
  let notify := truthy (get product "isNotifyMeActive") in
  {| cta_type :=
       if available && negb notify then "ADD_TO_BAG" else "NOTIFY_ME";
     cta_label :=
       or_else (get (get product "soldOutLabel") "pdp")
         (JStr (if available then "Add to Bag" else "Notify Me"));
     cta_available := available;
     isNotifyMeActive := notify |}.

Record Price : Type := mkPrice {
  sales : value;
  sales_formatted : value;
  list_ : value;
  list_formatted : value;
  discount_percent : value;
  currency : value
}.

Definition pickPrice (product : value) : Price :=
  let p := or_else (get product "price") (JObj []) in
  {| sales := coalesce (get (get p "sales") "value") JNull;
     sales_formatted := coalesce (get (get p "sales") "formatted") JNull;
     list_ := coalesce (get (get p "list") "value") JNull;
     list_formatted := coalesce (get (get p "list") "formatted") JNull;
     discount_percent := coalesce (get p "discount") JNull;
     currency :=
       coalesce (get (get p "sales") "currency")
         (coalesce (get (get p "list") "currency") JNull) |}.

(** [{ productName, brand }] *)
Definition pickNameBrand (product : value) : value * value :=
  (coalesce (get product "productName") JNull,
   or_else (get product "michael_kors_brand_name")
     (or_else (get product "brand") (JStr "Michael Kors"))).

(** A flat row, one per (color, size). *)
Record Row : Type := mkRow {
  r_ok : bool;
  r_pid : value;
  r_input_sku : value;
  r_input_url : value;
  r_product_name : value;
  r_brand : value;
  r_site : value;
  r_locale : value;
  r_has_size_attribute : value;
  r_color_id : value;
  r_color_name : value;
  r_swatch_url : value;
  r_size_id : value;
  r_size_label : value;
  r_variant_sku : value;
  r_UPC : value;
  r_availableForInStorePickup : value;
  r_selectedProductUrlNoQuantity : value;
  r_cta_type : value;
  r_cta_label : value;
  r_available : value;
  r_notify_me_active : value;
  r_sales_value : value;
  r_sales_formatted : value;
  r_list_value : value;
  r_list_formatted : value;
  r_discount_percent : value;
  r_currency : value;
  r_error : value
}.

(** Where a request is made from: the base query, the name fallback,
    the fetch of task [i]. *)
Inductive callSite : Type :=
| BaseQuery
| NameQuery
| ComboQuery (i : nat).

(** The remote end as one product sees it. *)
Definition network : Type := callSite -> url -> Fetch.server.

Section OneProduct.

Variable net : network.
Variable now : string.               (* [new Date().toISOString()] *)
Variables pid inputSku inputUrl : string.
Variable args : Args.

Definition fetchFrom (c : callSite) (u : url) : Fetch.thrown + value :=
  Fetch.returned
    (Fetch.fetchJson (timeoutMs args) (retries args) (retryDelayMs args)
       (net c u)).

(** [size.id || NS] *)
Definition sizeIdOrNS (s : Size) : string :=
  if nonEmpty (size_id s) then size_id s else "NS".

(** The columns both kinds of row share. *)
Definition rowFor (productName brand : value) (hasSize : bool) (t : Task)
    (ok : bool)
    (variant_sku upc pickup selectedUrl ctaType ctaLabel available notify
       salesValue salesFormatted listValue listFormatted discount currency
       error : value) : Row :=
  {| r_ok := ok;
     r_pid := JStr pid;
     r_input_sku := JStr inputSku;
     r_input_url := JStr inputUrl;
     r_product_name := productName;
     r_brand := brand;
     r_site := JStr (site args);
     r_locale := JStr (locale args);
     r_has_size_attribute := JBool hasSize;
     r_color_id := JStr (color_id (color t));
     r_color_name := color_name (color t);
     r_swatch_url := or_else (swatch_url (color t)) (JStr "");
     r_size_id := JStr (sizeIdOrNS (size t));
     r_size_label :=
       or_else (size_label (size t))
         (or_else (JStr (size_id (size t))) (JStr "NS"));
     r_variant_sku := variant_sku;
     r_UPC := upc;
     r_availableForInStorePickup := pickup;
     r_selectedProductUrlNoQuantity := selectedUrl;
     r_cta_type := ctaType;
     r_cta_label := ctaLabel;
     r_available := available;
     r_notify_me_active := notify;
     r_sales_value := salesValue;
     r_sales_formatted := salesFormatted;
     r_list_value := listValue;
     r_list_formatted := listFormatted;
     r_discount_percent := discount;
     r_currency := currency;
     r_error := error |}.

(** The mapper given to [mapLimit]: the fetch of one combination, its
    failure caught and turned into a row. *)
Definition comboRow (productName brand : value) (hasSize : bool) (t : Task)
    (i : nat) : Row :=
  let u :=
    variationUrl (site args) (locale args) pid (color_id (color t))
      (sizeIdOrNS (size t)) (quantity args) in
  match fetchFrom (ComboQuery i) u with
  | inr j =>
      let p := or_else (get j "product") (JObj []) in
      let cta := ctaFrom p in
      let price := pickPrice p in
      rowFor productName brand hasSize t true
        (JStr (to_string
           (coalesce
              (coalesce (get p "selectedVariationProductId") (get p "id"))
              (JStr ""))))
        (coalesce (get p "UPC") (JStr ""))
        (coalesce (get p "availableForInStorePickup") (JStr ""))
        (coalesce (get p "selectedProductUrlNoQuantity") (JStr ""))
        (JStr (cta_type cta)) (cta_label cta)
        (JBool (cta_available cta)) (JBool (isNotifyMeActive cta))
        (coalesce (sales price) (JStr ""))
        (coalesce (sales_formatted price) (JStr ""))
        (coalesce (list_ price) (JStr ""))
        (coalesce (list_formatted price) (JStr ""))
        (coalesce (discount_percent price) (JStr ""))
        (coalesce (currency price) (JStr ""))
        (JStr "")
  | inl e =>
      rowFor productName brand hasSize t false
        (JStr "") (JStr "") (JStr "") (JStr "") (JStr "") (JStr "")
        (JStr "") (JStr "") (JStr "") (JStr "") (JStr "") (JStr "")
        (JStr "") (JStr "")
        (JStr (Fetch.describe e))
  end.

Definition comboMapper (productName brand : value) (hasSize : bool)
  : Task -> nat -> Pool.outcome Row Fetch.thrown :=
  Pool.resolving Fetch.thrown (comboRow productName brand hasSize).

(** The name and brand: from the base product, or from one variation
    when the base product has no name.  The fallback fetch is not
    guarded: what it throws leaves [extractOneProduct]. *)
Definition resolveNameBrand (baseProduct : value) (v : Variation)
  : Fetch.thrown + (value * value) :=
  let (productName, brand) := pickNameBrand baseProduct in
  if truthy productName then inr (productName, brand)
  else
    let fallbackColor :=
      match colors v with
      | c :: _ => if nonEmpty (color_id c) then color_id c else "0001"
      | [] => "0001"
      end in
    let fallbackSize :=
      match sizes v with
      | s :: _ => sizeIdOrNS s
      | [] => "NS"
      end in
    let vUrl :=
      variationUrl (site args) (locale args) pid fallbackColor fallbackSize
        (quantity args) in
    match fetchFrom NameQuery vUrl with
    | inl e => inl e
    | inr vJson =>
        let nb := pickNameBrand (or_else (get vJson "product") (JObj [])) in
        inr (or_else productName (fst nb), or_else brand (snd nb))
    end.

Record MatrixEntry : Type := mkMatrixEntry {
  m_color_id : value;
  m_color_name : value;
  m_swatch_url : value;
  m_sizes : list (string * Row)
}.

(** [obj[k] = x] for a property of the object itself: the properties
    are kept in the order of their creation; [ownValues] gives the
    order in which the object lists them. *)
Fixpoint assocSet {X : Type} (k : string) (x : X) (l : list (string * X))
  : list (string * X) :=
  match l with
  | [] => [(k, x)]
  | (k', x') :: rest =>
      if String.eqb k k' then (k, x) :: rest else (k', x') :: assocSet k x rest
  end.

Fixpoint assocGet {X : Type} (k : string) (l : list (string * X)) : option X :=
  match l with
  | [] => None
  | (k', x) :: rest => if String.eqb k k' then Some x else assocGet k rest
  end.

(** The names every plain object inherits from [Object.prototype]:
    [matrix[k]] reads the inherited member, a function or, for
    [__proto__], the prototype itself, when [matrix] has no property of
    its own under such a name. *)
Definition inheritedNames : list string :=
  [ "constructor"; "__defineGetter__"; "__defineSetter__"; "hasOwnProperty";
    "__lookupGetter__"; "__lookupSetter__"; "isPrototypeOf";
    "propertyIsEnumerable"; "toString"; "valueOf"; "__proto__";
    "toLocaleString" ].

Definition inherited (k : string) : bool :=
  existsb (String.eqb k) inheritedNames.

(** [sizes[k] = x] on a plain object.  Under the name [__proto__] the
    assignment runs the inherited setter: it makes [x] the prototype of
    [sizes] and stores no property; the later steps only write
    properties and list the own ones, which the prototype does not
    change. *)
Definition setOwn {X : Type} (k : string) (x : X) (l : list (string * X))
  : list (string * X) :=
  if String.eqb k "__proto__" then l else assocSet k x l.

Definition typeErrorSet : Fetch.exn :=
  Fetch.mkExn "TypeError" "Cannot set properties of undefined".

(** The body of the matrix loop for one row.  When [matrix] has no entry
    of its own under the color id and the color id names an inherited
    member, [!matrix[cid]] is false, no entry is created, and the member
    has no [sizes]: the assignment throws. *)
Definition addToMatrix (matrix : list (string * MatrixEntry)) (row : Row)
  : Fetch.thrown + list (string * MatrixEntry) :=
  let cid := to_string (r_color_id row) in
  let sid := to_string (r_size_id row) in
  match assocGet cid matrix with
  | Some entry =>
      inr (assocSet cid
             (mkMatrixEntry (m_color_id entry) (m_color_name entry)
                (m_swatch_url entry) (setOwn sid row (m_sizes entry)))
             matrix)
  | None =>
      if inherited cid then inl (Fetch.Thrown typeErrorSet)
      else
        inr (assocSet cid
               (mkMatrixEntry (r_color_id row) (r_color_name row)
                  (r_swatch_url row) (setOwn sid row []))
               matrix)
  end.

Definition typeError : Fetch.exn :=
  Fetch.mkExn "TypeError" "Cannot read properties of undefined".

Definition rangeError : Fetch.thrown :=
  Fetch.Thrown (Fetch.mkExn "RangeError" "Invalid array length").

(** [for (const row of results)]: a hole of the array reads as
    [undefined], whose [color_id] cannot be read. *)
Fixpoint buildMatrix (results : list (option Row))
    (matrix : list (string * MatrixEntry))
  : Fetch.thrown + list (string * MatrixEntry) :=
  match results with
  | [] => inr matrix
  | None :: _ => inl (Fetch.Thrown typeError)
  | Some row :: rest =>
      match addToMatrix matrix row with
      | inl e => inl e
      | inr matrix' => buildMatrix rest matrix'
      end
  end.

(** The array index a property name stands for, if any: a decimal
    numeral without a leading zero, below 2^32 - 1. *)
Fixpoint decimalFrom (s : string) (acc : N) : option N :=
  match s with
  | EmptyString => Some acc
  | String c rest =>
      let d := N_of_ascii c in
      if N.leb 48 d && N.leb d 57
      then decimalFrom rest (10 * acc + (d - 48))%N
      else None
  end.

Definition arrayIndex (k : string) : option N :=
  match k with
  | EmptyString => None
  | String c rest =>
      if Ascii.eqb c "0" && negb (String.eqb rest "") then None
      else
        match decimalFrom k 0 with
        | Some n => if N.ltb n 4294967295 then Some n else None
        | None => None
        end
  end.

Fixpoint insertIndexed {X : Type} (n : N) (x : X) (l : list (N * X))
  : list (N * X) :=
  match l with
  | [] => [(n, x)]
  | (m, y) :: rest =>
      if N.ltb n m then (n, x) :: l else (m, y) :: insertIndexed n x rest
  end.

(** The properties whose names are array indices, in ascending order of
    index, and the others, in the order of their creation. *)
Fixpoint indexed {X : Type} (l : list (string * X)) : list (N * X) :=
  match l with
  | [] => []
  | (k, x) :: rest =>
      match arrayIndex k with
      | Some n => insertIndexed n x (indexed rest)
      | None => indexed rest
      end
  end.

Fixpoint named {X : Type} (l : list (string * X)) : list X :=
  match l with
  | [] => []
  | (k, x) :: rest =>
      match arrayIndex k with
      | Some _ => named rest
      | None => x :: named rest
      end
  end.

(** [Object.values(obj)]: the properties whose names are array indices
    come first. *)
Definition ownValues {X : Type} (l : list (string * X)) : list X :=
  map snd (indexed l) ++ named l.

Record Extracted : Type := mkExtracted {
  x_pid : string;
  x_input_sku : string;
  x_input_url : string;
  x_product_name : value;
  x_brand : value;
  x_site : string;
  x_locale : string;
  x_extracted_at : string;
  x_has_size_attribute : bool;
  x_colors : list Color;
  x_sizes : list Size;
  x_matrix : list MatrixEntry;
  flatRows : list (option Row)
}.

(** What [extractOneProduct] returns: the product, or the record saying
    that no color was found. *)
Inductive productResult : Type :=
| Product (x : Extracted)
| NoColors (pid inputSku inputUrl error : string).

(** The fetch stage and the aggregation, from the discovered product on. *)
Definition fetchAndAggregate (v : Variation) (productName brand : value)
  : option (Fetch.thrown + productResult) :=
  let tasks := buildTasks (colors v) (sizes v) in
  match
    Pool.mapLimitAt tasks (comboMapper productName brand (hasSizeAttribute v))
      rangeError (concurrency args)
  with
  | None => None
  | Some (inr e) => Some (inl e)
  | Some (inl results) =>
      match buildMatrix results [] with
      | inl e => Some (inl e)
      | inr matrix =>
          Some (inr (Product
            {| x_pid := pid;
               x_input_sku := inputSku;
               x_input_url := inputUrl;
               x_product_name := productName;
               x_brand := brand;
               x_site := site args;
               x_locale := locale args;
               x_extracted_at := now;
               x_has_size_attribute := hasSizeAttribute v;
               x_colors := colors v;
               x_sizes := sizes v;
               x_matrix := ownValues matrix;
               flatRows := results |}))
      end
  end.

(** [None]: the call never returns; [Some (inl e)]: it throws [e]. *)
Definition extractOneProduct : option (Fetch.thrown + productResult) :=
  match
    fetchFrom BaseQuery (nonCachedUrl (site args) (locale args) pid "")
  with
  | inl e => Some (inl e)
  | inr baseJson =>
      let baseProduct := or_else (get baseJson "product") (JObj []) in
      let v := extractVariationAttributes baseProduct in
      if Nat.eqb (length (colors v)) 0 then
        Some (inr (NoColors pid inputSku inputUrl
          "Could not extract colors from NonCachedAttributes response."))
      else
        match resolveNameBrand baseProduct v with
        | inl e => Some (inl e)
        | inr (productName, brand) => fetchAndAggregate v productName brand
        end
  end.




End OneProduct.

(** The settings the script starts from. *)
Definition defaults : Args :=
  mkArgs "mk_us" "en_US" (Pool.Count 6) 2 25000 2 800 (JNum "1").

Definition busy : Fetch.server :=
  fun _ => Fetch.mkReply 10 (Fetch.HttpError 503 "Service Unavailable" "busy").

Definition answering (j : value) : Fetch.server :=
  fun _ => Fetch.mkReply 20 (Fetch.Body j).

(** A bag in two colors: the first combination is answered, the second
    one only gets 503. *)
Definition bagNet : network :=
  fun c _ =>
    match c with
    | BaseQuery => answering (JObj [("product", Discovery.bagProduct)])
    | NameQuery => busy
    | ComboQuery O =>
        answering
          (JObj [("product", JObj [("id", JStr "SKU-1"); ("available", JBool true)])])
    | ComboQuery _ => busy
    end.



End Extract.

(* ------------------------------------------------------------------ *)
(** * The bulk driver: [main] of [mk_matrix_v5.js] *)
(* ------------------------------------------------------------------ *)

Module Bulk.

Import Extract.

(** A row of the input whose product id could be read from its URL. *)
Record Job : Type := mkJob {
  job_inputSku : string;
  job_inputUrl : string;
  job_pid : string
}.

(** An element of [processed]: what [extractOneProduct] returned, or
    the record built by the [catch] around it. *)
Inductive Processed : Type :=
| Done (r : productResult)
| Failed (pid input_sku input_url error : string).

Definition newline : string := String Csv.LF EmptyString.

Definition headers : list string :=
  [ "input_sku"; "input_url"; "pid"; "product_name"; "brand"; "site";
    "locale"; "has_size_attribute"; "color_id"; "color_name"; "swatch_url";
    "size_id"; "size_label"; "variant_sku"; "UPC";
    "availableForInStorePickup"; "selectedProductUrlNoQuantity"; "cta_type";
    "cta_label"; "available"; "notify_me_active"; "sales_value";
    "sales_formatted"; "list_value"; "list_formatted"; "discount_percent";
    "currency"; "error" ].

(** [headers.map((h) => r[h])] *)
Definition columns (r : Row) : list value :=
  [ r_input_sku r; r_input_url r; r_pid r; r_product_name r; r_brand r;
    r_site r; r_locale r; r_has_size_attribute r; r_color_id r;
    r_color_name r; r_swatch_url r; r_size_id r; r_size_label r;
    r_variant_sku r; r_UPC r; r_availableForInStorePickup r;
    r_selectedProductUrlNoQuantity r; r_cta_type r; r_cta_label r;
    r_available r; r_notify_me_active r; r_sales_value r;
    r_sales_formatted r; r_list_value r; r_list_formatted r;
    r_discount_percent r; r_currency r; r_error r ].

(** The lines of the rows; a hole of [flatRows] reads as [undefined],
    whose columns cannot be read. *)
Fixpoint csvRows (flatRows : list (option Row)) : Fetch.thrown + list string :=
  match flatRows with
  | [] => inr []
  | None :: _ => inl (Fetch.Thrown typeError)
  | Some r :: rest =>
      match csvRows rest with
      | inl e => inl e
      | inr ls => inr (Csv.csvLine (columns r) :: ls)
      end
  end.

Definition buildBulkCSV (flatRows : list (option Row)) : Fetch.thrown + string :=
  match csvRows flatRows with
  | inl e => inl e
  | inr ls => inr (join newline (join "," headers :: ls))
  end.

(** The rows [p.flatRows] contributes to [bulkFlatRows]. *)
Definition rowsOf (p : option Processed) : list (option Row) :=
  match p with
  | Some (Done (Product x)) => flatRows x
  | _ => []
  end.

(** The two output files; [None]: not written by this run. *)
Record files : Type := mkFiles {
  bulk_json : option (string * list (option Processed));
      (* [extracted_at], [products] *)
  bulk_csv : option string
}.

Section Main.

Variable net : nat -> network.       (* the remote end, per job *)
Variable clock : nat -> string.      (* the time read while job [i] runs *)
Variable finishedAt : string.        (* the time read when writing *)
Variable args : Args.
Variable validJobs : list Job.

(** The mapper of the outer pool: [extractOneProduct] in a [try]. *)
Definition jobMapper (job : Job) (i : nat)
  : Pool.outcome Processed Fetch.thrown :=
  match
    extractOneProduct (net i) (clock i) (job_pid job) (job_inputSku job)
      (job_inputUrl job) args
  with
  | Some (inr one) => Pool.Resolve (Done one)
  | Some (inl e) =>
      Pool.Resolve
        (Failed (job_pid job) (job_inputSku job) (job_inputUrl job)
           (Fetch.describe e))
  | None => Pool.Never
  end.

(** [main] is either awaiting the outer pool, with nothing written, or
    has ended, with the files it wrote and what it threw, if anything. *)
Inductive phase : Type :=
| Processing (st : Pool.state Processed Fetch.thrown)
| Ended (f : files) (failure : option Fetch.thrown).

(** What follows [await mapLimit(...)] once the pool has a result: the
    JSON file is written, then the CSV file. *)
Definition afterPool (st : Pool.state Processed Fetch.thrown) : phase :=
  match Pool.result st with
  | None => Processing st
  | Some (inr e) => Ended (mkFiles None None) (Some e)
  | Some (inl processed) =>
      match buildBulkCSV (flat_map rowsOf processed) with
      | inr text =>
          Ended (mkFiles (Some (finishedAt, processed)) (Some text)) None
      | inl e => Ended (mkFiles (Some (finishedAt, processed)) None) (Some e)
      end
  end.

Definition main_start : phase :=
  afterPool (Pool.start validJobs (productConcurrency args)).

(** One step of [main]: the promise of worker [w] of the outer pool
    settles; [main] goes on when that completes the pool. *)
Definition main_step (w : nat) (p : phase) : option phase :=
  match p with
  | Processing st =>
      match Pool.settle validJobs jobMapper w st with
      | Some st' => Some (afterPool st')
      | None => None
      end
  | _ => None
  end.

Fixpoint main_run (sched : list nat) (p : phase) : option phase :=
  match sched with
  | [] => Some p
  | w :: rest =>
      match main_step w p with
      | Some p' => main_run rest p'
      | None => None
      end
  end.

Definition written (p : phase) : files :=
  match p with
  | Ended f _ => f
  | Processing _ => mkFiles None None
  end.


End Main.

(** Two bags to extract, one after the other. *)
Definition twoJobs : list Job :=
  [ mkJob "sku-1" "https://www.michaelkors.com/p/35S5S2ZC7B.html" "35S5S2ZC7B";
    mkJob "sku-2" "https://www.michaelkors.com/p/35R4STVF6L.html" "35R4STVF6L" ].

Definition oneAtATime : Args :=
  mkArgs "mk_us" "en_US" (Pool.Count 6) 1 25000 2 800 (JNum "1").

End Bulk.

(* ------------------------------------------------------------------ *)
(** * The incremental driver: the 6pm save-one-by-one script *)
(* ------------------------------------------------------------------ *)

Module Incremental.

Record InputRow : Type := mkInputRow { sku : string; url : string }.

Record ProductSummary : Type := mkSummary {
  s_sku : string;
  s_url : string;
  s_product_id : value;
  s_brand : value;
  s_product_name : value;
  s_variant_count : nat;
  s_extracted_at : string
}.

Record VariantRow : Type := mkVariantRow {
  v_sku : value;
  v_url : value;
  v_product_id : value;
  v_brand : value;
  v_product_name : value;
  v_color_id : value;
  v_color_name : value;
  v_size_label : value;
  v_selling_price : value;
  v_original_price : value;
  v_availability : value
}.

(** A line of the JSONL file, before [JSON.stringify]. *)
Inductive SummaryLine : Type :=
| SummaryOf (s : ProductSummary)
| ErrorOf (sku url error extracted_at : string).

(** The line of the CSV file for one variant. *)
Definition variantLine (v : VariantRow) : string :=
  Csv.csvLine
    [ v_sku v; v_url v; v_product_id v; v_brand v; v_product_name v;
      v_color_id v; v_color_name v; v_size_label v; v_original_price v;
      v_selling_price v; v_availability v ].

Definition csvHeader : string :=
  join ","
    [ "sku"; "url"; "product_id"; "brand"; "product_name"; "color_id";
      "color_name"; "size_label"; "original_price"; "selling_price";
      "availability" ].

(** The two sinks as the lines appended to them. *)
Record sinks : Type := mkSinks {
  jsonl : list SummaryLine;
  csv : list string
}.

Inductive event : Type :=
| Extract (i : nat)               (* [extractProduct(page, row)] for item [i] *)
| AppendJsonl (i : nat)
| AppendCsv (i : nat).

Record state : Type := mkState {
  files : sinks;
  history : list event
}.

Section Driver.

(** [extractProduct] drives a browser page; it is taken as given: what
    it returns or throws for the item at position [i]. *)
Variable extractProduct :
  nat -> InputRow -> Fetch.thrown + (ProductSummary * list VariantRow).
Variable clock : nat -> string.
Variable inputRows : list InputRow.

(** [for (const v of variantRows) appendLine(csvOut, line)] *)
Fixpoint appendVariants (i : nat) (vs : list VariantRow) (st : state) : state :=
  match vs with
  | [] => st
  | v :: rest =>
      appendVariants i rest
        (mkState
           (mkSinks (jsonl (files st)) (csv (files st) ++ [variantLine v]))
           (history st ++ [AppendCsv i]))
  end.

(** The body of the loop for item [i]. *)
Definition processItem (i : nat) (row : InputRow) (st : state) : state :=
  let st0 := mkState (files st) (history st ++ [Extract i]) in
  match extractProduct i row with
  | inr (productSummary, variantRows) =>
      appendVariants i variantRows
        (mkState
           (mkSinks (jsonl (files st0) ++ [SummaryOf productSummary])
              (csv (files st0)))
           (history st0 ++ [AppendJsonl i]))
  | inl e =>
      mkState
        (mkSinks
           (jsonl (files st0)
              ++ [ErrorOf (sku row) (url row) (Fetch.describe e) (clock i)])
           (csv (files st0)))
        (history st0 ++ [AppendJsonl i])
  end.

(** [ensureCsvHeader] and the creation of the JSONL file: the sinks
    keep what an earlier run left in them. *)
Definition prepare (before : sinks) : state :=
  mkState
    (mkSinks (jsonl before)
       (match csv before with [] => [csvHeader] | _ => csv before end))
    [].

(** The script leaves at once when the input has no row; otherwise it
    prepares the sinks. *)
Definition begin (before : sinks) : state :=
  match inputRows with
  | [] => mkState before []
  | _ => prepare before
  end.

(** The state after [k] iterations of the loop. *)
Fixpoint after (k : nat) (before : sinks) : state :=
  match k with
  | O => begin before
  | S k' =>
      match nth_error inputRows k' with
      | Some row => processItem k' row (after k' before)
      | None => after k' before
      end
  end.

(** What item [i] contributes to each sink. *)
Definition summaryLineOf (i : nat) (row : InputRow) : SummaryLine :=
  match extractProduct i row with
  | inr (productSummary, _) => SummaryOf productSummary
  | inl e => ErrorOf (sku row) (url row) (Fetch.describe e) (clock i)
  end.

Definition csvLinesOf (i : nat) (row : InputRow) : list string :=
  match extractProduct i row with
  | inr (_, variantRows) => map variantLine variantRows
  | inl _ => []
  end.

Definition eventsOf (i : nat) (row : InputRow) : list event :=
  Extract i :: AppendJsonl i
    :: repeat (AppendCsv i) (length (csvLinesOf i row)).

(** What the first [k] items contribute to the sinks and to the history. *)
Definition summariesOf (k : nat) : list SummaryLine :=
  Pool.mapi (fun row i => summaryLineOf i row) (firstn k inputRows).

Definition csvLinesUpTo (k : nat) : list string :=
  concat (Pool.mapi (fun row i => csvLinesOf i row) (firstn k inputRows)).

Definition eventsUpTo (k : nat) : list event :=
  concat (Pool.mapi (fun row i => eventsOf i row) (firstn k inputRows)).

End Driver.

End Incremental.

(* ------------------------------------------------------------------ *)
(** * Reading the input file *)
(* ------------------------------------------------------------------ *)

Module Input.

Import Incremental.

(** Strings are sequences of code units below 256.  The white space and
    line terminators among them, as [trim] sees them: TAB, LF, VT, FF,
    CR, SP and NBSP. *)
Definition isSpace (c : ascii) : bool :=
  let n := nat_of_ascii c in
  (Nat.leb 9 n && Nat.leb n 13) || Nat.eqb n 32 || Nat.eqb n 160.

Fixpoint trimStart (s : string) : string :=
  match s with
  | EmptyString => EmptyString
  | String c s' => if isSpace c then trimStart s' else s
  end.

Fixpoint trimEnd (s : string) : string :=
  match s with
  | EmptyString => EmptyString
  | String c s' =>
      match trimEnd s' with
      | EmptyString => if isSpace c then EmptyString else String c EmptyString
      | t => String c t
      end
  end.

(** [s.trim()] *)
Definition trim (s : string) : string := trimEnd (trimStart s).

(** [s.toLowerCase()] on code units below 256: the letters A to Z and
    the capital letters of the Latin-1 supplement. *)
Definition lowerChar (c : ascii) : ascii :=
  let n := nat_of_ascii c in
  if (Nat.leb 65 n && Nat.leb n 90)
     || (Nat.leb 192 n && Nat.leb n 222 && negb (Nat.eqb n 215))
  then ascii_of_nat (n + 32)
  else c.

Fixpoint toLowerCase (s : string) : string :=
  match s with
  | EmptyString => EmptyString
  | String c s' => String (lowerChar c) (toLowerCase s')
  end.

(** [s.split(/\r?\n/)]: a line ends at LF or at CR LF; [cur] is the
    line being read. *)
Fixpoint splitLinesLoop (s cur : string) : list string :=
  match s with
  | EmptyString => [cur]
  | String c rest =>
      if Ascii.eqb c Csv.LF then cur :: splitLinesLoop rest ""
      else
        match rest with
        | String c' rest' =>
            if Ascii.eqb c Csv.CR && Ascii.eqb c' Csv.LF
            then cur :: splitLinesLoop rest' ""
            else splitLinesLoop rest (cur ++ String c EmptyString)
        | EmptyString => splitLinesLoop rest (cur ++ String c EmptyString)
        end
  end.

Definition splitLines (s : string) : list string := splitLinesLoop s "".

(** [s.split(sep)] for a separator of one character. *)
Fixpoint splitOn (sep : ascii) (s cur : string) : list string :=
  match s with
  | EmptyString => [cur]
  | String c rest =>
      if Ascii.eqb c sep then cur :: splitOn sep rest ""
      else splitOn sep rest (cur ++ String c EmptyString)
  end.

(** [l.findIndex(p)]; [None] stands for -1. *)
Fixpoint findIndexFrom {X : Type} (p : X -> bool) (l : list X) (i : nat)
  : option nat :=
  match l with
  | [] => None
  | x :: rest => if p x then Some i else findIndexFrom p rest (S i)
  end.

Definition findIndex {X : Type} (p : X -> bool) (l : list X) : option nat :=
  findIndexFrom p l 0.

(** ** [parseSimpleCSV] of the bulk extractor *)

Definition headerError : Fetch.exn :=
  Fetch.mkExn "Error"
    ("Input CSV must have headers: "
       ++ String Csv.dquote ("sku,url" ++ String Csv.dquote EmptyString)).

(** The loop over the lines after the header; [cols[i] ?? empty] reads
    a missing column as the empty string. *)
Fixpoint parseRows (skuIdx urlIdx : nat) (lines : list string)
    (rows : list InputRow) : list InputRow :=
  match lines with
  | [] => rows
  | line :: rest =>
      let cols := Csv.splitCSVLine line in
      let sku := trim (nth skuIdx cols "") in
      let url := trim (nth urlIdx cols "") in
      if String.eqb sku "" || String.eqb url ""
      then parseRows skuIdx urlIdx rest rows
      else parseRows skuIdx urlIdx rest (rows ++ [mkInputRow sku url])
  end.

(** The lines that are not blank. *)
Definition nonBlankLines (text : string) : list string :=
  filter (fun l => negb (String.eqb (trim l) "")) (splitLines text).

(** What [parseSimpleCSV] returns ([inr]) or throws ([inl]). *)
Definition parseSimpleCSV (text : string) : Fetch.exn + list InputRow :=
  match nonBlankLines text with
  | [] => inr []
  | first :: rest =>
      let header := map trim (Csv.splitCSVLine first) in
      match
        findIndex (fun h => String.eqb (toLowerCase h) "sku") header,
        findIndex (fun h => String.eqb (toLowerCase h) "url") header
      with
      | Some skuIdx, Some urlIdx => inr (parseRows skuIdx urlIdx rest [])
      | _, _ => inl headerError
      end
  end.

(** ** [readInputCSV] of the save-one-by-one script *)

(** The loop over the lines after the header: the line is cut at every
    comma, the first part is the sku and the other parts, joined back,
    are the url. *)
Fixpoint readRows (lines : list string) (rows : list InputRow)
  : list InputRow :=
  match lines with
  | [] => rows
  | line :: rest =>
      if String.eqb (trim line) "" then readRows rest rows
      else
        let parts := splitOn Csv.comma line "" in
        let sku := trim (hd "" parts) in
        let url := trim (join "," (tl parts)) in
        if String.eqb sku "" || String.eqb url ""
        then readRows rest rows
        else readRows rest (rows ++ [mkInputRow sku url])
  end.

(** [content] is what [fs.readFileSync(filePath)] gives. *)
Definition readInputCSV (content : string) : list InputRow :=
  let raw := trim content in
  if String.eqb raw "" then []
  else
    match splitLines raw with
    | [] => []
    | header :: lines =>
        if String.eqb header "" then [] else readRows lines []
    end.

(** A field that [trim] leaves as it is and that is not empty. *)
Definition trimmed (s : string) : Prop := s <> "" /\ trim s = s.

Fixpoint has_comma (s : string) : bool :=
  match s with
  | EmptyString => false
  | String c s' => Ascii.eqb c Csv.comma || has_comma s'
  end.

Fixpoint has_quote (s : string) : bool :=
  match s with
  | EmptyString => false
  | String c s' => Ascii.eqb c Csv.dquote || has_quote s'
  end.

Fixpoint allSpace (s : string) : bool :=
  match s with
  | EmptyString => true
  | String c s' => isSpace c && allSpace s'
  end.

(** The line terminators the readers accept. *)
Definition CRLF : string := String Csv.CR (String Csv.LF EmptyString).
Definition LFonly : string := String Csv.LF EmptyString.

Definition lineEnd (eol : string) : Prop := eol = LFonly \/ eol = CRLF.

(** What a file ends with: nothing, or a last line terminator. *)
Definition trailerOf (eol trailer : string) : Prop :=
  trailer = "" \/ trailer = eol.

(** A field of one line that the readers give back as it is. *)
Definition plainField (s : string) : Prop :=
  trimmed s /\ Csv.has_newline s = false.

(** An input file: the header, then a line per row written by
    [writeRow], the lines separated by [eol]. *)
Definition fileOf (eol header : string) (writeRow : InputRow -> string)
    (rows : list InputRow) : string :=
  join eol (header :: map writeRow rows).

(** A row written with [csvEscape], and written as it is. *)
Definition escapedRow (r : InputRow) : string :=
  Csv.csvLine [JStr (sku r); JStr (url r)].

Definition plainRow (r : InputRow) : string :=
  (sku r ++ "," ++ url r)%string.

(** The rows each reader gives back: for [readInputCSV] the sku has no
    comma; for [parseSimpleCSV] the fields are written with [csvEscape]. *)
Definition readable (r : InputRow) : Prop :=
  plainField (sku r) /\ has_comma (sku r) = false /\ plainField (url r).

Definition escapable (r : InputRow) : Prop :=
  plainField (sku r) /\ plainField (url r).

Definition sampleRows : list InputRow :=
  [ mkInputRow "451-lot6267"
      "https://www.6pm.com/p/womens-calvin-klein-presley/product/10008224";
    mkInputRow "a b" "https://example.com/p?x=1,2" ].

End Input.

(* ------------------------------------------------------------------ *)
(** * What the written files hold *)
(* ------------------------------------------------------------------ *)

Module Output.

Import Incremental.

(** What a cell written by [csvEscape] reads as: [null] and
    [undefined] are written as the empty string. *)
Definition render (v : value) : string :=
  match v with
  | JNull | JUndefined => ""
  | _ => to_string v
  end.

(** The cells of a line of the 6pm file, in the order of its header. *)
Definition variantColumns (v : VariantRow) : list value :=
  [ v_sku v; v_url v; v_product_id v; v_brand v; v_product_name v;
    v_color_id v; v_color_name v; v_size_label v; v_original_price v;
    v_selling_price v; v_availability v ].

(** A remote end that only answers 503 to the first job, and serves
    the bag to the others. *)
Definition firstJobDown : nat -> Extract.network :=
  fun i =>
    match i with
    | O => fun _ _ => Extract.busy
    | _ => Extract.bagNet
    end.

(** An extraction that finds one variant without a size. *)
Definition oneVariant (i : nat) (row : InputRow)
  : Fetch.thrown + (ProductSummary * list VariantRow) :=
  inr (mkSummary (sku row) (url row) (JStr "10008224") (JStr "Calvin Klein")
         (JStr "Presley") 1 "2026-01-01T00:00:00.000Z",
       [ mkVariantRow (JStr (sku row)) (JStr (url row)) (JStr "10008224")
           (JStr "Calvin Klein") (JStr "Presley") (JStr "3") (JStr "Black")
           (JStr "NS") (JNum "59.99") JNull (JStr "IN STOCK") ]).

Definition variantHeaders : list string :=
  [ "sku"; "url"; "product_id"; "brand"; "product_name"; "color_id";
    "color_name"; "size_label"; "original_price"; "selling_price";
    "availability" ].

End Output.

(* ------------------------------------------------------------------ *)
(** * Reading the log of a pool *)
(* ------------------------------------------------------------------ *)

Module PoolLog.

Import Pool.

(** The first [s] tasks, each started and settled before the next. *)
Definition alternating (s : nat) : list event :=
  flat_map (fun i => [Start i; Settle i]) (seq 0 s).

(** The log after [s] settlements when [n] tasks are processed one at a
    time: the next task, if there is one, has been started. *)
Definition oneWorkerLog (n s : nat) : list event :=
  alternating s ++ (if Nat.ltb s n then [Start s] else []).

(** The state of a pool of one worker after [s] settlements, [n] being
    the number of items. *)
Definition sequentialAt {B E : Type} (n s : nat) (st : state B E) : Prop :=
  idx st = S s
  /\ log st = oneWorkerLog n s
  /\ workers st = [if Nat.ltb s n then Awaiting s else Returned].

(** A task that has settled was fulfilled, unless the pool is rejected. *)
Definition settledResolved {A B E : Type} (items : list A)
    (mapper : A -> nat -> outcome B E) (st : state B E) : Prop :=
  forall i x,
    In i (settles (log st)) ->
    nth_error items i = Some x ->
    (exists b, mapper x i = Resolve b) \/ rejection st <> None.

End PoolLog.

(* ------------------------------------------------------------------ *)
(** * Reading the matrix *)
(* ------------------------------------------------------------------ *)

Module Matrix.

Import Extract.

(** The keys a row is stored under: [row.color_id] and [row.size_id]
    used as property names. *)
Definition colorKey (r : Row) : string := to_string (r_color_id r).
Definition sizeKey (r : Row) : string := to_string (r_size_id r).

Definition hasKey (cid sid : string) (r : Row) : bool :=
  String.eqb cid (colorKey r) && String.eqb sid (sizeKey r).

(** The row the matrix itself holds under a color id and a size id:
    the own property [sid] of the [sizes] of its own property [cid]. *)
Definition cell (matrix : list (string * MatrixEntry)) (cid sid : string)
  : option Row :=
  match assocGet cid matrix with
  | Some e => assocGet sid (m_sizes e)
  | None => None
  end.

(** A row is stored under its ids unless its size id is [__proto__],
    which the assignment does not store as a property. *)
Definition stored (cid sid : string) (r : Row) : bool :=
  hasKey cid sid r && negb (String.eqb sid "__proto__").

(** No entry of the matrix is under an inherited name. *)
Definition keysClean (m : list (string * MatrixEntry)) : Prop :=
  forall k, In k (map fst m) -> inherited k = false.

(** What an entry says of its color. *)
Definition heading (e : MatrixEntry) : value * value * value :=
  (m_color_id e, m_color_name e, m_swatch_url e).

Definition headingOf (r : Row) : value * value * value :=
  (r_color_id r, r_color_name r, r_swatch_url r).

End Matrix.

(* ------------------------------------------------------------------ *)
(** * The single-product extractor, [mk_matrix_v4.js] *)
(* ------------------------------------------------------------------ *)

Module V4.

Import Discovery Extract.


(** A row of [flatRows], built from a result after the pool. *)
Record FlatRow : Type := mkFlatRow {
  f_pid : value;
  f_product_name : value;
  f_brand : value;
  f_site : value;
  f_locale : value;
  f_color_id : value;
  f_color_name : value;
  f_size_id : value;
  f_size_label : value;
  f_sku : value;
  f_UPC : value;
  f_availableForInStorePickup : value;
  f_cta_type : value;
  f_cta_label : value;
  f_available : value;
  f_notify_me_active : value;
  f_sales_value : value;
  f_sales_formatted : value;
  f_list_value : value;
  f_list_formatted : value;
  f_discount_percent : value;
  f_currency : value;
  f_error : value
}.

Section Single.

Variable net : network.
Variable pid : string.
Variable args : Args.



End Single.

Definition headers : list string :=
  [ "pid"; "product_name"; "brand"; "site"; "locale"; "color_id";
    "color_name"; "size_id"; "size_label"; "sku"; "UPC";
    "availableForInStorePickup"; "cta_type"; "cta_label"; "available";
    "notify_me_active"; "sales_value"; "sales_formatted"; "list_value";
    "list_formatted"; "discount_percent"; "currency"; "error" ].

(** [headers.map((h) => r[h])] *)
Definition columns (r : FlatRow) : list value :=
  [ f_pid r; f_product_name r; f_brand r; f_site r; f_locale r;
    f_color_id r; f_color_name r; f_size_id r; f_size_label r; f_sku r;
    f_UPC r; f_availableForInStorePickup r; f_cta_type r; f_cta_label r;
    f_available r; f_notify_me_active r; f_sales_value r;
    f_sales_formatted r; f_list_value r; f_list_formatted r;
    f_discount_percent r; f_currency r; f_error r ].



End V4.

(* ------------------------------------------------------------------ *)
(** * How long a fetch lasts *)
(* ------------------------------------------------------------------ *)

Module Duration.

Import Fetch.
Local Open Scope Z_scope.




End Duration.

(* ================================================================== *)
(** * Properties *)
(* ================================================================== *)

Module CsvFacts.

Import Csv.

Lemma append_snoc (a : string) (c : ascii) (b : string) :
  ((a ++ String c EmptyString) ++ b = a ++ String c b)%string.
Proof.
  induction a as [|x a IH]; simpl; [reflexivity | now rewrite IH].
Qed.

Lemma append_empty_r (a : string) : (a ++ "" = a)%string.
Proof.
  induction a as [|x a IH]; simpl; [reflexivity | now rewrite IH].
Qed.

Lemma append_assoc (a b c : string) :
  ((a ++ b) ++ c = a ++ (b ++ c))%string.
Proof.
  induction a as [|x a IH]; simpl; [reflexivity | now rewrite IH].
Qed.

Lemma splitLoop_open (r cur : string) (out : list string) :
  splitLoop (String dquote r) cur false out = splitLoop r cur true out.
Proof. destruct r; reflexivity. Qed.

Lemma splitLoop_close (r cur : string) (out : list string) :
  noLeadingQuote r ->
  splitLoop (String dquote r) cur true out = splitLoop r cur false out.
Proof.
  destruct r as [|c r]; simpl; intros H; [reflexivity | now rewrite H].
Qed.

Lemma splitLoop_comma (r cur : string) (out : list string) :
  splitLoop (String comma r) cur false out = splitLoop r "" false (out ++ [cur]).
Proof. reflexivity. Qed.

(** A field written as it is: it is read back character by character. *)
Lemma splitLoop_plain (s r cur : string) (out : list string) :
  needs_quoting s = false ->
  splitLoop (s ++ r) cur false out = splitLoop r (cur ++ s) false out.
Proof.
  revert cur; induction s as [|c s IH]; intros cur H; simpl.
  - now rewrite append_empty_r.
  - simpl in H.
    apply orb_false_iff in H as [H Hs].
    apply orb_false_iff in H as [H _].
    apply orb_false_iff in H as [H _].
    apply orb_false_iff in H as [Hq Hc].
    rewrite Hq, Hc; simpl.
    rewrite IH by assumption. now rewrite append_snoc.
Qed.

(** Inside the quotes every doubled quote is read back as one quote. *)
Lemma splitLoop_quoted (s r cur : string) (out : list string) :
  noLeadingQuote r ->
  splitLoop (double_quotes s ++ String dquote r) cur true out
  = splitLoop r (cur ++ s) false out.
Proof.
  intros Hr; revert cur; induction s as [|c s IH]; intros cur; simpl.
  - rewrite append_empty_r. now apply splitLoop_close.
  - destruct (Ascii.eqb c dquote) eqn:Hc.
    + apply Ascii.eqb_eq in Hc; subst c. simpl.
      rewrite IH. now rewrite append_snoc.
    + simpl. rewrite Hc. rewrite andb_false_r.
      rewrite IH. now rewrite append_snoc.
Qed.

Lemma splitLoop_field (f r : string) (out : list string) :
  noLeadingQuote r ->
  splitLoop (csvEscapeStr f ++ r) "" false out = splitLoop r f false out.
Proof.
  intros Hr. unfold csvEscapeStr.
  destruct (needs_quoting f) eqn:Hf.
  - change (String dquote (double_quotes f ++ String dquote "") ++ r)%string
      with (String dquote ((double_quotes f ++ String dquote "") ++ r))%string.
    rewrite splitLoop_open, append_snoc.
    now rewrite splitLoop_quoted.
  - now rewrite splitLoop_plain.
Qed.

Lemma splitLoop_fields (fs : list string) :
  forall (f : string) (out : list string),
    splitLoop (join "," (map csvEscapeStr (f :: fs))) "" false out
    = out ++ f :: fs.
Proof.
  induction fs as [|g fs IH]; intros f out.
  - simpl. rewrite <- (append_empty_r (csvEscapeStr f)).
    now rewrite splitLoop_field.
  - change (join "," (map csvEscapeStr (f :: g :: fs)))
      with (csvEscapeStr f ++ String comma (join "," (map csvEscapeStr (g :: fs))))%string.
    rewrite splitLoop_field by reflexivity.
    rewrite splitLoop_comma, IH.
    now rewrite <- app_assoc.
Qed.

Lemma csvEscape_JStr (fields : list string) :
  map csvEscape (map JStr fields) = map csvEscapeStr fields.
Proof.
  induction fields as [|f fs IH]; simpl; [reflexivity | now rewrite IH].
Qed.

(** C10, as stated, fails at the empty list of fields: the join is the
    empty line, which [splitCSVLine] reads as one empty field. *)
Lemma csv_round_trip_fails_on_no_field :
  exists fields : list string,
    fields = []
    /\ Forall (fun f => has_newline f = false) fields
    /\ splitCSVLine (csvLine (map JStr fields)) = [""]
    /\ ~ roundTrip fields.
Proof.
  exists []. repeat split.
  - constructor.
  - unfold roundTrip; intros H.
    specialize (H (Forall_nil _)). discriminate H.
Qed.

(** C10 (amended).  For every list of at least one field, none holding
    a newline character, [splitCSVLine] applied to the comma-join of the
    [csvEscape] images gives the list back; [csvEscape] maps [null] and
    [undefined] to the empty string. *)
Theorem csv_round_trip (fields : list string) :
  fields <> [] ->
  Forall (fun f => has_newline f = false) fields ->
  splitCSVLine (csvLine (map JStr fields)) = fields
  /\ csvEscape JNull = "" /\ csvEscape JUndefined = "".
Proof.
  intros Hne _. split; [|split; reflexivity].
  destruct fields as [|f fs]; [congruence|].
  unfold splitCSVLine, csvLine. rewrite csvEscape_JStr.
  now rewrite splitLoop_fields.
Qed.

Lemma csv_round_trip_witness :
  splitCSVLine (csvLine (map JStr sampleFields)) = sampleFields
  /\ csvEscape JNull = "" /\ csvEscape JUndefined = "".
Proof.
  apply (csv_round_trip (fields := sampleFields)).
  - discriminate.
  - repeat constructor.
Defined.

End CsvFacts.

Module DiscoveryFacts.

Import Discovery.




Lemma pushSizes_spec (c : Color) (sizes : list Size) :
  forall tasks, pushSizes c sizes tasks = tasks ++ map (mkTask c) sizes.
Proof.
  induction sizes as [|s sizes IH]; intros tasks; simpl.
  - now rewrite app_nil_r.
  - rewrite IH, <- app_assoc. reflexivity.
Qed.

Lemma pushColors_spec (colors : list Color) (sizes : list Size) :
  forall tasks,
    pushColors colors sizes tasks
    = tasks ++ flat_map (fun c => map (mkTask c) sizes) colors.
Proof.
  induction colors as [|c colors IH]; intros tasks; simpl.
  - now rewrite app_nil_r.
  - rewrite IH, pushSizes_spec, <- app_assoc. reflexivity.
Qed.

Lemma buildTasks_flat_map (colors : list Color) (sizes : list Size) :
  buildTasks colors sizes = flat_map (fun c => map (mkTask c) sizes) colors.
Proof. unfold buildTasks. now rewrite pushColors_spec. Qed.

Lemma buildTasks_length (colors : list Color) (sizes : list Size) :
  length (buildTasks colors sizes) = length colors * length sizes.
Proof.
  rewrite buildTasks_flat_map.
  induction colors as [|c colors IH]; simpl; [reflexivity|].
  now rewrite length_app, length_map, IH.
Qed.

Lemma combinations_of_one_color (c : Color) (sizes : list Size) :
  map combination (map (mkTask c) sizes)
  = map (fun combo => inl c :: combo)
      (cartesian_spec [map (@inr Color Size) sizes]).
Proof.
  induction sizes as [|s sizes IH]; simpl; [reflexivity|].
  simpl in IH. now rewrite IH.
Qed.

Lemma buildTasks_cartesian (colors : list Color) (sizes : list Size) :
  map combination (buildTasks colors sizes)
  = cartesian_spec [map inl colors; map inr sizes].
Proof.
  rewrite buildTasks_flat_map.
  induction colors as [|c colors IH]; [reflexivity|].
  change (flat_map (fun c0 => map (mkTask c0) sizes) (c :: colors))
    with (map (mkTask c) sizes ++ flat_map (fun c0 => map (mkTask c0) sizes) colors).
  rewrite map_app, IH, combinations_of_one_color. reflexivity.
Qed.

(** The task at position [i * |sizes| + j] pairs color [i] with size [j]. *)
Lemma buildTasks_nth (colors : list Color) (sizes : list Size) :
  forall i j c s,
    nth_error colors i = Some c ->
    nth_error sizes j = Some s ->
    nth_error (buildTasks colors sizes) (i * length sizes + j)
    = Some (mkTask c s).
Proof.
  rewrite buildTasks_flat_map.
  induction colors as [|c0 colors IH]; intros i j c s Hc Hs.
  - destruct i; discriminate.
  - assert (Hj : j < length sizes) by (apply nth_error_Some; congruence).
    destruct i as [|i]; simpl in *.
    + injection Hc as ->.
      rewrite nth_error_app1 by (now rewrite length_map).
      now rewrite nth_error_map, Hs.
    + rewrite nth_error_app2 by (rewrite length_map; lia).
      rewrite length_map.
      replace (length sizes + i * length sizes + j - length sizes)
        with (i * length sizes + j) by lia.
      now apply IH.
Qed.


(** C3.  The tasks are the full cartesian product of the colors and the
    sizes, the color varying slowest: the list the specification's
    product gives on the two dimensions, of length the product of the
    two counts, task [i * |sizes| + j] pairing color [i] with size [j];
    for colors A, B and sizes S, M it is (A,S), (A,M), (B,S), (B,M). *)
Theorem combinations_are_the_cartesian_product
    (colors : list Color) (sizes : list Size) :
  map combination (buildTasks colors sizes)
    = cartesian_spec [map inl colors; map inr sizes]
  /\ length (buildTasks colors sizes) = length colors * length sizes
  /\ (forall i j c s,
        nth_error colors i = Some c ->
        nth_error sizes j = Some s ->
        nth_error (buildTasks colors sizes) (i * length sizes + j)
        = Some (mkTask c s))
  /\ (forall t,
        In t (buildTasks colors sizes)
        <-> In (color t) colors /\ In (size t) sizes)
  /\ buildTasks [colorA; colorB] [sizeS; sizeM]
     = [ mkTask colorA sizeS; mkTask colorA sizeM;
         mkTask colorB sizeS; mkTask colorB sizeM ].
Proof.
  split; [apply buildTasks_cartesian|].
  split; [apply buildTasks_length|].
  split; [apply buildTasks_nth|].
  split; [|reflexivity].
  intros [c s]. rewrite buildTasks_flat_map, in_flat_map. simpl. split.
  - intros [c' [Hc Hin]]. apply in_map_iff in Hin as [s' [E Hs]].
    injection E as -> ->. now split.
  - intros [Hc Hs]. exists c. split; [exact Hc|].
    apply in_map_iff. now exists s.
Qed.




(** Outside C8: a size attribute that is declared with values none of
    which can be selected leaves no size at all, and so no combination. *)
Example unselectable_sizes_leave_no_size :
  sizes (extractVariationAttributes soldOutSizes) = []
  /\ hasSizeAttribute (extractVariationAttributes soldOutSizes) = true.
Proof. split; reflexivity. Qed.

End DiscoveryFacts.

Module FetchFacts.

Import Fetch.
Local Open Scope Z_scope.

Section Loop.

Variables timeoutMs retryDelayMs : Z.
Variable R : nat.
Variable srv : server.

Lemma attemptLoop_retries (n : nat) :
  forall (k : nat) (lastErr : thrown),
    (k + n = R)%nat ->
    (forall j, (k <= j < R)%nat ->
               failed (outcomeOf timeoutMs retryDelayMs srv j) = true) ->
    exists t,
      attemptLoop timeoutMs (Z.of_nat R) retryDelayMs srv (S n) k
        (startOf timeoutMs retryDelayMs srv k) lastErr
      = (finalOutcome timeoutMs retryDelayMs srv R,
         flat_map (failedRound timeoutMs retryDelayMs srv) (seq k n)
           ++ lastRound timeoutMs retryDelayMs srv R, t).
Proof.
  induction n as [|n IH]; intros k lastErr Hk Hfail.
  - assert (k = R) by lia. subst k.
    unfold finalOutcome, outcomeOf, lastRound. simpl.
    destruct (attempt timeoutMs (startOf timeoutMs retryDelayMs srv R) (srv R))
      as [[e | j] t]; simpl.
    + rewrite Z.ltb_irrefl. now exists t.
    + now exists t.
  - assert (Hlt : (k < R)%nat) by lia.
    pose proof (Hfail k (conj (le_n k) Hlt)) as Hf.
    unfold outcomeOf in Hf.
    change (attemptLoop timeoutMs (Z.of_nat R) retryDelayMs srv (S (S n)) k
              (startOf timeoutMs retryDelayMs srv k) lastErr)
      with
      (let call :=
         FetchCall k (startOf timeoutMs retryDelayMs srv k)
           (cutBySignal timeoutMs (startOf timeoutMs retryDelayMs srv k) (srv k)) in
       match attempt timeoutMs (startOf timeoutMs retryDelayMs srv k) (srv k) with
       | (inr j, t) => (inr j, [call], t)
       | (inl e, t) =>
           if Z.of_nat k <? Z.of_nat R then
             let ms := retryDelayMs * (Z.of_nat k + 1) in
             let '(r, evs, t') :=
               attemptLoop timeoutMs (Z.of_nat R) retryDelayMs srv (S n) (S k)
                 (t + pause ms) (Thrown e) in
             (r, call :: Sleep ms :: evs, t')
           else
             let '(r, evs, t') :=
               attemptLoop timeoutMs (Z.of_nat R) retryDelayMs srv (S n) (S k)
                 t (Thrown e) in
             (r, call :: evs, t')
       end).
    cbv zeta.
    destruct (attempt timeoutMs (startOf timeoutMs retryDelayMs srv k) (srv k))
      as [[e | j] t] eqn:Ha; [|discriminate Hf].
    assert (Hk' : (Z.of_nat k <? Z.of_nat R) = true) by (apply Z.ltb_lt; lia).
    rewrite Hk'.
    assert (Hstart : t + pause (retryDelayMs * (Z.of_nat k + 1))
                     = startOf timeoutMs retryDelayMs srv (S k)).
    { simpl. now rewrite Ha. }
    rewrite Hstart.
    destruct (IH (S k) (Thrown e) ltac:(lia)
                ltac:(intros; apply Hfail; lia)) as [t1 E].
    rewrite E. exists t1. reflexivity.
Qed.

End Loop.

Lemma calls_app (a b : list event) : calls (a ++ b) = (calls a + calls b)%nat.
Proof. unfold calls. now rewrite filter_app, length_app. Qed.

Lemma sleeps_app (a b : list event) : sleeps (a ++ b) = sleeps a ++ sleeps b.
Proof. unfold sleeps. now rewrite flat_map_app. Qed.

Lemma calls_rounds (T B : Z) (srv : server) (n : nat) :
  forall k, calls (flat_map (failedRound T B srv) (seq k n)) = n.
Proof.
  induction n as [|n IH]; intros k; [reflexivity|].
  simpl. unfold calls in *. simpl. now rewrite IH.
Qed.

Lemma sleeps_rounds (T B : Z) (srv : server) (n : nat) :
  forall k,
    sleeps (flat_map (failedRound T B srv) (seq k n))
    = map (fun j => B * Z.of_nat j) (seq (S k) n).
Proof.
  induction n as [|n IH]; intros k; [reflexivity|].
  simpl. unfold sleeps in *. simpl. rewrite IH. f_equal. f_equal. lia.
Qed.

(** Whatever the remote end does, the loop makes no more calls than it
    has iterations. *)
Lemma attemptLoop_calls (T R B : Z) (srv : server) (n : nat) :
  forall k now lastErr,
    (calls (snd (fst (attemptLoop T R B srv n k now lastErr))) <= n)%nat.
Proof.
  induction n as [|n IH]; intros k now lastErr; [apply Nat.le_refl|].
  simpl. destruct (attempt T now (srv k)) as [[e | j] t].
  - destruct (Z.of_nat k <? R).
    + specialize (IH (S k) (t + pause (B * (Z.of_nat k + 1))) (Thrown e)).
      destruct (attemptLoop T R B srv n (S k)
                  (t + pause (B * (Z.of_nat k + 1))) (Thrown e)) as [[r evs] t'].
      unfold calls in *; simpl in *. lia.
    + specialize (IH (S k) t (Thrown e)).
      destruct (attemptLoop T R B srv n (S k) t (Thrown e)) as [[r evs] t'].
      unfold calls in *; simpl in *. lia.
  - unfold calls; simpl. lia.
Qed.

Lemma fetch_calls_bounded (timeoutMs retries retryDelayMs : Z) (srv : server) :
  (calls (trace (fetchJson timeoutMs retries retryDelayMs srv))
   <= Z.to_nat (retries + 1))%nat.
Proof.
  unfold fetchJson.
  pose proof (attemptLoop_calls timeoutMs retries retryDelayMs srv
                (iterations retries) 0 0 ThrownUndefined) as H.
  destruct (attemptLoop timeoutMs retries retryDelayMs srv (iterations retries)
              0 0 ThrownUndefined) as [[r evs] t].
  simpl in *. change (TimerSet timeoutMs :: evs ++ [TimerCleared])
    with ([TimerSet timeoutMs] ++ evs ++ [TimerCleared]).
  rewrite !calls_app. unfold calls at 1 3; simpl. unfold iterations in H. lia.
Qed.



Lemma attempt_asTransportFailure (T now : Z) (srv : server) (k : nat) :
  attempt T now (asTransportFailure srv k) = attempt T now (srv k).
Proof.
  unfold attempt, cutBySignal, asTransportFailure.
  destruct (srv k) as [lat [e | st tx b | st tx ba b | e | j]]; reflexivity.
Qed.

Lemma cut_asTransportFailure (T now : Z) (srv : server) (k : nat) :
  cutBySignal T now (asTransportFailure srv k) = cutBySignal T now (srv k).
Proof.
  unfold cutBySignal, asTransportFailure.
  destruct (srv k) as [lat [e | st tx b | st tx ba b | e | j]]; reflexivity.
Qed.

Lemma attemptLoop_asTransportFailure (T R B : Z) (srv : server) (n : nat) :
  forall k now lastErr,
    attemptLoop T R B (asTransportFailure srv) n k now lastErr
    = attemptLoop T R B srv n k now lastErr.
Proof.
  induction n as [|n IH]; intros k now lastErr; [reflexivity|].
  simpl. rewrite attempt_asTransportFailure, cut_asTransportFailure.
  destruct (attempt T now (srv k)) as [[e | j] t]; [|reflexivity].
  now rewrite !IH.
Qed.

(** C6, as stated, fails: with the default settings an HTML page under a
    200 status on the first attempt is followed by a sleep and a second
    call, whose JSON document is what the fetch returns. *)
Lemma malformed_body_is_retried :
  resp (htmlThenJson 0%nat) = Malformed syntaxError
  /\ trace (fetchJson 25000 2 800 htmlThenJson)
     = [ TimerSet 25000; FetchCall 0 0 false; Sleep 800;
         FetchCall 1 810 false; TimerCleared ]
  /\ returned (fetchJson 25000 2 800 htmlThenJson) = inr (JObj [])
  /\ ~ parseErrorIsFinal 25000 2 800 htmlThenJson.
Proof.
  repeat split.
  intros H.
  destruct (H 0%nat 0 syntaxError) as [Hcalls _].
  - vm_compute. right; left; reflexivity.
  - reflexivity.
  - vm_compute in Hcalls. discriminate Hcalls.
Qed.

(** C6 (amended).  A malformed body is caught by the handler of the
    transport and status failures and treated as they are: the fetch
    behaves as if the attempt had failed in transport with the same
    error, so it is retried after the same sleep while attempts are
    left, and its error is thrown when it was the last attempt. *)
Theorem malformed_body_handled_as_failure
    (timeoutMs retries retryDelayMs : Z) (srv : server) :
  fetchJson timeoutMs retries retryDelayMs srv
  = fetchJson timeoutMs retries retryDelayMs (asTransportFailure srv).
Proof.
  unfold fetchJson. now rewrite attemptLoop_asTransportFailure.
Qed.






End FetchFacts.

Module PoolFacts.

Import Pool.

(** ** Arrays *)

Lemma length_update {X : Type} (n : nat) (x : X) (l : list X) :
  length (update n x l) = length l.
Proof.
  revert n; induction l as [|h t IH]; intros [|n]; simpl; auto.
Qed.

Lemma nth_error_update_eq {X : Type} (n : nat) (x : X) (l : list X) :
  n < length l -> nth_error (update n x l) n = Some x.
Proof.
  revert n; induction l as [|h t IH]; intros [|n] H; simpl in *; try lia; auto.
  apply IH; lia.
Qed.

Lemma nth_error_update_neq {X : Type} (n m : nat) (x : X) (l : list X) :
  n <> m -> nth_error (update n x l) m = nth_error l m.
Proof.
  revert n m; induction l as [|h t IH]; intros [|n] [|m] H; simpl; auto.
  congruence.
Qed.

(** ** The log *)

Lemma starts_app (a b : list event) : starts (a ++ b) = starts a ++ starts b.
Proof. unfold starts. apply flat_map_app. Qed.

Lemma settles_app (a b : list event) : settles (a ++ b) = settles a ++ settles b.
Proof. unfold settles. apply flat_map_app. Qed.

Lemma starts_snoc_start (a : list event) (i : nat) :
  starts (a ++ [Start i]) = starts a ++ [i].
Proof. now rewrite starts_app. Qed.

Lemma starts_snoc_settle (a : list event) (i : nat) :
  starts (a ++ [Settle i]) = starts a.
Proof. rewrite starts_app. apply app_nil_r. Qed.

Lemma settles_snoc_start (a : list event) (i : nat) :
  settles (a ++ [Start i]) = settles a.
Proof. rewrite settles_app. apply app_nil_r. Qed.

Lemma settles_snoc_settle (a : list event) (i : nat) :
  settles (a ++ [Settle i]) = settles a ++ [i].
Proof. now rewrite settles_app. Qed.

Ltac norm_log :=
  rewrite ?starts_snoc_start, ?starts_snoc_settle, ?settles_snoc_start,
    ?settles_snoc_settle.

Ltac norm_log_in H :=
  rewrite ?starts_snoc_start, ?starts_snoc_settle, ?settles_snoc_start,
    ?settles_snoc_settle in H.

Lemma inFlight_app (a b : list event) :
  forall n, inFlight (a ++ b) n = inFlight b (inFlight a n).
Proof.
  induction a as [|[i|i] a IH]; intros n; simpl; auto.
Qed.

Lemma peak_ge (a : list event) : forall n, n <= peak a n.
Proof. induction a as [|[i|i] a IH]; intros n; simpl; lia. Qed.

Lemma peak_app (a b : list event) :
  forall n, peak (a ++ b) n = Nat.max (peak a n) (peak b (inFlight a n)).
Proof.
  induction a as [|[i|i] a IH]; intros n; simpl.
  - pose proof (peak_ge b n). lia.
  - rewrite IH. lia.
  - rewrite IH. lia.
Qed.

(** ** Workers *)

Lemma awaitingCount_le {E : Type} (ws : list (worker E)) :
  awaitingCount ws <= length ws.
Proof. apply filter_length_le. Qed.

Lemma awaitingCount_app {E : Type} (a b : list (worker E)) :
  awaitingCount (a ++ b) = awaitingCount a + awaitingCount b.
Proof. unfold awaitingCount. now rewrite filter_app, length_app. Qed.

Lemma awaitingCount_update {E : Type} (n : nat) (x old : worker E)
    (ws : list (worker E)) :
  nth_error ws n = Some old ->
  awaitingCount (update n x ws) + weight old = awaitingCount ws + weight x.
Proof.
  revert n; induction ws as [|h t IH]; intros [|n] H; simpl in *; try discriminate.
  - injection H as ->. unfold awaitingCount, weight; simpl.
    destruct (isAwaiting old), (isAwaiting x); simpl; lia.
  - specialize (IH n H). unfold awaitingCount in *; simpl.
    destruct (isAwaiting h); simpl; lia.
Qed.

Lemma existsb_isAwaiting {E : Type} (ws : list (worker E)) :
  existsb isAwaiting ws = false <-> awaitingCount ws = 0.
Proof.
  unfold awaitingCount.
  induction ws as [|w ws IH]; simpl; [tauto|].
  destruct (isAwaiting w); simpl; [split; discriminate | exact IH].
Qed.


Lemma nth_error_snoc_inv {X : Type} (l : list X) (x y : X) (v : nat) :
  nth_error (l ++ [x]) v = Some y ->
  nth_error l v = Some y \/ (v = length l /\ y = x).
Proof.
  intros H. destruct (Nat.lt_ge_cases v (length l)) as [Hv | Hv].
  - left. now rewrite nth_error_app1 in H.
  - rewrite nth_error_app2 in H by assumption.
    destruct (v - length l) as [|d] eqn:Hd; simpl in H.
    + right. split; [lia | congruence].
    + destruct d; discriminate.
Qed.

Lemma nth_error_update_inv {X : Type} (l : list X) (x y : X) (w v : nat) :
  nth_error (update w x l) v = Some y ->
  (v = w /\ y = x) \/ (v <> w /\ nth_error l v = Some y).
Proof.
  intros H. destruct (Nat.eq_dec w v) as [-> | Hne].
  - left. split; [reflexivity|].
    assert (Hlt : v < length l).
    { rewrite <- (length_update v x l). apply nth_error_Some. congruence. }
    rewrite nth_error_update_eq in H by assumption. congruence.
  - right. rewrite nth_error_update_neq in H by assumption. split; auto.
Qed.

Lemma existsb_eqb_snoc (i my : nat) (l : list nat) :
  existsb (Nat.eqb i) (l ++ [my]) = existsb (Nat.eqb i) l || Nat.eqb i my.
Proof. rewrite existsb_app. simpl. now rewrite orb_false_r. Qed.

Section Invariant.

Variables A B E : Type.
Variable items : list A.
Variable mapper : A -> nat -> outcome B E.

Lemma dispatch_cases (st : state B E) :
  (idx st < length items
   /\ dispatch items st
      = (Awaiting (idx st),
         mkState (S (idx st)) (out st) (workers st) (rejection st)
           (log st ++ [Start (idx st)])))
  \/ (length items <= idx st
      /\ dispatch items st
         = (Returned,
            mkState (S (idx st)) (out st) (workers st) (rejection st) (log st))).
Proof.
  unfold dispatch. destruct (nth_error items (idx st)) eqn:Hn.
  - left. split; [|reflexivity]. apply nth_error_Some. congruence.
  - right. split; [|reflexivity]. now apply nth_error_None.
Qed.

Lemma inv_init (K : nat) : inv items mapper K (init items).
Proof.
  constructor; simpl; try reflexivity; try lia.
  - now rewrite repeat_length.
  - intros w i H. destruct w; discriminate.
  - intros i x Hx. apply nth_error_repeat. apply nth_error_Some. congruence.
  - intros w H. destruct w; discriminate.
Qed.

(** A worker is started. *)
Lemma inv_spawn_step (K : nat) (st : state B E) :
  inv items mapper K st ->
  length (workers st) < K ->
  inv items mapper K
    (mkState (idx (snd (dispatch items st))) (out (snd (dispatch items st)))
       (workers (snd (dispatch items st)) ++ [fst (dispatch items st)])
       (rejection (snd (dispatch items st))) (log (snd (dispatch items st)))).
Proof.
  intros [Hlen Hws Hst Haw Hcov Hout Hret Hcnt Hfl Hpk] HK.
  pose proof (awaitingCount_le (workers st)) as Hle.
  destruct (dispatch_cases st) as [[Hi ->] | [Hi ->]];
    constructor; cbn [idx out workers rejection log fst snd]; auto.
  - rewrite length_app; simpl; lia.
  - norm_log. rewrite Hst.
    rewrite Nat.min_l, Nat.min_l by lia. now rewrite seq_S.
  - intros w i H. norm_log. apply in_or_app.
    apply nth_error_snoc_inv in H as [H | [_ H]].
    + left. eauto.
    + right. injection H as ->. now left.
  - intros i H. norm_log_in H. norm_log.
    apply in_app_or in H as [H | [<- | []]].
    + destruct (Hcov i H) as [Hs | [w Hw]]; [now left|].
      right. exists w. rewrite nth_error_app1; [exact Hw|].
      apply nth_error_Some. congruence.
    + right. exists (length (workers st)).
      rewrite nth_error_app2, Nat.sub_diag by lia. reflexivity.
  - intros i x Hx. norm_log. auto.
  - intros w H. apply nth_error_snoc_inv in H as [H | [_ H]];
      [apply Hret in H; lia | discriminate].
  - norm_log. rewrite awaitingCount_app, !length_app; simpl.
    unfold awaitingCount at 2; simpl. lia.
  - rewrite inFlight_app, awaitingCount_app; simpl.
    unfold awaitingCount at 2; simpl. lia.
  - rewrite peak_app; simpl. rewrite Hfl. lia.
  - rewrite length_app; simpl; lia.
  - rewrite Hst. rewrite !Nat.min_r by lia. reflexivity.
  - intros w i H. apply nth_error_snoc_inv in H as [H | [_ H]];
      [eauto | discriminate].
  - intros i H. destruct (Hcov i H) as [Hs | [w Hw]]; [now left|].
    right. exists w. rewrite nth_error_app1; [exact Hw|].
    apply nth_error_Some. congruence.
  - rewrite awaitingCount_app. unfold awaitingCount at 2; simpl. lia.
  - rewrite awaitingCount_app. unfold awaitingCount at 2; simpl. lia.
Qed.

(** A promise settles. *)
Lemma inv_settle (K : nat) (w : nat) (st st' : state B E) :
  inv items mapper K st -> settle items mapper w st = Some st' -> inv items mapper K st'.
Proof.
  intros [Hlen Hws Hst Haw Hcov Hout Hret Hcnt Hfl Hpk] Hstep.
  unfold settle in Hstep.
  destruct (nth_error (workers st) w) as [[my| |e0]|] eqn:Hw; try discriminate.
  destruct (nth_error items my) as [x|] eqn:Hx; [|discriminate].
  assert (Hwlt : w < length (workers st)) by (apply nth_error_Some; congruence).
  assert (Hmy : my < length items) by (apply nth_error_Some; congruence).
  pose proof (awaitingCount_le (workers st)) as Hle.
  assert (Hupd : forall y,
             awaitingCount (update w y (workers st)) + 1
             = awaitingCount (workers st) + weight y).
  { intros y. exact (@awaitingCount_update E w y (Awaiting my) (workers st) Hw). }
  assert (Hpos : 1 <= awaitingCount (workers st)).
  { pose proof (Hupd (@Returned E)) as H. unfold weight in H; simpl in H. lia. }
  assert (Hcov' : forall ws' i,
             (forall v j, v <> w -> nth_error (workers st) v = Some j ->
                          nth_error ws' v = Some j) ->
             In i (starts (log st)) ->
             In i (settles (log st) ++ [my])
             \/ exists v, nth_error ws' v = Some (Awaiting i)).
  { intros ws' i Hkeep Hin.
    destruct (Hcov i Hin) as [Hs | [v Hv]].
    - left. apply in_or_app. now left.
    - destruct (Nat.eq_dec v w) as [-> | Hne].
      + left. apply in_or_app. right. left. congruence.
      + right. exists v. now apply Hkeep. }
  assert (Hkeep : forall y v (j : worker E),
             v <> w -> nth_error (workers st) v = Some j ->
             nth_error (update w y (workers st)) v = Some j).
  { intros y v j Hne Hv. rewrite nth_error_update_neq by auto. exact Hv. }
  assert (Hout' : forall out' i x0,
             (forall j, j <> my -> nth_error out' j = nth_error (out st) j) ->
             nth_error out' my = Some (stored (mapper x my)) ->
             nth_error items i = Some x0 ->
             nth_error out' i
             = Some (if existsb (Nat.eqb i) (settles (log st) ++ [my])
                     then stored (mapper x0 i) else None)).
  { intros out' i x0 Hsame Hnew Hi.
    rewrite existsb_eqb_snoc.
    destruct (Nat.eq_dec i my) as [-> | Hne].
    - rewrite Nat.eqb_refl, orb_true_r. rewrite Hnew. congruence.
    - rewrite Hsame by assumption.
      apply Nat.eqb_neq in Hne. rewrite Hne, orb_false_r. now apply Hout. }
  destruct (mapper x my) as [b|e|] eqn:Hm; [| |discriminate].
  - (* the promise is fulfilled *)
    destruct (dispatch_cases
                (mkState (idx st) (update my (Some b) (out st)) (workers st)
                   (rejection st) (log st ++ [Settle my])))
      as [[Hi Hd] | [Hi Hd]];
      cbn [idx out workers rejection log] in Hi, Hd; rewrite Hd in Hstep;
      injection Hstep as <-;
      constructor; cbn [idx out workers rejection log fst snd].
    + now rewrite length_update.
    + now rewrite length_update.
    + norm_log. rewrite Hst.
      rewrite Nat.min_l, Nat.min_l by lia. now rewrite seq_S.
    + intros v i H. norm_log.
      apply in_or_app.
      apply nth_error_update_inv in H as [[_ H] | [_ H]].
      * right. injection H as ->. now left.
      * left. eauto.
    + intros i H. norm_log_in H. norm_log.
      apply in_app_or in H as [H | [<- | []]].
      * apply Hcov'; auto.
      * right. exists w. now apply nth_error_update_eq.
    + intros i x0 Hi0. norm_log.
      apply Hout'; auto.
      * intros j Hj. apply nth_error_update_neq. auto.
      * simpl. apply nth_error_update_eq. lia.
    + intros v H. apply nth_error_update_inv in H as [[_ H] | [_ H]];
        [discriminate | apply Hret in H; lia].
    + norm_log. rewrite ?length_app; simpl.
      specialize (Hupd (@Awaiting E (idx st))). unfold weight in Hupd; simpl in Hupd.
      lia.
    + rewrite !inFlight_app; simpl. rewrite Hfl.
      specialize (Hupd (@Awaiting E (idx st))). unfold weight in Hupd; simpl in Hupd.
      lia.
    + rewrite !peak_app; simpl. rewrite !inFlight_app; simpl. rewrite Hfl.
      specialize (Hupd (@Awaiting E (idx st))). unfold weight in Hupd; simpl in Hupd.
      lia.
    + now rewrite length_update.
    + now rewrite length_update.
    + norm_log. rewrite Hst.
      rewrite !Nat.min_r by lia. reflexivity.
    + intros v i H. norm_log.
      apply nth_error_update_inv in H as [[_ H] | [_ H]];
        [discriminate | eauto].
    + intros i H. norm_log_in H. norm_log.
      apply Hcov'; auto.
    + intros i x0 Hi0. norm_log.
      apply Hout'; auto.
      * intros j Hj. apply nth_error_update_neq. auto.
      * simpl. apply nth_error_update_eq. lia.
    + intros v H. lia.
    + norm_log. rewrite ?length_app; simpl.
      specialize (Hupd (@Returned E)). unfold weight in Hupd; simpl in Hupd.
      lia.
    + rewrite !inFlight_app; simpl. rewrite Hfl.
      specialize (Hupd (@Returned E)). unfold weight in Hupd; simpl in Hupd.
      lia.
    + rewrite !peak_app; simpl. rewrite Hfl. lia.
  - (* the promise is rejected *)
    injection Hstep as <-.
    constructor; cbn [idx out workers rejection log fst snd].
    + exact Hlen.
    + now rewrite length_update.
    + norm_log. exact Hst.
    + intros v i H. norm_log.
      apply nth_error_update_inv in H as [[_ H] | [_ H]];
        [discriminate | eauto].
    + intros i H. norm_log_in H. norm_log.
      apply Hcov'; auto.
    + intros i x0 Hi0. norm_log.
      apply Hout'; auto.
      simpl. rewrite (Hout my x Hx), ?Hm; simpl. now destruct (existsb _ _).
    + intros v H. apply nth_error_update_inv in H as [[_ H] | [_ H]];
        [discriminate | eauto].
    + norm_log. rewrite ?length_app; simpl.
      specialize (Hupd (@Threw E e)). unfold weight in Hupd; simpl in Hupd.
      lia.
    + rewrite !inFlight_app; simpl. rewrite Hfl.
      specialize (Hupd (@Threw E e)). unfold weight in Hupd; simpl in Hupd.
      lia.
    + rewrite !peak_app; simpl. rewrite Hfl. lia.
Qed.

Lemma inv_spawn (K : nat) (n : nat) :
  forall st,
    inv items mapper K st ->
    length (workers st) + n <= K ->
    inv items mapper K (spawn items n st)
    /\ length (workers (spawn items n st)) = length (workers st) + n
    /\ settles (log (spawn items n st)) = settles (log st)
    /\ rejection (spawn items n st) = rejection st
    /\ (forall w e, nth_error (workers (spawn items n st)) w = Some (Threw e) ->
                    nth_error (workers st) w = Some (Threw e)).
Proof.
  induction n as [|n IH]; intros st Hinv HK.
  - simpl. rewrite Nat.add_0_r. auto.
  - pose proof (@inv_spawn_step K st Hinv ltac:(lia)) as Hstep.
    simpl. destruct (dispatch_cases st) as [[Hi Hd] | [Hi Hd]];
      rewrite Hd in *; cbn [fst snd idx out workers rejection log] in *;
      destruct (IH _ Hstep) as (H1 & H2 & H3 & H4 & H5);
      cbn [idx out workers rejection log] in *;
      try (rewrite length_app; simpl; lia);
      (split; [exact H1|]); rewrite H2, H3, H4, length_app; simpl;
      (split; [lia|]); norm_log; (split; [reflexivity|]);
      (split; [reflexivity|]);
      intros w e Hw; apply H5 in Hw;
      apply nth_error_snoc_inv in Hw as [Hw | [_ Hw]];
      solve [exact Hw | discriminate].
Qed.

Lemma inv_start (limit : Z) :
  inv items mapper (workerCount limit) (start items limit)
  /\ length (workers (start (B := B) (E := E) items limit)) = workerCount limit
  /\ settles (log (start (B := B) (E := E) items limit)) = []
  /\ rejection (start (B := B) (E := E) items limit) = None
  /\ (forall w e,
        nth_error (workers (start (B := B) (E := E) items limit)) w
        <> Some (Threw e)).
Proof.
  destruct (@inv_spawn (workerCount limit) (workerCount limit) (init items)
              (inv_init _) ltac:(simpl; lia)) as (H1 & H2 & H3 & H4 & H5).
  unfold start.
  split; [exact H1|]. split; [exact H2|]. split; [exact H3|].
  split; [exact H4|].
  intros w e Hw. apply H5 in Hw. destruct w; discriminate.
Qed.

Lemma settle_facts (w : nat) (st st' : state B E) :
  settle items mapper w st = Some st' ->
  length (workers st') = length (workers st)
  /\ length (settles (log st')) = S (length (settles (log st))).
Proof.
  unfold settle.
  destruct (nth_error (workers st) w) as [[my| |e0]|]; try discriminate.
  destruct (nth_error items my) as [x|]; [|discriminate].
  destruct (mapper x my) as [b|e|]; [| |discriminate].
  - destruct (dispatch_cases
                (mkState (idx st) (update my (Some b) (out st)) (workers st)
                   (rejection st) (log st ++ [Settle my])))
      as [[_ ->] | [_ ->]]; intros H; injection H as <-;
      cbn [workers log]; norm_log; rewrite length_update, length_app; simpl;
      split; lia.
  - intros H; injection H as <-. cbn [workers log]. norm_log.
    rewrite length_update, length_app; simpl. split; lia.
Qed.

Lemma run_facts (K : nat) (sched : list nat) :
  forall st st',
    inv items mapper K st ->
    run items mapper sched st = Some st' ->
    inv items mapper K st'
    /\ length (workers st') = length (workers st)
    /\ length (settles (log st')) = length (settles (log st)) + length sched.
Proof.
  induction sched as [|w sched IH]; intros st st' Hinv Hrun; simpl in Hrun.
  - injection Hrun as <-.
    split; [exact Hinv|]. split; [reflexivity|]. simpl; lia.
  - destruct (settle items mapper w st) as [st1|] eqn:Hs; [|discriminate].
    destruct (@settle_facts w st st1 Hs) as [Hl Hn].
    destruct (IH _ _ (@inv_settle K w st st1 Hinv Hs) Hrun) as (H1 & H2 & H3).
    split; [exact H1|]. split; simpl; lia.
Qed.

(** The settled tasks are never more than the items. *)
Lemma settled_le (K : nat) (st : state B E) :
  inv items mapper K st -> length (settles (log st)) <= length items.
Proof.
  intros H. pose proof (inv_count H) as Hc. rewrite (inv_starts H) in Hc.
  rewrite length_seq in Hc. lia.
Qed.

(** When every worker has returned, every task has settled and its
    slot holds what its promise left. *)
Lemma all_returned (K : nat) (st : state B E) :
  inv items mapper K st ->
  1 <= length (workers st) ->
  forallb isReturned (workers st) = true ->
  length (settles (log st)) = length items
  /\ forall i x,
       nth_error items i = Some x ->
       In i (settles (log st))
       /\ nth_error (out st) i = Some (stored (mapper x i)).
Proof.
  intros Hinv Hne Hall.
  assert (Hidx : length items <= idx st).
  { destruct (workers st) as [|w0 ws] eqn:Hws; [simpl in Hne; lia|].
    simpl in Hall. apply andb_true_iff in Hall as [H0 _].
    destruct w0; try discriminate.
    apply (inv_ret Hinv 0). now rewrite Hws. }
  assert (Hnone : forall w i, nth_error (workers st) w <> Some (Awaiting i)).
  { intros w i Hw. rewrite forallb_forall in Hall.
    apply nth_error_In in Hw. apply Hall in Hw. discriminate. }
  assert (Hcnt0 : awaitingCount (workers st) = 0).
  { apply existsb_isAwaiting.
    destruct (existsb isAwaiting (workers st)) eqn:Hex; [|reflexivity].
    apply existsb_exists in Hex as [w [Hin Hw]].
    rewrite forallb_forall in Hall. apply Hall in Hin.
    destruct w; discriminate. }
  split.
  - pose proof (inv_count Hinv) as Hc. rewrite (inv_starts Hinv) in Hc.
    rewrite length_seq, Hcnt0 in Hc. lia.
  - intros i x Hx.
    assert (Hi : i < length items) by (apply nth_error_Some; congruence).
    assert (Hin : In i (settles (log st))).
    { destruct (inv_cover Hinv i) as [Hs | [w Hw]]; auto.
      - rewrite (inv_starts Hinv). apply in_seq. lia.
      - now apply Hnone in Hw. }
    split; [exact Hin|].
    rewrite (inv_out Hinv i Hx).
    replace (existsb (Nat.eqb i) (settles (log st))) with true; [reflexivity|].
    symmetry. apply existsb_exists. exists i. split; [exact Hin|].
    apply Nat.eqb_refl.
Qed.

End Invariant.

(** ** Tasks that never reject *)

Section Resolving.

Variables A B E : Type.
Variable items : list A.
Variable f : A -> nat -> B.

Lemma settle_clean (w : nat) (st st' : state B E) :
  clean st -> settle items (resolving E f) w st = Some st' -> clean st'.
Proof.
  intros [Hr Ht]. unfold settle, resolving.
  destruct (nth_error (workers st) w) as [[my| |e0]|]; try discriminate.
  destruct (nth_error items my) as [x|]; [|discriminate].
  destruct (dispatch_cases items
              (mkState (idx st) (update my (Some (f x my)) (out st)) (workers st)
                 (rejection st) (log st ++ [Settle my])))
    as [[_ ->] | [_ ->]]; intros H; injection H as <-;
    (split; [exact Hr|]); cbn [workers]; intros v e Hv;
    apply nth_error_update_inv in Hv as [[_ Hv] | [_ Hv]];
    solve [discriminate | now apply Ht in Hv].
Qed.

Lemma run_clean (sched : list nat) :
  forall st st' : state B E,
    clean st -> run items (resolving E f) sched st = Some st' -> clean st'.
Proof.
  induction sched as [|w sched IH]; intros st st' Hc Hrun; simpl in Hrun.
  - now injection Hrun as <-.
  - destruct (settle items (resolving E f) w st) as [st1|] eqn:Hs;
      [|discriminate].
    eapply IH; [|exact Hrun]. eapply settle_clean; eauto.
Qed.

(** While a worker has not returned, some promise can settle. *)
Lemma progress (K : nat) (st : state B E) :
  inv items (resolving E f) K st ->
  clean st ->
  forallb isReturned (workers st) = false ->
  exists w st',
    w < length (workers st)
    /\ settle items (resolving E f) w st = Some st'.
Proof.
  intros Hinv [_ Ht] Hall.
  assert (Hex : exists w x, nth_error (workers st) w = Some x
                            /\ isReturned x = false).
  { clear Hinv Ht. induction (workers st) as [|x ws IH]; [discriminate|].
    simpl in Hall. destruct (isReturned x) eqn:Hx.
    - destruct (IH Hall) as (w & y & Hw & Hy). now exists (S w), y.
    - now exists 0, x. }
  destruct Hex as (w & x & Hw & Hx).
  destruct x as [my| |e]; [|discriminate | now apply Ht in Hw].
  pose proof (inv_await Hinv _ Hw) as Hin.
  rewrite (inv_starts Hinv) in Hin. apply in_seq in Hin.
  assert (Hmy : my < length items) by lia.
  apply nth_error_Some in Hmy.
  destruct (nth_error items my) as [a|] eqn:Ha; [|congruence].
  exists w. unfold settle. rewrite Hw, Ha. unfold resolving at 1.
  destruct (dispatch items _) as [w' st2].
  eexists. split; [|reflexivity].
  apply nth_error_Some. congruence.
Qed.

Lemma nth_error_mapi_from (l : list A) :
  forall k i,
    nth_error (mapi_from f k l) i
    = option_map (fun x => f x (k + i)) (nth_error l i).
Proof.
  induction l as [|x l IH]; intros k [|i]; simpl; try reflexivity.
  - now rewrite Nat.add_0_r.
  - rewrite IH. now rewrite Nat.add_succ_r.
Qed.

Lemma length_mapi_from (l : list A) :
  forall k, length (mapi_from f k l) = length l.
Proof. induction l as [|x l IH]; intros k; simpl; auto. Qed.

(** The array of a run whose workers have all returned. *)
Lemma out_when_returned (K : nat) (st : state B E) :
  inv items (resolving E f) K st ->
  1 <= length (workers st) ->
  forallb isReturned (workers st) = true ->
  out st = map Some (mapi f items).
Proof.
  intros Hinv Hne Hall.
  destruct (all_returned Hinv Hne Hall) as [_ Hout].
  apply nth_error_ext. intros i.
  rewrite nth_error_map. unfold mapi. rewrite nth_error_mapi_from.
  destruct (nth_error items i) as [x|] eqn:Hx; simpl.
  - now destruct (Hout i x Hx) as [_ ->].
  - apply nth_error_None. rewrite (inv_out_len Hinv).
    now apply nth_error_None.
Qed.

Lemma no_awaiting_all_returned (st : state B E) :
  clean st ->
  awaitingCount (workers st) = 0 ->
  forallb isReturned (workers st) = true.
Proof.
  intros [_ Ht] H0. apply forallb_forall. intros x Hin.
  apply In_nth_error in Hin as [w Hw].
  destruct x as [my| |e]; [|reflexivity | now apply Ht in Hw].
  exfalso. apply existsb_isAwaiting in H0.
  assert (Hex : existsb isAwaiting (workers st) = true).
  { apply existsb_exists. exists (Awaiting my). split; [|reflexivity].
    eapply nth_error_In; eauto. }
  congruence.
Qed.

Lemma firstReady_spec (ws : list nat) (st : state B E) :
  match firstReady items (resolving E f) ws st with
  | Some w => exists st', settle items (resolving E f) w st = Some st'
  | None => forall w, In w ws -> settle items (resolving E f) w st = None
  end.
Proof.
  induction ws as [|w ws IH]; simpl; [intros w []|].
  destruct (settle items (resolving E f) w st) as [st'|] eqn:Hs.
  - now exists st'.
  - destruct (firstReady items (resolving E f) ws st); [exact IH|].
    intros v [<- | Hv]; auto.
Qed.

(** [drain] follows a schedule, to the end when the fuel allows. *)
Lemma drain_reaches (K : nat) (fuel : nat) :
  forall st : state B E,
    inv items (resolving E f) K st ->
    clean st ->
    exists sched,
      run items (resolving E f) sched st
      = Some (drain items (resolving E f) fuel st)
      /\ (length sched = fuel
          \/ forallb isReturned
               (workers (drain items (resolving E f) fuel st)) = true).
Proof.
  induction fuel as [|fuel IH]; intros st Hinv Hc.
  - exists []. split; [reflexivity | now left].
  - simpl.
    pose proof (firstReady_spec (seq 0 (length (workers st))) st) as Hfr.
    destruct (firstReady items (resolving E f) (seq 0 (length (workers st))) st)
      as [w|].
    + destruct Hfr as [st' Hs]. rewrite Hs.
      destruct (IH st' (inv_settle w Hinv Hs) (@settle_clean w st st' Hc Hs))
        as (sched & Hrun & Hend).
      exists (w :: sched). simpl. rewrite Hs. split; [exact Hrun|].
      destruct Hend as [Hl | Hr]; [left; simpl; lia | now right].
    + exists []. split; [reflexivity|]. right.
      destruct (forallb isReturned (workers st)) eqn:Hall; [reflexivity|].
      destruct (@progress K st Hinv Hc Hall) as (w & st' & Hw & Hs).
      rewrite Hfr in Hs; [discriminate|]. apply in_seq. lia.
Qed.

(** Every run of [mapLimit] over tasks that never reject. *)
Lemma pool_runs (limit : Z) (sched : list nat) (st : state B E) :
  run items (resolving E f) sched (start items limit) = Some st ->
  length (workers st) = workerCount limit
  /\ peak (log st) 0 <= workerCount limit
  /\ length (settles (log st)) = length sched
  /\ length sched <= length items
  /\ (length sched < length items ->
      result st = None
      /\ exists w st', settle items (resolving E f) w st = Some st')
  /\ (length sched = length items ->
      result st = Some (inl (map Some (mapi f items)))
      /\ forall i, i < length items -> In i (settles (log st))).
Proof.
  intros Hrun.
  destruct (inv_start items (resolving E f) limit)
    as (Hinv0 & Hlen0 & Hset0 & Hrej0 & Hthrew0).
  destruct (run_facts sched Hinv0 Hrun) as (Hinv & Hlen & Hset).
  assert (Hc : clean st).
  { eapply run_clean; [|exact Hrun]. split; [exact Hrej0 | exact Hthrew0]. }
  assert (HK : 1 <= workerCount limit) by (unfold workerCount; lia).
  rewrite Hlen0 in Hlen. rewrite Hset0 in Hset. simpl in Hset.
  assert (Hne : 1 <= length (workers st)) by lia.
  split; [exact Hlen|].
  split; [exact (inv_peak Hinv)|].
  split; [exact Hset|].
  split; [rewrite <- Hset; exact (settled_le Hinv)|].
  unfold result. pose proof Hc as [Hr Ht]. rewrite Hr.
  split.
  - intros Hlt.
    destruct (forallb isReturned (workers st)) eqn:Hall.
    + destruct (all_returned Hinv Hne Hall) as [Hn _]. lia.
    + split; [reflexivity|].
      destruct (@progress _ st Hinv Hc Hall) as (w & st' & _ & Hs).
      now exists w, st'.
  - intros Heq.
    assert (Hall : forallb isReturned (workers st) = true).
    { apply no_awaiting_all_returned; [exact Hc|].
      pose proof (inv_count Hinv) as Hcnt. rewrite (inv_starts Hinv) in Hcnt.
      rewrite length_seq in Hcnt. lia. }
    rewrite Hall.
    destruct (all_returned Hinv Hne Hall) as [Hn Hcover].
    split; [do 2 f_equal; eapply out_when_returned; eauto|].
    intros i Hi. apply nth_error_Some in Hi.
    destruct (nth_error items i) as [x|] eqn:Hx; [|congruence].
    now destruct (Hcover i x Hx).
Qed.

(** The pool returns the results in the order of the items. *)
Lemma mapLimit_value (limit : Z) :
  mapLimit items (resolving E f) limit = Some (inl (map Some (mapi f items))).
Proof.
  destruct (inv_start items (resolving E f) limit)
    as (Hinv0 & Hlen0 & Hset0 & Hrej0 & Hthrew0).
  destruct (@drain_reaches (workerCount limit) (length items) _ Hinv0
              (conj Hrej0 Hthrew0))
    as (sched & Hrun & Hend).
  unfold mapLimit.
  destruct (@pool_runs limit sched _ Hrun)
    as (Hlen & _ & _ & Hle & Hpending & Hdone).
  destruct Hend as [Hl | Hr]; [now destruct (Hdone Hl)|].
  destruct (Nat.eq_dec (length sched) (length items)) as [Heq | Hne];
    [now destruct (Hdone Heq)|].
  destruct (Hpending ltac:(lia)) as [Hnone _].
  destruct (run_facts sched Hinv0 Hrun) as (Hinv & _ & _).
  assert (Hc : clean (drain items (resolving E f) (length items) (start items limit))).
  { eapply run_clean; [|exact Hrun]. split; [exact Hrej0 | exact Hthrew0]. }
  unfold result in Hnone. destruct Hc as [Hc _]. rewrite Hc, Hr in Hnone.
  discriminate.
Qed.

Lemma drain_idle (fuel : nat) (st : state B E) :
  workers st = [] -> drain items (resolving E f) fuel st = st.
Proof. intros H. destruct fuel; [reflexivity|]. simpl. now rewrite H. Qed.

(** What the pool returns or throws for any limit: an array of holes
    for NaN, the range error above the longest array. *)
Lemma mapLimitAt_value (rangeError : E) (l : limit) :
  mapLimitAt items (resolving E f) rangeError l
  = match l with
    | NotANumber => Some (inl (repeat None (length items)))
    | Count n =>
        if Z.ltb MAX_ARRAY_LENGTH n then Some (inr rangeError)
        else Some (inl (map Some (mapi f items)))
    end.
Proof.
  unfold mapLimitAt, startAt. destruct l as [n|].
  - destruct (Z.ltb MAX_ARRAY_LENGTH n).
    + now rewrite drain_idle.
    + apply mapLimit_value.
  - now rewrite drain_idle.
Qed.

End Resolving.




(** C9, as stated, fails for a task that rejects: with a limit of 0
    the pool has one worker, and when the first of three tasks rejects
    the pool rejects with two tasks never started; no array is
    returned. *)
Lemma clamped_pool_stops_at_a_rejection :
  exists st,
    run threeItems rejectFirst [0] (start threeItems 0) = Some st
    /\ length (workers st) = 1
    /\ result st = Some (inr "boom")
    /\ log st = [Start 0; Settle 0]
    /\ ~ processesEveryTask threeItems rejectFirst 0.
Proof.
  eexists. split; [reflexivity|]. split; [reflexivity|].
  split; [reflexivity|]. split; [reflexivity|].
  intros H.
  destruct (H [0] _ (inr "boom") eq_refl eq_refl) as [_ (o & Ho & _)].
  discriminate Ho.
Qed.

Lemma startAt_count (A B E : Type) (items : list A) (rangeError : E)
    (limit : Z) :
  Z.le limit MAX_ARRAY_LENGTH ->
  startAt (B := B) items rangeError (Count limit) = start items limit.
Proof.
  intros H. unfold startAt.
  now replace (Z.ltb MAX_ARRAY_LENGTH limit) with false
    by (symmetry; apply Z.ltb_ge; exact H).
Qed.

(** C9 (amended).  For every integer [limit] up to the longest array
    length, 2^32 - 1, [mapLimit] starts [max(1, limit)] workers, at
    least one, whatever the tasks are; a limit of 1 or less gives the
    run of one worker; and when no task rejects every task is
    processed: the run stays pending, able to go on, until as many
    promises have settled as there are items, and then returns the
    fully populated array. *)
Theorem mapLimit_clamps_limit
    (A B E : Type) (items : list A) (f : A -> nat -> B) (rangeError : E)
    (limit : Z) :
  Z.le limit MAX_ARRAY_LENGTH ->
  length (workers (startAt (B := B) items rangeError (Count limit)))
  = Z.to_nat (Z.max 1 limit)
  /\ 1 <= length (workers (startAt (B := B) items rangeError (Count limit)))
  /\ (Z.le limit 1 ->
      startAt (B := B) items rangeError (Count limit)
      = startAt items rangeError (Count 1))
  /\ mapLimitAt items (resolving E f) rangeError (Count limit)
     = Some (inl (map Some (mapi f items)))
  /\ forall sched st,
       run items (resolving E f) sched (startAt items rangeError (Count limit))
       = Some st ->
       (length sched < length items ->
        result st = None
        /\ exists w st', settle items (resolving E f) w st = Some st')
       /\ (length sched = length items ->
           result st = Some (inl (map Some (mapi f items)))).
Proof.
  intros Hmax. unfold mapLimitAt.
  rewrite (startAt_count B items rangeError Hmax).
  destruct (inv_start items (resolving E f) limit) as (_ & Hlen & _).
  split; [exact Hlen|].
  split; [rewrite Hlen; unfold workerCount; lia|].
  split.
  { intros Hle. rewrite startAt_count by (unfold MAX_ARRAY_LENGTH; lia).
    unfold start, workerCount.
    now replace (Z.max 1 limit) with (Z.max 1 1) by lia. }
  split; [apply mapLimit_value|].
  intros sched st Hrun.
  destruct (@pool_runs A B E items f limit sched st Hrun)
    as (_ & _ & _ & _ & H5 & H6).
  split; [exact H5|].
  intros Heq. now destruct (H6 Heq).
Qed.

Lemma mapLimit_clamps_limit_witness :
  length (workers (startAt (B := string * nat) threeItems tt (Count 0)))
  = Z.to_nat (Z.max 1 0)
  /\ 1 <= length (workers (startAt (B := string * nat) threeItems tt (Count 0)))
  /\ (Z.le 0 1 ->
      startAt (B := string * nat) threeItems tt (Count 0)
      = startAt threeItems tt (Count 1))
  /\ mapLimitAt threeItems (resolving unit tagged) tt (Count 0)
     = Some (inl (map Some (mapi tagged threeItems)))
  /\ forall sched st,
       run threeItems (resolving unit tagged) sched
         (startAt threeItems tt (Count 0))
       = Some st ->
       (length sched < length threeItems ->
        result st = None
        /\ exists w st', settle threeItems (resolving unit tagged) w st = Some st')
       /\ (length sched = length threeItems ->
           result st = Some (inl (map Some (mapi tagged threeItems)))).
Proof.
  apply (@mapLimit_clamps_limit string (string * nat) unit threeItems tagged
           tt 0).
  unfold MAX_ARRAY_LENGTH. lia.
Defined.

(** Above the longest array length [Array.from] throws: [mapLimit]
    rejects with the range error and no task is started. *)
Lemma mapLimit_above_the_longest_array
    (A B E : Type) (items : list A) (mapper : A -> nat -> outcome B E)
    (rangeError : E) (limit : Z) :
  Z.lt MAX_ARRAY_LENGTH limit ->
  mapLimitAt items mapper rangeError (Count limit) = Some (inr rangeError)
  /\ log (startAt (B := B) items rangeError (Count limit)) = [].
Proof.
  intros H. unfold mapLimitAt, startAt.
  replace (Z.ltb MAX_ARRAY_LENGTH limit) with true
    by (symmetry; apply Z.ltb_lt; exact H).
  split; [|reflexivity].
  now destruct (length items).
Qed.


End PoolFacts.

Module ExtractFacts.

Import Discovery Extract.

(** ** The matrix loop *)

Lemma assocGet_keys {X : Type} (k : string) (l : list (string * X)) :
  In k (map fst l) <-> assocGet k l <> None.
Proof.
  induction l as [|[k' x'] l IH]; simpl.
  - split; [intros [] | congruence].
  - destruct (String.eqb k k') eqn:Hk.
    + apply String.eqb_eq in Hk; subst k'.
      split; [discriminate | now left].
    + apply String.eqb_neq in Hk. rewrite <- IH.
      split; [intros [H | H]; [congruence | exact H] | now right].
Qed.

Lemma keys_assocSet {X : Type} (k : string) (x : X) (l : list (string * X)) :
  map fst (assocSet k x l)
  = if existsb (String.eqb k) (map fst l) then map fst l
    else map fst l ++ [k].
Proof.
  induction l as [|[k' x'] l IH]; simpl; [reflexivity|].
  destruct (String.eqb k k') eqn:Hk; simpl.
  - apply String.eqb_eq in Hk; now subst k'.
  - rewrite IH. now destruct (existsb (String.eqb k) (map fst l)).
Qed.

Lemma existsb_eqb_In (k : string) (l : list string) :
  existsb (String.eqb k) l = true <-> In k l.
Proof.
  rewrite existsb_exists. split.
  - intros (x & Hx & He). apply String.eqb_eq in He. now subst x.
  - intros H. exists k. split; [exact H | apply String.eqb_refl].
Qed.

(** The keys after a row is added: one more when the color is new. *)
Lemma keys_add (m m' : list (string * MatrixEntry)) (r : Row) :
  addToMatrix m r = inr m' ->
  map fst m'
  = if existsb (String.eqb (Matrix.colorKey r)) (map fst m) then map fst m
    else map fst m ++ [Matrix.colorKey r].
Proof.
  unfold addToMatrix, Matrix.colorKey.
  destruct (assocGet (to_string (r_color_id r)) m) as [e|].
  - intros H. injection H as <-. apply keys_assocSet.
  - destruct (inherited (to_string (r_color_id r))); [discriminate|].
    intros H. injection H as <-. apply keys_assocSet.
Qed.

Lemma addToMatrix_total (m : list (string * MatrixEntry)) (r : Row) :
  inherited (Matrix.colorKey r) = false ->
  exists m', addToMatrix m r = inr m'.
Proof.
  unfold addToMatrix, Matrix.colorKey. intros H.
  destruct (assocGet (to_string (r_color_id r)) m) as [e|];
    [|rewrite H]; eexists; reflexivity.
Qed.

Lemma addToMatrix_clean (m m' : list (string * MatrixEntry)) (r : Row) :
  Matrix.keysClean m -> addToMatrix m r = inr m' -> Matrix.keysClean m'.
Proof.
  intros Hc Ha k Hk. rewrite (keys_add _ _ Ha) in Hk.
  destruct (existsb (String.eqb (Matrix.colorKey r)) (map fst m)) eqn:Hex;
    [now apply Hc|].
  apply in_app_or in Hk as [Hk | [<- | []]]; [now apply Hc|].
  revert Ha. unfold addToMatrix, Matrix.colorKey.
  destruct (assocGet (to_string (r_color_id r)) m) as [e|] eqn:Hg.
  - assert (Hin : In (to_string (r_color_id r)) (map fst m))
      by (apply assocGet_keys; congruence).
    apply existsb_eqb_In in Hin. unfold Matrix.colorKey in Hex. congruence.
  - now destruct (inherited (to_string (r_color_id r))).
Qed.

(** A row whose color id names an inherited member makes the loop
    throw. *)
Lemma addToMatrix_throws (m : list (string * MatrixEntry)) (r : Row) :
  Matrix.keysClean m ->
  inherited (Matrix.colorKey r) = true ->
  addToMatrix m r = inl (Fetch.Thrown typeErrorSet).
Proof.
  intros Hc Hi. unfold addToMatrix. unfold Matrix.colorKey in Hi.
  destruct (assocGet (to_string (r_color_id r)) m) as [e|] eqn:Hg.
  - assert (Hin : In (to_string (r_color_id r)) (map fst m))
      by (apply assocGet_keys; congruence).
    apply Hc in Hin. congruence.
  - now rewrite Hi.
Qed.

Lemma buildMatrix_total (rows : list Row) :
  Forall (fun r => inherited (Matrix.colorKey r) = false) rows ->
  forall m, exists m', buildMatrix (map Some rows) m = inr m'.
Proof.
  induction 1 as [|r rows Hr _ IH]; intros m; simpl; [now exists m|].
  destruct (addToMatrix_total m r Hr) as [m1 ->]. apply IH.
Qed.

Lemma buildMatrix_throws (rows : list Row) :
  Exists (fun r => inherited (Matrix.colorKey r) = true) rows ->
  forall m,
    Matrix.keysClean m ->
    buildMatrix (map Some rows) m = inl (Fetch.Thrown typeErrorSet).
Proof.
  induction rows as [|r rows IH]; intros Hex m Hc;
    [inversion Hex|].
  simpl. destruct (inherited (Matrix.colorKey r)) eqn:Hr.
  - now rewrite addToMatrix_throws.
  - destruct (addToMatrix_total m r Hr) as [m1 Hm1]. rewrite Hm1.
    apply IH; [|now apply (@addToMatrix_clean m m1 r)].
    inversion Hex as [? ? H | ? ? H]; subst; [congruence | exact H].
Qed.

Lemma nth_error_mapi {X Y : Type} (g : X -> nat -> Y) (l : list X) (i : nat) :
  nth_error (Pool.mapi g l) i = option_map (fun x => g x i) (nth_error l i).
Proof. unfold Pool.mapi. now rewrite PoolFacts.nth_error_mapi_from. Qed.

Lemma length_mapi {X Y : Type} (g : X -> nat -> Y) (l : list X) :
  length (Pool.mapi g l) = length l.
Proof. unfold Pool.mapi. apply PoolFacts.length_mapi_from. Qed.

Section OneProduct.

Variable net : network.
Variable now : string.
Variables pid inputSku inputUrl : string.
Variable args : Args.



(** The color key of the row of a task is the color id of the task. *)
Lemma colorKey_comboRow (productName brand : value) (hasSize : bool)
    (t : Task) (i : nat) :
  Matrix.colorKey
    (comboRow net pid inputSku inputUrl args productName brand hasSize t i)
  = color_id (color t).
Proof.
  unfold Matrix.colorKey, comboRow.
  now destruct (fetchFrom net args (ComboQuery i) _).
Qed.




(** Outside the conditions of C4 the item fails although every fetch
    is guarded.  A color id that names an inherited member, such as
    [constructor], is not an own entry of the matrix: the loop reads
    the inherited member and the write under its [sizes] throws. *)
Lemma inherited_color_id_is_thrown (baseJson productName brand : value)
    (n : Z) :
  fetchFrom net args BaseQuery (nonCachedUrl (site args) (locale args) pid "")
  = inr baseJson ->
  Exists (fun c => inherited (color_id c) = true)
    (colors (extractVariationAttributes
               (or_else (get baseJson "product") (JObj [])))) ->
  sizes (extractVariationAttributes
           (or_else (get baseJson "product") (JObj []))) <> [] ->
  resolveNameBrand net pid args (or_else (get baseJson "product") (JObj []))
    (extractVariationAttributes (or_else (get baseJson "product") (JObj [])))
  = inr (productName, brand) ->
  concurrency args = Pool.Count n ->
  (n <= Pool.MAX_ARRAY_LENGTH)%Z ->
  extractOneProduct net now pid inputSku inputUrl args
  = Some (inl (Fetch.Thrown typeErrorSet)).
Proof.
  intros Hbase Hids Hsizes Hname Hlimit Hn.
  unfold extractOneProduct. rewrite Hbase.
  set (v := extractVariationAttributes (or_else (get baseJson "product") (JObj []))) in *.
  destruct (Nat.eqb (length (colors v)) 0) eqn:Hlen.
  { apply Nat.eqb_eq in Hlen. destruct (colors v); [inversion Hids | discriminate]. }
  rewrite Hname. unfold fetchAndAggregate, comboMapper.
  rewrite PoolFacts.mapLimitAt_value, Hlimit.
  replace (Z.ltb Pool.MAX_ARRAY_LENGTH n) with false
    by (symmetry; apply Z.ltb_ge; exact Hn).
  rewrite buildMatrix_throws; [reflexivity| |intros k []].
  apply Exists_exists in Hids as (c & Hc & Hi).
  destruct (sizes v) as [|z zs] eqn:Hz; [congruence|].
  assert (Ht : In (mkTask c z) (buildTasks (colors v) (z :: zs))).
  { rewrite DiscoveryFacts.buildTasks_flat_map. apply in_flat_map.
    exists c. split; [exact Hc | now left]. }
  apply In_nth_error in Ht as (i & Ht).
  apply Exists_exists.
  exists (comboRow net pid inputSku inputUrl args productName brand
            (hasSizeAttribute v) (mkTask c z) i).
  split; [|now rewrite colorKey_comboRow].
  apply nth_error_In with (n := i). now rewrite nth_error_mapi, Ht.
Qed.

(** A concurrency that is not a number starts no worker: the pool
    returns an array of holes at once and the loop over it throws at
    the first one. *)
Lemma nan_concurrency_is_thrown (baseJson productName brand : value) :
  fetchFrom net args BaseQuery (nonCachedUrl (site args) (locale args) pid "")
  = inr baseJson ->
  colors (extractVariationAttributes (or_else (get baseJson "product") (JObj [])))
  <> [] ->
  sizes (extractVariationAttributes
           (or_else (get baseJson "product") (JObj []))) <> [] ->
  resolveNameBrand net pid args (or_else (get baseJson "product") (JObj []))
    (extractVariationAttributes (or_else (get baseJson "product") (JObj [])))
  = inr (productName, brand) ->
  concurrency args = Pool.NotANumber ->
  extractOneProduct net now pid inputSku inputUrl args
  = Some (inl (Fetch.Thrown typeError)).
Proof.
  intros Hbase Hcolors Hsizes Hname Hlimit.
  unfold extractOneProduct. rewrite Hbase.
  set (v := extractVariationAttributes (or_else (get baseJson "product") (JObj []))) in *.
  destruct (Nat.eqb (length (colors v)) 0) eqn:Hlen.
  { apply Nat.eqb_eq in Hlen. destruct (colors v); [congruence | discriminate]. }
  rewrite Hname. unfold fetchAndAggregate, comboMapper.
  rewrite PoolFacts.mapLimitAt_value, Hlimit.
  rewrite DiscoveryFacts.buildTasks_length.
  destruct (colors v) as [|c cs]; [congruence|].
  destruct (sizes v) as [|z zs]; [congruence|]. reflexivity.
Qed.

End OneProduct.


(** The rows of the bag: the first combination succeeded, the second
    one carries the error of its last attempt. *)
Example bag_rows :
  match
    extractOneProduct bagNet "2026-01-01T00:00:00.000Z" "35S5S2ZC7B" "sku-1"
      "https://www.michaelkors.com/p/35S5S2ZC7B.html" defaults
  with
  | Some (inr (Product x)) =>
      map (option_map (fun r => (r_ok r, r_size_id r, r_error r))) (flatRows x)
  | _ => []
  end
  = [ Some (true, JStr "NS", JStr "");
      Some (false, JStr "NS",
            JStr "HTTP 503 Service Unavailable :: busy") ].
Proof. vm_compute. reflexivity. Qed.


End ExtractFacts.

Module DriverFacts.

Import Extract.

(** ** The incremental driver *)

Section Incremental.

Import Incremental.

Variable extractProduct :
  nat -> InputRow -> Fetch.thrown + (ProductSummary * list VariantRow).
Variable clock : nat -> string.
Variable inputRows : list InputRow.

Lemma appendVariants_spec (i : nat) (vs : list VariantRow) :
  forall st,
    appendVariants i vs st
    = mkState
        (mkSinks (jsonl (files st)) (csv (files st) ++ map variantLine vs))
        (history st ++ repeat (AppendCsv i) (length vs)).
Proof.
  induction vs as [|v vs IH]; intros [[j c] h]; simpl.
  - now rewrite !app_nil_r.
  - rewrite IH. simpl. now rewrite <- !app_assoc.
Qed.

Lemma processItem_spec (i : nat) (row : InputRow) (st : state) :
  processItem extractProduct clock i row st
  = mkState
      (mkSinks
         (jsonl (files st) ++ [summaryLineOf extractProduct clock i row])
         (csv (files st) ++ csvLinesOf extractProduct i row))
      (history st ++ eventsOf extractProduct i row).
Proof.
  unfold processItem, eventsOf, summaryLineOf, csvLinesOf.
  destruct (extractProduct i row) as [e | [s vs]]; simpl.
  - rewrite app_nil_r, <- app_assoc. reflexivity.
  - rewrite appendVariants_spec. simpl.
    rewrite length_map, <- !app_assoc. reflexivity.
Qed.

Lemma mapi_from_app {X Y : Type} (g : X -> nat -> Y) (a b : list X) :
  forall k,
    Pool.mapi_from g k (a ++ b)
    = Pool.mapi_from g k a ++ Pool.mapi_from g (k + length a) b.
Proof.
  induction a as [|x a IH]; intros k; simpl.
  - now rewrite Nat.add_0_r.
  - rewrite IH. now rewrite Nat.add_succ_r.
Qed.

Lemma firstn_S_nth {X : Type} (l : list X) (k : nat) :
  firstn (S k) l
  = firstn k l ++ match nth_error l k with Some x => [x] | None => [] end.
Proof.
  revert k; induction l as [|x l IH]; intros [|k]; simpl; try reflexivity.
  now rewrite <- IH.
Qed.

Lemma mapi_firstn_S {Y : Type} (g : InputRow -> nat -> Y) (k : nat) :
  Pool.mapi g (firstn (S k) inputRows)
  = Pool.mapi g (firstn k inputRows)
      ++ match nth_error inputRows k with
         | Some row => [g row k]
         | None => []
         end.
Proof.
  unfold Pool.mapi. rewrite firstn_S_nth, mapi_from_app. f_equal.
  destruct (nth_error inputRows k) as [row|] eqn:Hk; [|reflexivity].
  simpl. rewrite length_firstn, Nat.min_l; [reflexivity|].
  apply Nat.lt_le_incl. apply nth_error_Some. congruence.
Qed.

Lemma after_spec (before : sinks) (k : nat) :
  after extractProduct clock inputRows k before
  = mkState
      (mkSinks
         (jsonl before ++ summariesOf extractProduct clock inputRows k)
         (csv (files (begin inputRows before))
            ++ csvLinesUpTo extractProduct inputRows k))
      (eventsUpTo extractProduct inputRows k).
Proof.
  induction k as [|k IH].
  - unfold summariesOf, csvLinesUpTo, eventsUpTo, begin. simpl.
    rewrite !app_nil_r. destruct before, inputRows; reflexivity.
  - simpl. unfold summariesOf, csvLinesUpTo, eventsUpTo.
    rewrite !mapi_firstn_S.
    destruct (nth_error inputRows k) as [row|] eqn:Hk.
    + rewrite processItem_spec, IH. simpl.
      unfold summariesOf, csvLinesUpTo, eventsUpTo.
      rewrite !concat_app. simpl. now rewrite !app_nil_r, !app_assoc.
    + rewrite IH. unfold summariesOf, csvLinesUpTo, eventsUpTo.
      now rewrite !app_nil_r.
Qed.

End Incremental.

(** ** The bulk driver *)

Section Bulk.

Import Bulk.

Variable net : nat -> network.
Variable clock : nat -> string.
Variable finishedAt : string.
Variable args : Args.
Variable validJobs : list Job.

Lemma jobMapper_never_rejects (job : Job) (i : nat) (e : Fetch.thrown) :
  jobMapper net clock args job i <> Pool.Reject e.
Proof.
  unfold jobMapper.
  destruct (extractOneProduct (net i) (clock i) (job_pid job)
              (job_inputSku job) (job_inputUrl job) args) as [[t | one]|];
    discriminate.
Qed.

Lemma settle_job_clean (w : nat) (st st' : Pool.state Processed Fetch.thrown) :
  Pool.clean st ->
  Pool.settle validJobs (jobMapper net clock args) w st = Some st' ->
  Pool.clean st'.
Proof.
  intros [Hr Ht]. unfold Pool.settle.
  destruct (nth_error (Pool.workers st) w) as [[my| |e0]|]; try discriminate.
  destruct (nth_error validJobs my) as [x|]; [|discriminate].
  destruct (jobMapper net clock args x my) as [b|e|] eqn:Hm;
    [|now apply jobMapper_never_rejects in Hm | discriminate].
  destruct (PoolFacts.dispatch_cases validJobs
              (Pool.mkState (Pool.idx st)
                 (Pool.update my (Some b) (Pool.out st)) (Pool.workers st)
                 (Pool.rejection st) (Pool.log st ++ [Pool.Settle my])))
    as [[_ ->] | [_ ->]]; intros H; injection H as <-;
    (split; [exact Hr|]); cbn [Pool.workers]; intros v e Hv;
    apply PoolFacts.nth_error_update_inv in Hv as [[_ Hv] | [_ Hv]];
    solve [discriminate | now apply Ht in Hv].
Qed.







End Bulk.



End DriverFacts.

Module InputFacts.

Import Csv Input Incremental.

Lemma length_append (a b : string) :
  String.length (a ++ b)%string = String.length a + String.length b.
Proof. induction a as [|c a IH]; simpl; [reflexivity | now rewrite IH]. Qed.

Lemma trimStart_length (s : string) :
  String.length (trimStart s) <= String.length s.
Proof.
  induction s as [|c s IH]; simpl; [apply Nat.le_refl|].
  destruct (isSpace c); simpl; lia.
Qed.

Lemma trimStart_fix (s : string) :
  String.length (trimStart s) = String.length s -> trimStart s = s.
Proof.
  destruct s as [|c s]; simpl; [reflexivity|].
  destruct (isSpace c); [|reflexivity].
  intros H. pose proof (trimStart_length s). lia.
Qed.

Lemma trimEnd_length (s : string) :
  String.length (trimEnd s) <= String.length s.
Proof.
  induction s as [|c s IH]; simpl; [apply Nat.le_refl|].
  destruct (trimEnd s) as [|d t]; [destruct (isSpace c)|]; simpl in *; lia.
Qed.

Lemma trimEnd_fix (s : string) :
  String.length (trimEnd s) = String.length s -> trimEnd s = s.
Proof.
  induction s as [|c s IH]; simpl; [reflexivity|].
  pose proof (trimEnd_length s) as Hl.
  destruct (trimEnd s) as [|d t] eqn:E.
  - destruct (isSpace c); simpl; intros H; [discriminate|].
    destruct s; [reflexivity | discriminate].
  - simpl. intros H. injection H as H. now rewrite IH.
Qed.

Lemma trim_fix (s : string) :
  trim s = s -> trimStart s = s /\ trimEnd s = s.
Proof.
  unfold trim. intros H.
  pose proof (trimStart_length s) as H1.
  pose proof (trimEnd_length (trimStart s)) as H2.
  assert (Hs : trimStart s = s).
  { apply trimStart_fix. rewrite H in H2. lia. }
  split; [exact Hs | now rewrite Hs in H].
Qed.

Lemma trimEnd_app (a b : string) :
  b <> "" -> trimEnd b = b -> (trimEnd (a ++ b) = a ++ b)%string.
Proof.
  intros Hne Hb. induction a as [|c a IH]; simpl; [exact Hb|].
  rewrite IH. destruct (a ++ b)%string eqn:E; [|reflexivity].
  destruct a; simpl in E; [congruence | discriminate].
Qed.

(** A trimmed field starts with a character that is not white space. *)
Lemma trimmed_head (s : string) :
  trimmed s -> exists c s', s = String c s' /\ isSpace c = false.
Proof.
  intros [Hne Ht]. apply trim_fix in Ht as [Hs _].
  destruct s as [|c s']; [congruence|].
  exists c, s'. split; [reflexivity|].
  simpl in Hs. destruct (isSpace c) eqn:Hc; [|reflexivity].
  pose proof (trimStart_length s') as Hl. rewrite Hs in Hl. simpl in Hl. lia.
Qed.

Lemma trimmed_intro (c : ascii) (s : string) :
  isSpace c = false -> trimEnd (String c s) = String c s ->
  trimmed (String c s).
Proof.
  intros Hc He. split; [discriminate|].
  unfold trim. cbn [trimStart]. now rewrite Hc.
Qed.

(** Whatever stands between two trimmed fields, the whole is trimmed. *)
Lemma trimmed_app (a m b : string) :
  trimmed a -> trimmed b -> trimmed (a ++ m ++ b)%string.
Proof.
  intros Ha [Hbne Hb].
  destruct (trimmed_head Ha) as (c & a' & -> & Hc).
  apply trim_fix in Hb as [_ Hb].
  change (String c a' ++ m ++ b)%string with (String c (a' ++ m ++ b)%string).
  apply trimmed_intro; [exact Hc|].
  change (String c (a' ++ m ++ b)%string) with (String c a' ++ m ++ b)%string.
  rewrite <- CsvFacts.append_assoc. now apply trimEnd_app.
Qed.

Lemma trimEnd_allSpace (s : string) : allSpace s = true -> trimEnd s = "".
Proof.
  induction s as [|c s IH]; simpl; [reflexivity|].
  intros H. apply andb_true_iff in H as [Hc Hs]. now rewrite IH, Hc.
Qed.

Lemma trimEnd_app_space (t post : string) :
  allSpace post = true -> trimEnd (t ++ post)%string = trimEnd t.
Proof.
  intros H. induction t as [|c t IH]; simpl.
  - now apply trimEnd_allSpace.
  - now rewrite IH.
Qed.

(** White space after a trimmed text is what [trim] removes. *)
Lemma trim_app_space (t post : string) :
  trimmed t -> allSpace post = true -> trim (t ++ post)%string = t.
Proof.
  intros Ht Hp. destruct (trimmed_head Ht) as (c & t' & -> & Hc).
  destruct Ht as [_ Ht]. apply trim_fix in Ht as [_ Ht].
  unfold trim. change (trimStart (String c t' ++ post)%string)
    with (if isSpace c then trimStart (t' ++ post)%string
          else (String c t' ++ post)%string).
  rewrite Hc. now rewrite trimEnd_app_space.
Qed.

Lemma trimStart_idem (s : string) : trimStart (trimStart s) = trimStart s.
Proof.
  induction s as [|c s IH]; simpl; [reflexivity|].
  destruct (isSpace c) eqn:Hc; [exact IH|]. simpl. now rewrite Hc.
Qed.

Lemma trimEnd_idem (s : string) : trimEnd (trimEnd s) = trimEnd s.
Proof.
  induction s as [|c s IH]; simpl; [reflexivity|].
  destruct (trimEnd s) as [|d t] eqn:E.
  - destruct (isSpace c) eqn:Hc; simpl; [reflexivity | now rewrite Hc].
  - cbn [trimEnd] in *. rewrite IH. reflexivity.
Qed.

(** [trimEnd] leaves the first character in place when it is not white
    space. *)
Lemma trimStart_trimEnd (s : string) :
  trimStart s = s -> trimStart (trimEnd s) = trimEnd s.
Proof.
  destruct s as [|c s]; simpl; [reflexivity|].
  destruct (isSpace c) eqn:Hc.
  - intros H. pose proof (trimStart_length s) as Hl.
    rewrite H in Hl. simpl in Hl. lia.
  - intros _. destruct (trimEnd s); simpl; now rewrite Hc.
Qed.

Lemma trim_idem (s : string) : trim (trim s) = trim s.
Proof.
  unfold trim.
  rewrite trimStart_trimEnd by apply trimStart_idem.
  apply trimEnd_idem.
Qed.

Lemma trimmed_trim (s : string) : trim s <> "" -> trimmed (trim s).
Proof. intros H. split; [exact H | apply trim_idem]. Qed.

(** ** Lines *)

Lemma splitLinesLoop_char (c : ascii) (rest cur : string) :
  Ascii.eqb c LF = false -> Ascii.eqb c CR = false ->
  splitLinesLoop (String c rest) cur
  = splitLinesLoop rest (cur ++ String c EmptyString).
Proof.
  intros H1 H2. cbn [splitLinesLoop]. rewrite H1.
  destruct rest; [reflexivity|]. now rewrite H2.
Qed.

Lemma splitLinesLoop_plain (l r cur : string) :
  has_newline l = false ->
  splitLinesLoop (l ++ r) cur = splitLinesLoop r (cur ++ l).
Proof.
  revert cur; induction l as [|c l IH]; intros cur H.
  - now rewrite CsvFacts.append_empty_r.
  - simpl in H. apply orb_false_iff in H as [H Hl].
    apply orb_false_iff in H as [H1 H2].
    change (String c l ++ r)%string with (String c (l ++ r)%string).
    rewrite splitLinesLoop_char by assumption.
    rewrite IH by assumption. now rewrite CsvFacts.append_snoc.
Qed.

Lemma splitLinesLoop_eol (eol r cur : string) :
  lineEnd eol ->
  splitLinesLoop (eol ++ r) cur = cur :: splitLinesLoop r "".
Proof. intros [-> | ->]; reflexivity. Qed.

Lemma join_cons (sep x y : string) (l : list string) :
  join sep (x :: y :: l) = (x ++ sep ++ join sep (y :: l))%string.
Proof. reflexivity. Qed.

Lemma splitLines_join (eol : string) :
  lineEnd eol ->
  forall ls l cur,
    Forall (fun x => has_newline x = false) (l :: ls) ->
    splitLinesLoop (join eol (l :: ls)) cur = (cur ++ l)%string :: ls.
Proof.
  intros He. induction ls as [|g ls IH]; intros l cur H.
  - inversion H as [|? ? Hl _]; subst. simpl.
    rewrite <- (CsvFacts.append_empty_r l) at 1.
    now rewrite splitLinesLoop_plain.
  - inversion H as [|? ? Hl Hr]; subst.
    rewrite join_cons, splitLinesLoop_plain by assumption.
    rewrite splitLinesLoop_eol by assumption.
    now rewrite IH.
Qed.

Lemma join_snoc_empty (eol x : string) (l : list string) :
  join eol ((x :: l) ++ [""]) = (join eol (x :: l) ++ eol)%string.
Proof.
  revert x; induction l as [|y l IH]; intros x.
  - simpl. now rewrite CsvFacts.append_empty_r.
  - change ((x :: y :: l) ++ [""]) with (x :: ((y :: l) ++ [""])).
    change ((y :: l) ++ [""]) with (y :: (l ++ [""])) at 1.
    rewrite join_cons.
    change (y :: l ++ [""]) with ((y :: l) ++ [""]).
    rewrite IH, join_cons. now rewrite !CsvFacts.append_assoc.
Qed.

(** The lines of a file that ends with or without a line terminator. *)
Lemma splitLines_file (eol trailer l : string) (ls : list string) :
  lineEnd eol -> trailerOf eol trailer ->
  Forall (fun x => has_newline x = false) (l :: ls) ->
  splitLines (join eol (l :: ls) ++ trailer)
  = (l :: ls) ++ (if String.eqb trailer "" then [] else [""]).
Proof.
  intros He [-> | ->] H; unfold splitLines.
  - rewrite CsvFacts.append_empty_r, splitLines_join by assumption.
    simpl. now rewrite app_nil_r.
  - rewrite <- join_snoc_empty.
    change ((l :: ls) ++ [""]) with (l :: (ls ++ [""])).
    rewrite splitLines_join; [|assumption|].
    + destruct He as [-> | ->]; reflexivity.
    + inversion H; subst. constructor; [assumption|].
      apply Forall_app. split; [assumption | now constructor].
Qed.

(** ** Cutting at commas *)

Lemma splitOn_plain (a r cur : string) :
  has_comma a = false ->
  splitOn comma (a ++ r) cur = splitOn comma r (cur ++ a).
Proof.
  revert cur; induction a as [|c a IH]; intros cur H.
  - now rewrite CsvFacts.append_empty_r.
  - simpl in H. apply orb_false_iff in H as [H Ha].
    simpl. rewrite H, IH by assumption. now rewrite CsvFacts.append_snoc.
Qed.

Lemma splitOn_nonempty (sep : ascii) (s cur : string) :
  splitOn sep s cur <> [].
Proof.
  revert cur; induction s as [|c s IH]; intros cur; simpl; [discriminate|].
  destruct (Ascii.eqb c sep); [discriminate | apply IH].
Qed.

(** [s.split(sep).join(sep)] is [s]. *)
Lemma join_splitOn (s cur : string) :
  join "," (splitOn comma s cur) = (cur ++ s)%string.
Proof.
  revert cur; induction s as [|c s IH]; intros cur; simpl.
  - now rewrite CsvFacts.append_empty_r.
  - destruct (Ascii.eqb c comma) eqn:Hc.
    + apply Ascii.eqb_eq in Hc; subst c.
      pose proof (splitOn_nonempty comma s "") as Hne.
      specialize (IH ""). destruct (splitOn comma s "") as [|y l]; [congruence|].
      rewrite join_cons, IH. reflexivity.
    + rewrite IH. now rewrite CsvFacts.append_snoc.
Qed.

(** ** Lines written from rows *)

Lemma has_newline_app (a b : string) :
  has_newline (a ++ b) = has_newline a || has_newline b.
Proof.
  induction a as [|c a IH]; simpl; [reflexivity|].
  rewrite IH. now rewrite !orb_assoc.
Qed.

Lemma has_newline_double_quotes (s : string) :
  has_newline (double_quotes s) = has_newline s.
Proof.
  induction s as [|c s IH]; simpl; [reflexivity|].
  destruct (Ascii.eqb c dquote) eqn:Hc; simpl; rewrite IH.
  - apply Ascii.eqb_eq in Hc; subst c. reflexivity.
  - reflexivity.
Qed.

Lemma has_newline_csvEscapeStr (s : string) :
  has_newline (csvEscapeStr s) = has_newline s.
Proof.
  unfold csvEscapeStr. destruct (needs_quoting s); [|reflexivity].
  cbn [has_newline]. rewrite has_newline_app, has_newline_double_quotes.
  simpl. now rewrite orb_false_r.
Qed.

Lemma trimmed_csvEscapeStr (s : string) :
  trimmed s -> trimmed (csvEscapeStr s).
Proof.
  intros H. unfold csvEscapeStr. destruct (needs_quoting s); [|exact H].
  apply trimmed_intro; [reflexivity|].
  change (String dquote (double_quotes s ++ String dquote ""))%string
    with (String dquote (double_quotes s) ++ String dquote "")%string.
  apply trimEnd_app; [discriminate | reflexivity].
Qed.

Lemma escapedRow_eq (r : InputRow) :
  escapedRow r = (csvEscapeStr (sku r) ++ "," ++ csvEscapeStr (url r))%string.
Proof. reflexivity. Qed.

Lemma trimmed_join (eol : string) (ls : list string) :
  forall l, Forall trimmed (l :: ls) -> trimmed (join eol (l :: ls)).
Proof.
  induction ls as [|g ls IH]; intros l H; inversion H as [|? ? Hl Hr]; subst.
  - exact Hl.
  - rewrite join_cons. apply trimmed_app; [exact Hl | now apply IH].
Qed.

Lemma allSpace_trailer (eol trailer : string) :
  lineEnd eol -> trailerOf eol trailer -> allSpace trailer = true.
Proof. intros [-> | ->] [-> | ->]; reflexivity. Qed.

Lemma readRows_plain (rows : list InputRow) :
  Forall readable rows ->
  forall acc, readRows (map plainRow rows) acc = acc ++ rows.
Proof.
  induction 1 as [|r rows Hr _ IH]; intros acc; simpl.
  - now rewrite app_nil_r.
  - destruct Hr as ((Hs & _) & Hc & (Hu & _)).
    assert (Hline : trimmed (plainRow r)) by (now apply trimmed_app).
    destruct Hline as [Hne Hline]. rewrite Hline.
    apply String.eqb_neq in Hne. rewrite Hne.
    assert (Hparts : splitOn comma (plainRow r) ""
                     = sku r :: splitOn comma (url r) "").
    { unfold plainRow. now rewrite splitOn_plain. }
    rewrite !Hparts. cbn [hd tl]. rewrite !join_splitOn. cbn [append].
    destruct Hs as [Hsne Hs], Hu as [Hune Hu]. rewrite !Hs, !Hu.
    apply String.eqb_neq in Hsne, Hune. rewrite Hsne, Hune. cbn [orb].
    rewrite IH, <- app_assoc. destruct r; reflexivity.
Qed.

Lemma parseRows_escaped (rows : list InputRow) :
  Forall escapable rows ->
  forall acc, parseRows 0 1 (map escapedRow rows) acc = acc ++ rows.
Proof.
  induction 1 as [|r rows Hr _ IH]; intros acc; simpl.
  - now rewrite app_nil_r.
  - destruct Hr as (((Hsne & Hs) & _) & ((Hune & Hu) & _)).
    assert (Hcols : splitCSVLine (escapedRow r) = [sku r; url r]).
    { unfold splitCSVLine, escapedRow, csvLine.
      change (map csvEscape [JStr (sku r); JStr (url r)])
        with (map csvEscapeStr [sku r; url r]).
      now rewrite CsvFacts.splitLoop_fields. }
    rewrite !Hcols. cbn [nth]. rewrite !Hs, !Hu.
    apply String.eqb_neq in Hsne, Hune. rewrite Hsne, Hune. cbn [orb].
    rewrite IH, <- app_assoc. destruct r; reflexivity.
Qed.

Lemma filter_all {X : Type} (p : X -> bool) (l : list X) :
  Forall (fun x => p x = true) l -> filter p l = l.
Proof.
  induction 1 as [|x l Hx _ IH]; simpl; [reflexivity|]. now rewrite Hx, IH.
Qed.

(** X4.  [readInputCSV] gives back the rows of a file written one row
    per line as sku, comma, url: the header line is skipped whatever it
    says, the file may end with a line terminator, lines may end with
    LF or CR LF, and the commas of a url are kept. *)
Theorem readInputCSV_keeps_commas_of_url
    (eol trailer header : string) (rows : list InputRow) :
  lineEnd eol -> trailerOf eol trailer ->
  plainField header ->
  Forall readable rows ->
  readInputCSV (fileOf eol header plainRow rows ++ trailer) = rows.
Proof.
  intros He Ht [Hh Hhn] Hrows. unfold readInputCSV, fileOf.
  assert (Htrim : Forall trimmed (header :: map plainRow rows)).
  { constructor; [exact Hh|]. apply Forall_map.
    eapply Forall_impl; [|exact Hrows].
    intros r ((Hs & _) & _ & (Hu & _)). now apply trimmed_app. }
  assert (Hnl : Forall (fun x => has_newline x = false)
                  (header :: map plainRow rows)).
  { constructor; [exact Hhn|]. apply Forall_map.
    eapply Forall_impl; [|exact Hrows].
    intros r ((_ & Hs) & _ & (_ & Hu)). unfold plainRow.
    rewrite !has_newline_app, Hs, Hu. reflexivity. }
  pose proof (trimmed_join eol Htrim) as Hfile.
  rewrite trim_app_space by (eauto using allSpace_trailer).
  destruct Hfile as [Hne _]. apply String.eqb_neq in Hne. rewrite Hne.
  unfold splitLines. rewrite splitLines_join by assumption.
  cbn [append]. destruct Hh as [Hhne _].
  apply String.eqb_neq in Hhne. rewrite Hhne.
  now rewrite readRows_plain.
Qed.

Lemma readInputCSV_keeps_commas_of_url_witness :
  readInputCSV (fileOf CRLF "sku,url" plainRow sampleRows ++ CRLF) = sampleRows.
Proof.
  apply (@readInputCSV_keeps_commas_of_url CRLF CRLF "sku,url" sampleRows).
  - right; reflexivity.
  - right; reflexivity.
  - split; [split; [discriminate | reflexivity] | reflexivity].
  - repeat constructor; try discriminate.
Defined.

Lemma parseSimpleCSV_header (text : string) (rest : list string) :
  nonBlankLines text = "sku,url" :: rest ->
  parseSimpleCSV text = inr (parseRows 0 1 rest []).
Proof. intros H. unfold parseSimpleCSV. now rewrite H. Qed.

(** X3.  [parseSimpleCSV] gives back the rows of a file whose header is
    sku,url and whose lines are written with [csvEscape]: fields with
    commas and double quotes are read back as they were; the file may
    end with a line terminator, lines may end with LF or CR LF. *)
Theorem parseSimpleCSV_reads_escaped_rows
    (eol trailer : string) (rows : list InputRow) :
  lineEnd eol -> trailerOf eol trailer ->
  Forall escapable rows ->
  parseSimpleCSV (fileOf eol "sku,url" escapedRow rows ++ trailer) = inr rows.
Proof.
  intros He Ht Hrows.
  assert (Hnl : Forall (fun x => has_newline x = false)
                  ("sku,url" :: map escapedRow rows)).
  { constructor; [reflexivity|]. apply Forall_map.
    eapply Forall_impl; [|exact Hrows].
    intros r ((_ & Hs) & (_ & Hu)). rewrite escapedRow_eq.
    rewrite !has_newline_app, !has_newline_csvEscapeStr, Hs, Hu. reflexivity. }
  assert (Hkeep : Forall (fun l => negb (String.eqb (trim l) "") = true)
                    (map escapedRow rows)).
  { apply Forall_map. eapply Forall_impl; [|exact Hrows].
    intros r ((Hs & _) & (Hu & _)). rewrite escapedRow_eq.
    assert (H : trimmed (csvEscapeStr (sku r) ++ "," ++ csvEscapeStr (url r))%string)
      by (apply trimmed_app; now apply trimmed_csvEscapeStr).
    destruct H as [Hne ->]. apply negb_true_iff. now apply String.eqb_neq. }
  rewrite (@parseSimpleCSV_header _ (map escapedRow rows)).
  - now rewrite parseRows_escaped.
  - unfold nonBlankLines, fileOf. rewrite splitLines_file by assumption.
    rewrite filter_app. cbn [filter].
    change (negb (String.eqb (trim "sku,url") "")) with true. cbn iota.
    rewrite filter_all by exact Hkeep.
    destruct (String.eqb trailer ""); simpl; now rewrite app_nil_r.
Qed.

Lemma parseSimpleCSV_reads_escaped_rows_witness :
  parseSimpleCSV (fileOf LFonly "sku,url" escapedRow sampleRows ++ LFonly)
  = inr sampleRows.
Proof.
  apply (@parseSimpleCSV_reads_escaped_rows LFonly LFonly sampleRows).
  - left; reflexivity.
  - right; reflexivity.
  - repeat constructor; try discriminate.
Defined.

Lemma parseRows_fields (i j : nat) (lines : list string) :
  forall acc,
    Forall (fun r => trimmed (sku r) /\ trimmed (url r)) acc ->
    Forall (fun r => trimmed (sku r) /\ trimmed (url r))
      (parseRows i j lines acc)
    /\ length (parseRows i j lines acc) <= length acc + length lines.
Proof.
  induction lines as [|l lines IH]; intros acc Hacc; simpl.
  - split; [exact Hacc | lia].
  - destruct (String.eqb (trim (nth i (splitCSVLine l) "")) "") eqn:Hs;
      [cbn [orb]; destruct (IH acc Hacc); split; [assumption | lia]|].
    destruct (String.eqb (trim (nth j (splitCSVLine l) "")) "") eqn:Hu;
      [cbn [orb]; destruct (IH acc Hacc); split; [assumption | lia]|].
    cbn [orb]. apply String.eqb_neq in Hs, Hu.
    edestruct IH as [H1 H2]; [|split; [exact H1|]].
    + apply Forall_app. split; [exact Hacc|]. constructor; [|constructor].
      split; now apply trimmed_trim.
    + rewrite length_app in H2. simpl in H2. lia.
Qed.

Lemma readRows_fields (lines : list string) :
  forall acc,
    Forall (fun r => trimmed (sku r) /\ trimmed (url r)) acc ->
    Forall (fun r => trimmed (sku r) /\ trimmed (url r)) (readRows lines acc)
    /\ length (readRows lines acc) <= length acc + length lines.
Proof.
  induction lines as [|l lines IH]; intros acc Hacc; simpl.
  - split; [exact Hacc | lia].
  - destruct (String.eqb (trim l) "");
      [cbn [orb]; destruct (IH acc Hacc); split; [assumption | lia]|].
    destruct (String.eqb (trim (hd "" (splitOn comma l ""))) "") eqn:Hs;
      [cbn [orb]; destruct (IH acc Hacc); split; [assumption | lia]|].
    destruct (String.eqb (trim (join "," (tl (splitOn comma l "")))) "")
      eqn:Hu; [cbn [orb]; destruct (IH acc Hacc); split; [assumption | lia]|].
    cbn [orb]. apply String.eqb_neq in Hs, Hu.
    edestruct IH as [H1 H2]; [|split; [exact H1|]].
    + apply Forall_app. split; [exact Hacc|]. constructor; [|constructor].
      split; now apply trimmed_trim.
    + rewrite length_app in H2. simpl in H2. lia.
Qed.

(** X5.  Neither reader gives a row with an empty sku or url, or with
    white space around them, whatever the file holds; and, the header
    apart, no line gives more than one row. *)
Theorem readers_give_trimmed_fields (text : string) :
  (forall rows,
      parseSimpleCSV text = inr rows ->
      Forall (fun r => trimmed (sku r) /\ trimmed (url r)) rows
      /\ length rows <= pred (length (nonBlankLines text)))
  /\ Forall (fun r => trimmed (sku r) /\ trimmed (url r)) (readInputCSV text)
  /\ length (readInputCSV text) <= pred (length (splitLines (trim text))).
Proof.
  split.
  - unfold parseSimpleCSV. intros rows H.
    destruct (nonBlankLines text) as [|first rest].
    + injection H as <-. split; [constructor | apply Nat.le_refl].
    + destruct (findIndex _ _) as [i|]; [|discriminate].
      destruct (findIndex _ _) as [j|]; [|discriminate].
      injection H as <-. apply (parseRows_fields i j rest (acc := [])).
      constructor.
  - unfold readInputCSV.
    destruct (String.eqb (trim text) "");
      [split; [constructor | apply Nat.le_0_l]|].
    destruct (splitLines (trim text)) as [|header lines];
      [split; [constructor | apply Nat.le_0_l]|].
    destruct (String.eqb header "");
      [split; [constructor | apply Nat.le_0_l]|].
    apply (readRows_fields lines (acc := [])). constructor.
Qed.

End InputFacts.

Module OutputFacts.

Import Csv Input Output Extract.

Lemma csvEscape_render (v : value) : csvEscape v = csvEscapeStr (render v).
Proof. destruct v; reflexivity. Qed.

Lemma csvLine_render (vs : list value) :
  csvLine vs = join "," (map csvEscapeStr (map render vs)).
Proof.
  unfold csvLine. f_equal. rewrite map_map.
  apply map_ext. exact csvEscape_render.
Qed.

Lemma csvLine_parses_back (v : value) (vs : list value) :
  splitCSVLine (csvLine (v :: vs)) = map render (v :: vs).
Proof.
  unfold splitCSVLine. rewrite csvLine_render.
  exact (CsvFacts.splitLoop_fields (map render vs) (render v) []).
Qed.

(** X1.  Every line the two drivers write reads back, with the line
    reader of the bulk extractor, as one field per column of the header
    of its file, whatever the cells hold (commas, double quotes, line
    breaks): each field is the text of its cell, the empty string for
    [null] and [undefined]. *)
Theorem written_line_has_the_fields_of_its_header
    (r : Row) (v : Incremental.VariantRow) :
  splitCSVLine (csvLine (Bulk.columns r)) = map render (Bulk.columns r)
  /\ length (splitCSVLine (csvLine (Bulk.columns r)))
     = length (splitCSVLine (join "," Bulk.headers))
  /\ splitCSVLine (join "," Bulk.headers) = Bulk.headers
  /\ splitCSVLine (Incremental.variantLine v) = map render (variantColumns v)
  /\ length (splitCSVLine (Incremental.variantLine v))
     = length (splitCSVLine Incremental.csvHeader)
  /\ splitCSVLine Incremental.csvHeader = variantHeaders.
Proof.
  assert (Hb : splitCSVLine (csvLine (Bulk.columns r))
               = map render (Bulk.columns r))
    by apply csvLine_parses_back.
  assert (Hv : splitCSVLine (Incremental.variantLine v)
               = map render (variantColumns v))
    by apply csvLine_parses_back.
  split; [exact Hb|]. split; [now rewrite Hb|]. split; [reflexivity|].
  split; [exact Hv|]. split; [now rewrite Hv | reflexivity].
Qed.

Lemma splitLoop_unquoted (line : string) :
  has_quote line = false ->
  forall cur out,
    splitLoop line cur false out = out ++ splitOn comma line cur.
Proof.
  induction line as [|c line IH]; intros H cur out; simpl.
  - reflexivity.
  - simpl in H. apply orb_false_iff in H as [Hq Hl]. rewrite Hq.
    destruct (Ascii.eqb c comma); simpl.
    + rewrite IH by assumption. now rewrite <- app_assoc.
    + now apply IH.
Qed.

(** X2.  On a line without a double quote the line reader of the bulk
    extractor cuts at every comma, as the reader of the save-one-by-one
    script does, and joining the fields with commas gives the line
    back. *)
Theorem splitCSVLine_without_quotes (line : string) :
  has_quote line = false ->
  splitCSVLine line = splitOn comma line ""
  /\ join "," (splitCSVLine line) = line.
Proof.
  intros H. unfold splitCSVLine. rewrite splitLoop_unquoted by assumption.
  split; [reflexivity|]. simpl. apply InputFacts.join_splitOn.
Qed.

Lemma splitCSVLine_without_quotes_witness :
  splitCSVLine "a,,b c," = splitOn comma "a,,b c," ""
  /\ join "," (splitCSVLine "a,,b c,") = "a,,b c,".
Proof. apply (@splitCSVLine_without_quotes "a,,b c,"). reflexivity. Defined.

End OutputFacts.

Module HeaderFacts.

Import Csv Input Incremental.

Lemma findIndexFrom_none {X : Type} (p : X -> bool) (l : list X) :
  forall k, findIndexFrom p l k = None <-> forall x, In x l -> p x = false.
Proof.
  induction l as [|y l IH]; intros k; simpl.
  - split; [intros _ x [] | reflexivity].
  - destruct (p y) eqn:Hy.
    + split; [discriminate|]. intros H. specialize (H y (or_introl eq_refl)).
      congruence.
    + rewrite IH. split.
      * intros H x [<- | Hx]; [exact Hy | now apply H].
      * intros H x Hx. apply H. now right.
Qed.

Lemma findIndex_named (name : string) (cols : list string) :
  findIndex (fun h => String.eqb (toLowerCase h) name) (map trim cols) = None
  <-> forall h, In h cols -> toLowerCase (trim h) <> name.
Proof.
  unfold findIndex. rewrite findIndexFrom_none. split.
  - intros H h Hh. apply String.eqb_neq. apply H. now apply in_map.
  - intros H x Hx. apply in_map_iff in Hx as (h & <- & Hh).
    apply String.eqb_neq. now apply H.
Qed.

(** X21.  [parseSimpleCSV] returns no row for a file without a line that
    is not blank, and throws, whatever the rows, exactly when the first
    such line has no column whose name is sku, or none whose name is
    url, the names being compared after trimming and without regard to
    case. *)
Theorem parseSimpleCSV_needs_both_headers (text : string) :
  (nonBlankLines text = [] -> parseSimpleCSV text = inr [])
  /\ forall first rest,
       nonBlankLines text = first :: rest ->
       (parseSimpleCSV text = inl headerError
        <-> (forall h, In h (splitCSVLine first) -> toLowerCase (trim h) <> "sku")
            \/ (forall h, In h (splitCSVLine first) -> toLowerCase (trim h) <> "url"))
       /\ (parseSimpleCSV text <> inl headerError ->
           exists rows, parseSimpleCSV text = inr rows).
Proof.
  unfold parseSimpleCSV. split; [intros ->; reflexivity|].
  intros first rest ->.
  rewrite <- !findIndex_named.
  destruct (findIndex _ (map trim (splitCSVLine first))) as [i|];
    destruct (findIndex _ (map trim (splitCSVLine first))) as [j|];
    (split; [split; [intros H; try discriminate H; tauto
                    | intros [H | H]; solve [discriminate H | reflexivity]]
            | intros H; try congruence; eexists; reflexivity]).
Qed.

End HeaderFacts.

Module FetchMoreFacts.

Import Fetch.
Local Open Scope Z_scope.

Lemma deadline_le (T : Z) : deadline T <= T.
Proof.
  unfold deadline, timerDelay, TIMEOUT_MAX.
  destruct (2147483647 <? T) eqn:H; [apply Z.ltb_lt in H|]; lia.
Qed.

Lemma attemptLoop_S (T R B : Z) (srv : server) (n k : nat) (now : Z)
    (lastErr : thrown) :
  attemptLoop T R B srv (S n) k now lastErr
  = let call := FetchCall k now (cutBySignal T now (srv k)) in
    match attempt T now (srv k) with
    | (inr j, t) => (inr j, [call], t)
    | (inl e, t) =>
        if Z.of_nat k <? R then
          let ms := B * (Z.of_nat k + 1) in
          let '(r, evs, t') :=
            attemptLoop T R B srv n (S k) (t + pause ms) (Thrown e) in
          (r, call :: Sleep ms :: evs, t')
        else
          let '(r, evs, t') := attemptLoop T R B srv n (S k) t (Thrown e) in
          (r, call :: evs, t')
    end.
Proof. reflexivity. Qed.

(** An attempt gives a value only when the reply is a body that came
    before the deadline. *)
Lemma attempt_value (T now : Z) (r : reply) (j : value) (t : Z) :
  attempt T now r = (inr j, t) ->
  cutBySignal T now r = false
  /\ resp r = Body j
  /\ t = now + Z.of_N (latency r).
Proof.
  unfold attempt. destruct (cutBySignal T now r); [discriminate|].
  destruct (resp r) as [e | st tx b | st tx ba b | e | v]; simpl;
    try discriminate.
  - destruct (deadline T <=? _); discriminate.
  - intros H. injection H as <- <-. now repeat split.
Qed.


Lemma attemptLoop_success (T R B : Z) (srv : server) (n : nat) :
  forall k now lastErr j evs t,
    attemptLoop T R B srv n k now lastErr = (inr j, evs, t) ->
    t < deadline T
    /\ exists k' t0,
         In (FetchCall k' t0 false) evs
         /\ resp (srv k') = Body j
         /\ t = t0 + Z.of_N (latency (srv k')).
Proof.
  induction n as [|n IH]; intros k now lastErr j evs t H; [discriminate H|].
  rewrite attemptLoop_S in H. cbv zeta in H.
  destruct (attempt T now (srv k)) as [[e | v] t1] eqn:Ha.
  - destruct (Z.of_nat k <? R).
    + destruct (attemptLoop T R B srv n (S k) _ (Thrown e))
        as [[r evs'] t'] eqn:E.
      injection H as -> <- ->.
      destruct (IH _ _ _ _ _ _ E) as (Ht & k' & t0 & Hin & Hb & Heq).
      split; [exact Ht|]. exists k', t0.
      split; [right; right; exact Hin | now split].
    + destruct (attemptLoop T R B srv n (S k) _ (Thrown e))
        as [[r evs'] t'] eqn:E.
      injection H as -> <- ->.
      destruct (IH _ _ _ _ _ _ E) as (Ht & k' & t0 & Hin & Hb & Heq).
      split; [exact Ht|]. exists k', t0.
      split; [right; exact Hin | now split].
  - injection H as <- <- <-.
    apply attempt_value in Ha as (Hcut & Hb & ->). rewrite Hcut.
    unfold cutBySignal in Hcut. apply Z.leb_gt in Hcut.
    split; [exact Hcut|]. exists k, now.
    split; [now left | now split].
Qed.

(** X6.  A fetch that returns a value returns it before the deadline of
    [timeoutMs] after its start, whatever the number of retries and the
    delays between them: the value is the body of an attempt that the
    signal did not end, and the fetch ends when that reply comes. *)
Theorem fetch_returns_before_the_deadline
    (timeoutMs retries retryDelayMs : Z) (srv : server) (j : value) :
  returned (fetchJson timeoutMs retries retryDelayMs srv) = inr j ->
  finish (fetchJson timeoutMs retries retryDelayMs srv) < timeoutMs
  /\ exists k t0,
       In (FetchCall k t0 false)
          (trace (fetchJson timeoutMs retries retryDelayMs srv))
       /\ resp (srv k) = Body j
       /\ finish (fetchJson timeoutMs retries retryDelayMs srv)
          = t0 + Z.of_N (latency (srv k)).
Proof.
  unfold fetchJson.
  destruct (attemptLoop timeoutMs retries retryDelayMs srv (iterations retries)
              0 0 ThrownUndefined) as [[r evs] t] eqn:E.
  cbn [returned trace finish]. intros ->.
  destruct (attemptLoop_success _ _ _ _ _ _ _ _ E) as (Ht & k & t0 & Hin & Hb & Heq).
  split; [pose proof (deadline_le timeoutMs); lia|]. exists k, t0.
  split; [right; apply in_or_app; now left | now split].
Qed.

Lemma fetch_returns_before_the_deadline_witness :
  finish (fetchJson 25000 2 800 twice503) < 25000
  /\ exists k t0,
       In (FetchCall k t0 false) (trace (fetchJson 25000 2 800 twice503))
       /\ resp (twice503 k) = Body (JObj [])
       /\ finish (fetchJson 25000 2 800 twice503)
          = t0 + Z.of_N (latency (twice503 k)).
Proof.
  apply (@fetch_returns_before_the_deadline 25000 2 800 twice503 (JObj [])).
  reflexivity.
Defined.

(** X9.  With a negative number of retries the loop body never runs: no
    request is made, and the fetch throws [undefined], the timer being
    set and cleared all the same. *)
Theorem fetch_with_negative_retries
    (timeoutMs retries retryDelayMs : Z) (srv : server) :
  retries < 0 ->
  fetchJson timeoutMs retries retryDelayMs srv
  = mkRun (inl ThrownUndefined) [TimerSet timeoutMs; TimerCleared] 0
  /\ calls (trace (fetchJson timeoutMs retries retryDelayMs srv)) = 0%nat
  /\ describe ThrownUndefined = "undefined"%string.
Proof.
  intros H. unfold fetchJson, iterations.
  replace (Z.to_nat (retries + 1)) with 0%nat by lia.
  repeat split.
Qed.

Lemma fetch_with_negative_retries_witness :
  fetchJson 25000 (-1) 800 twice503
  = mkRun (inl ThrownUndefined) [TimerSet 25000; TimerCleared] 0
  /\ calls (trace (fetchJson 25000 (-1) 800 twice503)) = 0%nat
  /\ describe ThrownUndefined = "undefined"%string.
Proof. apply (@fetch_with_negative_retries 25000 (-1) 800 twice503). lia. Defined.

Lemma attemptLoop_first_success (T R B : Z) (srv : server) (v : value)
    (k : nat) (d : nat) :
  forall k0 n lastErr,
    (k0 + d = k)%nat ->
    (d < n)%nat ->
    Z.of_nat k <= R ->
    (forall j, (k0 <= j < k)%nat -> failed (outcomeOf T B srv j) = true) ->
    outcomeOf T B srv k = inr v ->
    attemptLoop T R B srv n k0 (startOf T B srv k0) lastErr
    = (inr v,
       flat_map (failedRound T B srv) (seq k0 d) ++ lastRound T B srv k,
       snd (attempt T (startOf T B srv k) (srv k))).
Proof.
  induction d as [|d IH]; intros k0 n lastErr Hk Hn HR Hfail Hok.
  - assert (k0 = k) by lia. subst k0.
    destruct n as [|n]; [lia|]. unfold outcomeOf in Hok.
    simpl. destruct (attempt T (startOf T B srv k) (srv k)) as [[e | j] t];
      simpl in Hok; [discriminate Hok|].
    now injection Hok as ->.
  - destruct n as [|n]; [lia|].
    pose proof (Hfail k0 ltac:(lia)) as Hf. unfold outcomeOf in Hf.
    cbn [attemptLoop].
    destruct (attempt T (startOf T B srv k0) (srv k0)) as [[e | j] t] eqn:Ha;
      [|discriminate Hf].
    assert (Hlt : (Z.of_nat k0 <? R) = true) by (apply Z.ltb_lt; lia).
    rewrite Hlt.
    assert (Hstart : t + pause (B * (Z.of_nat k0 + 1)) = startOf T B srv (S k0)).
    { simpl. now rewrite Ha. }
    cbv zeta. rewrite Hstart.
    rewrite (IH (S k0) n (Thrown e)); try assumption; try lia.
    + reflexivity.
    + intros j0 Hj. apply Hfail. lia.
Qed.

(** X8.  The fetch stops at the first attempt that succeeds: when the
    first [k] attempts fail and attempt [k + 1] is answered, with [k]
    at most [retries], the fetch returns that answer after exactly
    [k + 1] calls, having slept [retryDelayMs * j] after failed attempt
    [j], and makes no further call. *)
Theorem fetch_stops_at_the_first_success
    (timeoutMs retries retryDelayMs : Z) (srv : server) (k : nat) (v : value) :
  Z.of_nat k <= retries ->
  (forall j, (j < k)%nat ->
             failed (outcomeOf timeoutMs retryDelayMs srv j) = true) ->
  outcomeOf timeoutMs retryDelayMs srv k = inr v ->
  returned (fetchJson timeoutMs retries retryDelayMs srv) = inr v
  /\ calls (trace (fetchJson timeoutMs retries retryDelayMs srv)) = S k
  /\ sleeps (trace (fetchJson timeoutMs retries retryDelayMs srv))
     = map (fun j => retryDelayMs * Z.of_nat j) (seq 1 k)
  /\ trace (fetchJson timeoutMs retries retryDelayMs srv)
     = TimerSet timeoutMs
         :: flat_map (failedRound timeoutMs retryDelayMs srv) (seq 0 k)
         ++ lastRound timeoutMs retryDelayMs srv k ++ [TimerCleared].
Proof.
  intros HR Hfail Hok.
  assert (E : attemptLoop timeoutMs retries retryDelayMs srv
                (iterations retries) 0 0 ThrownUndefined
              = (inr v,
                 flat_map (failedRound timeoutMs retryDelayMs srv) (seq 0 k)
                   ++ lastRound timeoutMs retryDelayMs srv k,
                 snd (attempt timeoutMs (startOf timeoutMs retryDelayMs srv k)
                        (srv k)))).
  { apply (@attemptLoop_first_success timeoutMs retries retryDelayMs srv v k k
             0%nat (iterations retries) ThrownUndefined);
      try assumption; try (unfold iterations; lia).
    intros j Hj. apply Hfail. lia. }
  unfold fetchJson. rewrite E. cbn [returned trace].
  split; [reflexivity|]. split; [|split].
  - change (TimerSet timeoutMs :: ?l) with ([TimerSet timeoutMs] ++ l).
    rewrite !FetchFacts.calls_app, FetchFacts.calls_rounds.
    unfold calls; simpl. lia.
  - change (TimerSet timeoutMs :: ?l) with ([TimerSet timeoutMs] ++ l).
    rewrite !FetchFacts.sleeps_app, FetchFacts.sleeps_rounds.
    unfold sleeps; simpl. now rewrite !app_nil_r.
  - now rewrite <- app_assoc.
Qed.

Lemma fetch_stops_at_the_first_success_witness :
  returned (fetchJson 25000 2 800 htmlThenJson) = inr (JObj [])
  /\ calls (trace (fetchJson 25000 2 800 htmlThenJson)) = 2%nat
  /\ sleeps (trace (fetchJson 25000 2 800 htmlThenJson))
     = map (fun j => 800 * Z.of_nat j) (seq 1 1)
  /\ trace (fetchJson 25000 2 800 htmlThenJson)
     = TimerSet 25000
         :: flat_map (failedRound 25000 800 htmlThenJson) (seq 0 1)
         ++ lastRound 25000 800 htmlThenJson 1 ++ [TimerCleared].
Proof.
  apply (@fetch_stops_at_the_first_success 25000 2 800 htmlThenJson 1 (JObj [])).
  - lia.
  - intros j Hj. destruct j as [|j]; [reflexivity | lia].
  - reflexivity.
Defined.




(** Both ways of ending at the deadline occur: after a slow first reply
    the retry is aborted at once; an error response whose body is cut
    short is reported with an empty text. *)
Example fetch_at_the_deadline :
  returned (fetchJson 1000 1 0 slowThenPrompt) = inl (Thrown abortError)
  /\ finish (fetchJson 1000 1 0 slowThenPrompt) = 1000
  /\ returned (fetchJson 1000 1 0 bodyCutShort)
     = inl (Thrown (httpError 503 "Service Unavailable" ""))
  /\ finish (fetchJson 1000 1 0 bodyCutShort) = 1000
  /\ returned (fetchJson 2147483648 0 0 slowThenPrompt)
     = inl (Thrown abortError)
  /\ finish (fetchJson 2147483648 0 0 slowThenPrompt) = 1.
Proof. vm_compute. repeat split. Qed.

End FetchMoreFacts.

Module DiscoveryMoreFacts.

Import Discovery Extract.

Lemma filter_nonEmpty_Forall {X : Type} (id : X -> string) (l : list X) :
  Forall (fun x => id x <> "") (filter (fun x => nonEmpty (id x)) l).
Proof.
  apply Forall_forall. intros x Hx. apply filter_In in Hx as [_ Hx].
  unfold nonEmpty in Hx. apply negb_true_iff in Hx. now apply String.eqb_neq.
Qed.

Lemma colors_nonempty_ids (product : value) :
  Forall (fun c => color_id c <> "") (colors (extractVariationAttributes product)).
Proof.
  unfold extractVariationAttributes. cbn [colors].
  destruct (isArray _); [|constructor].
  apply (filter_nonEmpty_Forall color_id).
Qed.

Lemma sizes_nonempty_ids (product : value) :
  Forall (fun s => size_id s <> "") (sizes (extractVariationAttributes product)).
Proof.
  unfold extractVariationAttributes. cbn [sizes].
  destruct (hasValues _).
  - apply (filter_nonEmpty_Forall size_id).
  - constructor; [discriminate | constructor].
Qed.

Lemma in_buildTasks (cs : list Color) (ss : list Size) (t : Task) :
  In t (buildTasks cs ss) -> In (color t) cs /\ In (size t) ss.
Proof.
  rewrite DiscoveryFacts.buildTasks_flat_map. intros H.
  apply in_flat_map in H as (c & Hc & H).
  apply in_map_iff in H as (s & <- & Hs). now split.
Qed.

(** X10.  Every color and every size that discovery returns has an id
    that is not empty, so that the request of every combination names
    its color and its size by their ids: the fallback of the size id to
    NS in the mapper never applies. *)
Theorem discovered_ids_are_not_empty (product : value) :
  Forall (fun c => color_id c <> "") (colors (extractVariationAttributes product))
  /\ Forall (fun s => size_id s <> "") (sizes (extractVariationAttributes product))
  /\ forall t,
       In t (buildTasks (colors (extractVariationAttributes product))
               (sizes (extractVariationAttributes product))) ->
       color_id (color t) <> ""
       /\ sizeIdOrNS (size t) = size_id (size t).
Proof.
  split; [apply colors_nonempty_ids|]. split; [apply sizes_nonempty_ids|].
  intros t Ht. apply in_buildTasks in Ht as [Hc Hs]. split.
  - exact (proj1 (Forall_forall _ _) (colors_nonempty_ids product) _ Hc).
  - pose proof (proj1 (Forall_forall _ _) (sizes_nonempty_ids product) _ Hs) as H.
    unfold sizeIdOrNS, nonEmpty. apply String.eqb_neq in H. now rewrite H.
Qed.

(** X11.  A size attribute that is declared with values none of which can
    be selected is not a missing dimension: discovery returns no size
    at all, not the NS placeholder, and no combination is generated,
    whatever the colors. *)
Theorem unselectable_sizes_give_no_combination (product : value) :
  hasSizeAttribute (extractVariationAttributes product) = true ->
  (forall v,
      In v (elements (get (findAttr "size" (declaredAttributes product)) "values")) ->
      selectable v = false) ->
  sizes (extractVariationAttributes product) = []
  /\ buildTasks (colors (extractVariationAttributes product))
       (sizes (extractVariationAttributes product)) = [].
Proof.
  intros Hflag Hnone.
  assert (Hs : sizes (extractVariationAttributes product) = []).
  { unfold extractVariationAttributes in *. cbn [sizes hasSizeAttribute] in *.
    rewrite Hflag.
    replace (filter selectable _) with (@nil value); [reflexivity|].
    symmetry. induction (elements _) as [|v l IH]; [reflexivity|].
    simpl. rewrite (Hnone v (or_introl eq_refl)).
    apply IH. intros w Hw. apply Hnone. now right. }
  split; [exact Hs|]. rewrite Hs.
  rewrite DiscoveryFacts.buildTasks_flat_map.
  induction (colors _) as [|c cs IH]; [reflexivity | exact IH].
Qed.

Lemma unselectable_sizes_give_no_combination_witness :
  sizes (extractVariationAttributes soldOutSizes) = []
  /\ buildTasks (colors (extractVariationAttributes soldOutSizes))
       (sizes (extractVariationAttributes soldOutSizes)) = [].
Proof.
  apply (@unselectable_sizes_give_no_combination soldOutSizes).
  - reflexivity.
  - intros v [<- | []]. reflexivity.
Defined.

End DiscoveryMoreFacts.

Module UrlFacts.

Import Discovery Extract.

Lemma append_inj_l (a b c : string) : (a ++ b = a ++ c)%string -> b = c.
Proof.
  induction a as [|x a IH]; simpl; intros H; [exact H|].
  injection H as H. now apply IH.
Qed.

Lemma size_key_is_not_color_key (pid : string) :
  String.eqb ("dwvar_" ++ pid ++ "_size") ("dwvar_" ++ pid ++ "_color") = false.
Proof.
  apply String.eqb_neq. intros H.
  apply (append_inj_l "dwvar_") in H. apply append_inj_l in H. discriminate H.
Qed.

(** X12.  Whatever the product id, the request of a combination carries
    four parameters, the color and the size under the keys built from
    the product id, then the product id and the quantity: no key
    overwrites another.  The base query carries the product id alone,
    and the color as well when one is given. *)
Theorem request_parameters
    (site locale pid color size : string) (quantity : value) :
  query (variationUrl site locale pid color size quantity)
  = [ (("dwvar_" ++ pid ++ "_color")%string, color);
      (("dwvar_" ++ pid ++ "_size")%string, size);
      ("pid", pid);
      ("quantity", to_string (coalesce quantity (JNum "1"))) ]
  /\ query (nonCachedUrl site locale pid "") = [("pid", pid)]
  /\ (color <> "" ->
      query (nonCachedUrl site locale pid color)
      = [ ("pid", pid); (("dwvar_" ++ pid ++ "_color")%string, color) ]).
Proof.
  split; [|split].
  - unfold variationUrl. cbn [query qset].
    rewrite size_key_is_not_color_key. reflexivity.
  - reflexivity.
  - intros H. unfold nonCachedUrl, nonEmpty.
    apply String.eqb_neq in H. rewrite H. reflexivity.
Qed.

End UrlFacts.

Module PoolMoreFacts.

Import Pool PoolLog.

Section AnyMapper.

Variables A B E : Type.
Variable items : list A.



Variable f : A -> nat -> B.



End AnyMapper.



Section OneWorker.

Variables A B E : Type.
Variable items : list A.
Variable f : A -> nat -> B.

Lemma alternating_S (s : nat) :
  alternating (S s) = alternating s ++ [Start s; Settle s].
Proof.
  unfold alternating. rewrite seq_S, flat_map_app. simpl.
  reflexivity.
Qed.

Lemma sequential_settle (s w : nat) (st st' : state B E) :
  sequentialAt (length items) s st ->
  settle items (resolving E f) w st = Some st' ->
  sequentialAt (length items) (S s) st'.
Proof.
  intros (Hidx & Hlog & Hw). unfold settle, resolving. rewrite Hw.
  destruct w as [|w]; [|destruct w; discriminate]. cbn [nth_error].
  destruct (Nat.ltb s (length items)) eqn:Hs; [|discriminate].
  destruct (nth_error items s) as [x|] eqn:Hx; [|discriminate].
  unfold dispatch. cbn [idx out workers rejection log]. rewrite Hidx.
  unfold sequentialAt, oneWorkerLog. rewrite Hlog. unfold oneWorkerLog.
  rewrite Hs, alternating_S.
  destruct (nth_error items (S s)) as [y|] eqn:Hy; intros H;
    injection H as <-; cbn [idx out workers rejection log update].
  - assert (Hlt : Nat.ltb (S s) (length items) = true).
    { apply Nat.ltb_lt. apply nth_error_Some. congruence. }
    rewrite Hlt. split; [reflexivity|]. split; [|reflexivity].
    now rewrite <- !app_assoc.
  - assert (Hge : Nat.ltb (S s) (length items) = false).
    { apply Nat.ltb_ge. now apply nth_error_None. }
    rewrite Hge. split; [reflexivity|]. split; [|reflexivity].
    now rewrite app_nil_r, <- !app_assoc.
Qed.

Lemma sequential_run (sched : list nat) :
  forall s (st st' : state B E),
    sequentialAt (length items) s st ->
    run items (resolving E f) sched st = Some st' ->
    sequentialAt (length items) (s + length sched) st'.
Proof.
  induction sched as [|w sched IH]; intros s st st' Hq H; simpl in H.
  - injection H as <-. simpl. now rewrite Nat.add_0_r.
  - destruct (settle items (resolving E f) w st) as [st1|] eqn:Hs;
      [|discriminate].
    simpl. rewrite Nat.add_succ_r.
    exact (IH (S s) _ _ (@sequential_settle s w st st1 Hq Hs) H).
Qed.

Lemma sequential_start (limit : Z) :
  Z.le limit 1 -> sequentialAt (B := B) (E := E) (length items) 0 (start items limit).
Proof.
  intros Hl. unfold start, workerCount.
  replace (Z.to_nat (Z.max 1 limit)) with 1 by lia.
  unfold sequentialAt, oneWorkerLog, alternating. simpl.
  unfold dispatch, init. cbn [idx]. destruct items; simpl; auto.
Qed.

Lemma settles_oneWorkerLog (n s : nat) :
  settles (oneWorkerLog n s) = seq 0 s.
Proof.
  unfold oneWorkerLog. rewrite PoolFacts.settles_app.
  replace (settles (if Nat.ltb s n then [Start s] else [])) with (@nil nat)
    by (destruct (Nat.ltb s n); reflexivity).
  rewrite app_nil_r. induction s as [|s IH]; [reflexivity|].
  rewrite alternating_S, PoolFacts.settles_app, IH, seq_S. reflexivity.
Qed.

End OneWorker.

(** X14.  With a limit of one or less the pool processes the items one at
    a time and in their order: in every run of tasks that do not
    reject, each task is started only when the task before it has
    settled, so the log is start 0, settle 0, start 1, settle 1, and so
    on, and the tasks settle in the order of the items. *)
Theorem pool_with_one_worker_is_sequential
    (A B E : Type) (items : list A) (f : A -> nat -> B) (limit : Z)
    (sched : list nat) (st : state B E) :
  Z.le limit 1 ->
  run items (resolving E f) sched (start items limit) = Some st ->
  log st = oneWorkerLog (length items) (length sched)
  /\ settles (log st) = seq 0 (length sched)
  /\ peak (log st) 0 <= 1.
Proof.
  intros Hl Hrun.
  destruct (@sequential_run A B E items f sched 0 _ _ (@sequential_start A B E items limit Hl) Hrun)
    as (_ & Hlog & _).
  simpl in Hlog. split; [exact Hlog|]. split.
  - rewrite Hlog. apply settles_oneWorkerLog.
  - destruct (@PoolFacts.pool_runs A B E items f limit sched st Hrun) as (_ & Hp & _).
    unfold workerCount in Hp. replace (Z.to_nat (Z.max 1 limit)) with 1 in Hp by lia.
    exact Hp.
Qed.

Lemma pool_with_one_worker_is_sequential_witness :
  exists st,
    run threeItems (resolving unit tagged) [0; 0] (start threeItems 1) = Some st
    /\ log st = oneWorkerLog (length threeItems) 2
    /\ settles (log st) = seq 0 2
    /\ peak (log st) 0 <= 1.
Proof.
  eexists. split; [reflexivity|].
  apply (@pool_with_one_worker_is_sequential string (string * nat) unit
           threeItems tagged 1 [0; 0]).
  - lia.
  - reflexivity.
Defined.

End PoolMoreFacts.

Module PoolArrayFacts.

Import Pool PoolLog.

Section AnyMapper.

Variables A B E : Type.
Variable items : list A.
Variable mapper : A -> nat -> outcome B E.

Lemma settledResolved_settle (w : nat) (st st' : state B E) :
  settledResolved items mapper st ->
  settle items mapper w st = Some st' ->
  settledResolved items mapper st'.
Proof.
  intros Hs. unfold settle.
  destruct (nth_error (workers st) w) as [[my| |e0]|]; try discriminate.
  destruct (nth_error items my) as [x|] eqn:Hx; [|discriminate].
  destruct (mapper x my) as [b|e|] eqn:Hm; [| |discriminate].
  - destruct (PoolFacts.dispatch_cases items
                (mkState (idx st) (update my (Some b) (out st)) (workers st)
                   (rejection st) (log st ++ [Settle my])))
      as [[_ ->] | [_ ->]]; intros H; injection H as <-;
      intros i y Hi Hy; cbn [log rejection] in *;
      rewrite ?PoolFacts.settles_snoc_start, ?PoolFacts.settles_snoc_settle in Hi;
      apply in_app_or in Hi as [Hi | [<- | []]];
      solve [ now apply (Hs i y)
            | left; exists b; congruence ].
  - intros H; injection H as <-. intros i y Hi Hy. right.
    cbn [rejection]. destruct (rejection st); discriminate.
Qed.

Lemma settledResolved_run (sched : list nat) :
  forall st st' : state B E,
    settledResolved items mapper st ->
    run items mapper sched st = Some st' ->
    settledResolved items mapper st'.
Proof.
  induction sched as [|w sched IH]; intros st st' Hs H; simpl in H.
  - now injection H as <-.
  - destruct (settle items mapper w st) as [st1|] eqn:Hw; [|discriminate].
    exact (IH _ _ (@settledResolved_settle w st st1 Hs Hw) H).
Qed.

End AnyMapper.

(** X15.  An array returned by the pool has no hole when the limit is
    a number, whatever the tasks do: when [mapLimit] returns rather
    than throws, every task has settled and was fulfilled, and the slot
    of each index holds the value its task was fulfilled with.  With a
    limit that is not a number no worker is started, and the array
    returned, at once, has a hole at every index. *)
Theorem pool_array_has_no_hole
    (A B E : Type) (items : list A) (mapper : A -> nat -> outcome B E)
    (rangeError : E) (l : limit) (sched : list nat) (st : state B E)
    (o : list (option B)) :
  run items mapper sched (startAt items rangeError l) = Some st ->
  result st = Some (inl o) ->
  match l with
  | Count n =>
      Z.le n MAX_ARRAY_LENGTH
      /\ length o = length items
      /\ length sched = length items
      /\ forall i x,
           nth_error items i = Some x ->
           exists b, mapper x i = Resolve b /\ nth_error o i = Some (Some b)
  | NotANumber =>
      sched = [] /\ o = repeat None (length items)
  end.
Proof.
  assert (Hidle : forall s : state B E,
             workers s = [] -> run items mapper sched s = Some st ->
             sched = [] /\ st = s).
  { intros s Hs. destruct sched as [|w sched']; simpl.
    - intros H. now injection H as <-.
    - unfold settle. rewrite Hs. now destruct w. }
  destruct l as [n|]; unfold startAt.
  - destruct (Z.ltb MAX_ARRAY_LENGTH n) eqn:Hmax.
    { intros Hrun Hres. apply Hidle in Hrun as [_ ->]; [|reflexivity].
      discriminate Hres. }
    apply Z.ltb_ge in Hmax. intros Hrun Hres. split; [exact Hmax|].
    destruct (PoolFacts.inv_start items mapper n)
      as (Hinv0 & Hlen0 & Hset & _).
    destruct (PoolFacts.run_facts sched Hinv0 Hrun) as (Hinv & Hw & Hn).
    rewrite Hset in Hn. simpl in Hn.
    assert (Hs0 : settledResolved items mapper (start items n)).
    { intros i x Hi. rewrite Hset in Hi. destruct Hi. }
    pose proof (@settledResolved_run A B E items mapper sched _ _ Hs0 Hrun)
      as Hs.
    unfold result in Hres.
    destruct (rejection st) as [e|] eqn:Hrej; [discriminate|].
    destruct (forallb isReturned (workers st)) eqn:Hall; [|discriminate].
    injection Hres as <-.
    assert (HK : 1 <= length (workers st)).
    { rewrite Hw, Hlen0. unfold workerCount. lia. }
    destruct (PoolFacts.all_returned Hinv HK Hall) as [Hcount Hout].
    split; [exact (inv_out_len Hinv)|]. split; [lia|].
    intros i x Hx. destruct (Hout i x Hx) as [Hin Hslot].
    destruct (Hs i x Hin Hx) as [[b Hb] | Hno]; [|congruence].
    exists b. split; [exact Hb|]. now rewrite Hslot, Hb.
  - intros Hrun Hres. apply Hidle in Hrun as [-> ->]; [|reflexivity].
    split; [reflexivity|]. cbv in Hres. now injection Hres as <-.
Qed.

Lemma pool_array_has_no_hole_witness :
  Z.le 2 MAX_ARRAY_LENGTH
  /\ length (out threeDone) = length threeItems
  /\ length secondFirst = length threeItems
  /\ forall i x,
       nth_error threeItems i = Some x ->
       exists b,
         resolving unit tagged x i = Resolve b
         /\ nth_error (out threeDone) i = Some (Some b).
Proof.
  exact (@pool_array_has_no_hole string (string * nat) unit threeItems
           (resolving unit tagged) tt (Count 2) secondFirst threeDone
           (out threeDone) eq_refl eq_refl).
Defined.

End PoolArrayFacts.

Module MatrixFacts.

Import Extract Matrix.

Lemma assocGet_set_eq {X : Type} (k : string) (x : X) (l : list (string * X)) :
  assocGet k (assocSet k x l) = Some x.
Proof.
  induction l as [|[k' x'] l IH]; simpl.
  - now rewrite String.eqb_refl.
  - destruct (String.eqb k k') eqn:Hk; simpl.
    + now rewrite String.eqb_refl.
    + now rewrite Hk.
Qed.

Lemma assocGet_set_neq {X : Type} (k k0 : string) (x : X)
    (l : list (string * X)) :
  String.eqb k0 k = false ->
  assocGet k0 (assocSet k x l) = assocGet k0 l.
Proof.
  intros Hne. induction l as [|[k' x'] l IH]; simpl.
  - now rewrite Hne.
  - destruct (String.eqb k k') eqn:Hk; simpl.
    + apply String.eqb_eq in Hk; subst k'. now rewrite Hne.
    + now rewrite IH.
Qed.

Lemma assocGet_setOwn (sid k : string) (r : Row) (l : list (string * Row)) :
  assocGet sid (setOwn k r l)
  = if String.eqb sid k && negb (String.eqb k "__proto__") then Some r
    else assocGet sid l.
Proof.
  unfold setOwn. destruct (String.eqb k "__proto__") eqn:Hp.
  - now rewrite andb_false_r.
  - rewrite andb_true_r. destruct (String.eqb sid k) eqn:Hs.
    + apply String.eqb_eq in Hs; subst sid. apply assocGet_set_eq.
    + now apply assocGet_set_neq.
Qed.

(** The row just added is what its cell holds; the other cells are
    left as they were. *)
Lemma cell_add (m m' : list (string * MatrixEntry)) (r : Row)
    (cid sid : string) :
  addToMatrix m r = inr m' ->
  cell m' cid sid = if stored cid sid r then Some r else cell m cid sid.
Proof.
  unfold cell, addToMatrix, stored, hasKey, colorKey, sizeKey.
  assert (Hsid : String.eqb sid (to_string (r_size_id r))
                 && negb (String.eqb sid "__proto__")
                 = String.eqb sid (to_string (r_size_id r))
                   && negb (String.eqb (to_string (r_size_id r)) "__proto__")).
  { destruct (String.eqb sid (to_string (r_size_id r))) eqn:Hs;
      [|reflexivity].
    apply String.eqb_eq in Hs. now subst sid. }
  destruct (String.eqb cid (to_string (r_color_id r))) eqn:Hc.
  - apply String.eqb_eq in Hc; subst cid. cbn [andb]. rewrite Hsid.
    destruct (assocGet (to_string (r_color_id r)) m) as [e|].
    + intros H. injection H as <-.
      rewrite assocGet_set_eq. cbn [m_sizes]. apply assocGet_setOwn.
    + destruct (inherited (to_string (r_color_id r))); [discriminate|].
      intros H. injection H as <-.
      rewrite assocGet_set_eq. cbn [m_sizes]. apply assocGet_setOwn.
  - cbn [andb].
    destruct (assocGet (to_string (r_color_id r)) m) as [e|].
    + intros H. injection H as <-. now rewrite assocGet_set_neq.
    + destruct (inherited (to_string (r_color_id r))); [discriminate|].
      intros H. injection H as <-. now rewrite assocGet_set_neq.
Qed.

Lemma find_app {X : Type} (p : X -> bool) (a b : list X) :
  find p (a ++ b)
  = match find p a with Some x => Some x | None => find p b end.
Proof.
  induction a as [|x a IH]; simpl; [reflexivity|].
  destruct (p x); [reflexivity | exact IH].
Qed.

Lemma cell_build (rows : list Row) :
  forall m m' cid sid,
    buildMatrix (map Some rows) m = inr m' ->
    cell m' cid sid
    = match find (stored cid sid) (rev rows) with
      | Some r => Some r
      | None => cell m cid sid
      end.
Proof.
  induction rows as [|r rows IH]; intros m m' cid sid H; simpl in H.
  - now injection H as <-.
  - destruct (addToMatrix m r) as [e | m1] eqn:Ha; [discriminate|].
    rewrite (IH _ _ cid sid H), (@cell_add m m1 r cid sid Ha).
    simpl. rewrite find_app. simpl.
    destruct (find (stored cid sid) (rev rows)); [reflexivity|].
    now destruct (stored cid sid r).
Qed.

Lemma find_stored (cid sid : string) (rows : list Row) :
  find (stored cid sid) rows
  = if String.eqb sid "__proto__" then None else find (hasKey cid sid) rows.
Proof.
  induction rows as [|r rows IH]; simpl.
  - now destruct (String.eqb sid "__proto__").
  - rewrite IH. unfold stored.
    destruct (String.eqb sid "__proto__").
    + now rewrite andb_false_r.
    + now rewrite andb_true_r.
Qed.

Lemma keys_build (rows : list Row) :
  forall m m',
    buildMatrix (map Some rows) m = inr m' ->
    NoDup (map fst m) ->
    NoDup (map fst m')
    /\ forall cid,
         In cid (map fst m')
         <-> In cid (map fst m) \/ In cid (map colorKey rows).
Proof.
  induction rows as [|r rows IH]; intros m m' H Hnd; simpl in H.
  - injection H as <-. split; [exact Hnd|]. intros cid. simpl. tauto.
  - destruct (addToMatrix m r) as [e | m1] eqn:Ha; [discriminate|].
    pose proof (ExtractFacts.keys_add _ _ Ha) as Hk.
    assert (Hnd' : NoDup (map fst m1)).
    { rewrite Hk.
      destruct (existsb (String.eqb (colorKey r)) (map fst m)) eqn:Hex;
        [exact Hnd|].
      apply NoDup_app; [exact Hnd | constructor; [intros [] | constructor] |].
      intros k Hin [<- | []].
      apply ExtractFacts.existsb_eqb_In in Hin. congruence. }
    destruct (IH _ _ H Hnd') as [H1 H2]. split; [exact H1|].
    intros cid. rewrite H2, Hk.
    destruct (existsb (String.eqb (colorKey r)) (map fst m)) eqn:Hex.
    + apply ExtractFacts.existsb_eqb_In in Hex.
      split; [simpl; tauto|]. intros [Hin | [<- | Hin]]; tauto.
    + rewrite in_app_iff. simpl. tauto.
Qed.

(** What an entry says of its color is written when the entry is
    created and never changed. *)
Lemma heading_add (m m' : list (string * MatrixEntry)) (r : Row)
    (cid : string) :
  addToMatrix m r = inr m' ->
  match assocGet cid m with
  | Some e =>
      exists e', assocGet cid m' = Some e' /\ heading e' = heading e
  | None =>
      if String.eqb cid (colorKey r)
      then exists e', assocGet cid m' = Some e' /\ heading e' = headingOf r
      else assocGet cid m' = None
  end.
Proof.
  unfold addToMatrix, colorKey.
  destruct (String.eqb cid (to_string (r_color_id r))) eqn:Hc.
  - apply String.eqb_eq in Hc; subst cid.
    destruct (assocGet (to_string (r_color_id r)) m) as [e|].
    + intros H. injection H as <-. rewrite assocGet_set_eq.
      eexists; split; reflexivity.
    + destruct (inherited (to_string (r_color_id r))); [discriminate|].
      intros H. injection H as <-. rewrite assocGet_set_eq.
      eexists; split; reflexivity.
  - assert (Hkeep : forall x,
               assocGet cid (assocSet (to_string (r_color_id r)) x m)
               = assocGet cid m)
      by (intros x; now apply assocGet_set_neq).
    destruct (assocGet (to_string (r_color_id r)) m) as [e0|].
    + intros H. injection H as <-. rewrite Hkeep.
      destruct (assocGet cid m) as [e|]; [|reflexivity].
      exists e. now split.
    + destruct (inherited (to_string (r_color_id r))); [discriminate|].
      intros H. injection H as <-. rewrite Hkeep.
      destruct (assocGet cid m) as [e|]; [|reflexivity].
      exists e. now split.
Qed.

Lemma heading_build (rows : list Row) :
  forall m m' cid e,
    buildMatrix (map Some rows) m = inr m' ->
    assocGet cid m' = Some e ->
    match assocGet cid m with
    | Some e0 => heading e = heading e0
    | None =>
        exists r0,
          find (fun r => String.eqb cid (colorKey r)) rows = Some r0
          /\ heading e = headingOf r0
    end.
Proof.
  induction rows as [|r rows IH]; intros m m' cid e Hb H; simpl in Hb.
  - injection Hb as <-. now rewrite H.
  - destruct (addToMatrix m r) as [e1 | m1] eqn:Ha; [discriminate|].
    specialize (IH _ _ _ _ Hb H).
    pose proof (@heading_add m m1 r cid Ha) as Hh.
    destruct (assocGet cid m) as [e0|].
    + destruct Hh as (e' & He' & Hh). rewrite He' in IH. congruence.
    + simpl. destruct (String.eqb cid (colorKey r)).
      * destruct Hh as (e' & He' & Hh). rewrite He' in IH.
        exists r. split; [reflexivity | congruence].
      * rewrite Hh in IH. exact IH.
Qed.

(** X16.  The matrix loop, for every list of rows.  When the color id
    of some row names a member every object inherits (such as
    [constructor]), the loop throws a [TypeError].  Otherwise the
    matrix is built, and reading its own properties back gives: under a
    color id and a size id other than [__proto__], the last row with
    these ids (a later row replaces an earlier one), and nothing under
    the size id [__proto__]; one entry per distinct color id of the
    rows, no other; and in each entry the color id, color name and
    swatch of the first row of that color (a later row does not change
    them). *)
Theorem matrix_keeps_last_row_and_first_heading (rows : list Row) :
  if existsb (fun r => inherited (colorKey r)) rows
  then buildMatrix (map Some rows) [] = inl (Fetch.Thrown typeErrorSet)
  else
    exists m,
      buildMatrix (map Some rows) [] = inr m
      /\ (forall cid sid,
            cell m cid sid
            = if String.eqb sid "__proto__" then None
              else find (hasKey cid sid) (rev rows))
      /\ NoDup (map fst m)
      /\ (forall cid, In cid (map fst m) <-> In cid (map colorKey rows))
      /\ forall cid e,
           assocGet cid m = Some e ->
           exists r0,
             find (fun r => String.eqb cid (colorKey r)) rows = Some r0
             /\ heading e = headingOf r0.
Proof.
  destruct (existsb (fun r => inherited (colorKey r)) rows) eqn:Hex.
  - apply ExtractFacts.buildMatrix_throws; [|intros k []].
    apply existsb_exists in Hex as (r & Hr & Hi).
    apply Exists_exists. now exists r.
  - assert (Hall : Forall (fun r => inherited (colorKey r) = false) rows).
    { apply Forall_forall. intros r Hr.
      destruct (inherited (colorKey r)) eqn:Hi; [|reflexivity].
      assert (Ht : existsb (fun r => inherited (colorKey r)) rows = true)
        by (apply existsb_exists; now exists r).
      congruence. }
    destruct (@ExtractFacts.buildMatrix_total rows Hall []) as [m Hm].
    exists m. split; [exact Hm|]. split.
    { intros cid sid. rewrite (@cell_build rows [] m cid sid Hm).
      rewrite find_stored. unfold cell. simpl.
      destruct (String.eqb sid "__proto__"); [reflexivity|].
      now destruct (find (hasKey cid sid) (rev rows)). }
    destruct (@keys_build rows [] m Hm (NoDup_nil _)) as [Hnd Hkeys].
    split; [exact Hnd|]. split.
    { intros cid. rewrite Hkeys. simpl. tauto. }
    intros cid e H. exact (@heading_build rows [] m cid e Hm H).
Qed.

(** The matrix of a product lists its entries as [Object.values] does:
    the entries whose color ids are array indices come first, in
    ascending order, then the others as they were created. *)
Example ownValues_order :
  ownValues [("red", 1); ("10", 2); ("2", 3); ("007", 4); ("blue", 5)]
  = [3; 2; 1; 4; 5].
Proof. reflexivity. Qed.

End MatrixFacts.

Module ProductFacts.

Import Discovery Extract.

Section OneProduct.

Variable net : network.
Variable now : string.
Variables pid inputSku inputUrl : string.
Variable args : Args.

(** What a returned product is made of. *)
Lemma extractOneProduct_product (x : Extracted) :
  extractOneProduct net now pid inputSku inputUrl args = Some (inr (Product x)) ->
  exists baseProduct,
    x_colors x = colors (extractVariationAttributes baseProduct)
    /\ x_sizes x = sizes (extractVariationAttributes baseProduct)
    /\ x_colors x <> []
    /\ flatRows x
       = map Some
           (Pool.mapi
              (comboRow net pid inputSku inputUrl args (x_product_name x)
                 (x_brand x) (x_has_size_attribute x))
              (buildTasks (x_colors x) (x_sizes x))).
Proof.
  unfold extractOneProduct.
  destruct (fetchFrom net args BaseQuery _) as [e | baseJson]; [discriminate|].
  set (baseProduct := or_else (get baseJson "product") (JObj [])).
  destruct (Nat.eqb (length (colors (extractVariationAttributes baseProduct))) 0)
    eqn:Hlen; [discriminate|].
  assert (Hne : colors (extractVariationAttributes baseProduct) <> []).
  { intros Hc. rewrite Hc in Hlen. discriminate Hlen. }
  destruct (resolveNameBrand net pid args _ _) as [e | [productName brand]];
    [discriminate|].
  unfold fetchAndAggregate, comboMapper. rewrite PoolFacts.mapLimitAt_value.
  destruct (concurrency args) as [n|].
  - destruct (Z.ltb Pool.MAX_ARRAY_LENGTH n); [discriminate|].
    destruct (buildMatrix _ []) as [e | m]; [discriminate|].
    intros H. injection H as <-. cbn [x_colors x_sizes flatRows x_product_name
                                      x_brand x_has_size_attribute].
    exists baseProduct. split; [reflexivity|]. split; [reflexivity|].
    split; [exact Hne | reflexivity].
  - destruct (buildTasks (colors (extractVariationAttributes baseProduct))
                (sizes (extractVariationAttributes baseProduct)))
      as [|t tasks] eqn:Ht; [|discriminate].
    cbn [length repeat buildMatrix].
    intros H. injection H as <-. cbn [x_colors x_sizes flatRows x_product_name
                                      x_brand x_has_size_attribute].
    exists baseProduct. split; [reflexivity|]. split; [reflexivity|].
    split; [exact Hne|].
    change (@nil (option Row)
            = map Some
                (Pool.mapi
                   (comboRow net pid inputSku inputUrl args productName brand
                      (hasSizeAttribute (extractVariationAttributes baseProduct)))
                   (buildTasks (colors (extractVariationAttributes baseProduct))
                      (sizes (extractVariationAttributes baseProduct))))).
    now rewrite Ht.
Qed.

Lemma in_mapi {X Y : Type} (g : X -> nat -> Y) (l : list X) (y : Y) :
  In y (Pool.mapi g l) -> exists x i, In x l /\ y = g x i.
Proof.
  unfold Pool.mapi. generalize 0.
  induction l as [|x l IH]; intros k; simpl; [intros []|].
  intros [<- | H].
  - exists x, k. split; [now left | reflexivity].
  - destruct (IH _ H) as (x' & i & Hx & ->). exists x', i.
    split; [now right | reflexivity].
Qed.

(** X17.  Every row of a returned product carries the identity of the
    product (its id, the sku and url of the input, the name and brand
    resolved for it) and the ids of one discovered color and one
    discovered size, neither of them empty; a row that offers to add to
    the bag is a row whose fetch succeeded and whose product is
    available; the list of rows has no hole and one row per
    combination. *)
Theorem rows_carry_the_product (x : Extracted) :
  extractOneProduct net now pid inputSku inputUrl args = Some (inr (Product x)) ->
  x_colors x <> []
  /\ ~ In None (flatRows x)
  /\ length (flatRows x) = length (x_colors x) * length (x_sizes x)
  /\ forall row,
       In (Some row) (flatRows x) ->
       r_pid row = JStr pid
       /\ r_input_sku row = JStr inputSku
       /\ r_input_url row = JStr inputUrl
       /\ r_product_name row = x_product_name x
       /\ r_brand row = x_brand x
       /\ r_has_size_attribute row = JBool (x_has_size_attribute x)
       /\ (exists c s,
             In c (x_colors x) /\ In s (x_sizes x)
             /\ r_color_id row = JStr (color_id c) /\ color_id c <> ""
             /\ r_size_id row = JStr (size_id s) /\ size_id s <> "")
       /\ (r_cta_type row = JStr "ADD_TO_BAG" ->
           r_ok row = true
           /\ r_available row = JBool true
           /\ r_notify_me_active row = JBool false).
Proof.
  intros H.
  destruct (extractOneProduct_product H) as (bp & Hc & Hs & Hne & Hrows).
  split; [exact Hne|]. split.
  { rewrite Hrows. intros Hin. apply in_map_iff in Hin as (r & Hr & _).
    discriminate Hr. }
  split.
  { rewrite Hrows, length_map, ExtractFacts.length_mapi.
    apply DiscoveryFacts.buildTasks_length. }
  intros row Hin. rewrite Hrows in Hin.
  apply in_map_iff in Hin as (r & Hr & Hin). injection Hr as ->.
  apply in_mapi in Hin as (t & i & Ht & ->).
  apply DiscoveryMoreFacts.in_buildTasks in Ht as [Htc Hts].
  assert (Hcid : color_id (color t) <> "").
  { rewrite Hc in Htc.
    exact (proj1 (Forall_forall _ _)
             (DiscoveryMoreFacts.colors_nonempty_ids bp) _ Htc). }
  assert (Hsid : size_id (size t) <> "").
  { rewrite Hs in Hts.
    exact (proj1 (Forall_forall _ _)
             (DiscoveryMoreFacts.sizes_nonempty_ids bp) _ Hts). }
  assert (Hns : sizeIdOrNS (size t) = size_id (size t)).
  { unfold sizeIdOrNS, nonEmpty. apply String.eqb_neq in Hsid.
    now rewrite Hsid. }
  unfold comboRow.
  destruct (fetchFrom net args (ComboQuery i) _) as [e | j];
    cbn [rowFor r_pid r_input_sku r_input_url r_product_name r_brand
         r_has_size_attribute r_color_id r_size_id r_cta_type r_ok
         r_available r_notify_me_active];
    repeat (split; [reflexivity|]).
  - split.
    + exists (color t), (size t). rewrite Hns. repeat split; assumption.
    + discriminate.
  - split.
    + exists (color t), (size t). rewrite Hns. repeat split; assumption.
    + unfold ctaFrom. cbn [cta_type cta_available isNotifyMeActive].
      destruct (truthy (get (or_else (get j "product") (JObj [])) "available"));
        destruct (truthy (get (or_else (get j "product") (JObj []))
                            "isNotifyMeActive"));
        cbn [andb negb]; intros Hcta; try discriminate Hcta.
      repeat split.
Qed.

End OneProduct.

Lemma rows_carry_the_product_witness :
  exists x,
    extractOneProduct bagNet "2026-01-01T00:00:00.000Z" "35S5S2ZC7B" "sku-1"
      "https://www.michaelkors.com/p/35S5S2ZC7B.html" defaults
    = Some (inr (Product x))
    /\ x_colors x <> []
    /\ ~ In None (flatRows x)
    /\ length (flatRows x) = length (x_colors x) * length (x_sizes x)
    /\ forall row,
         In (Some row) (flatRows x) ->
         r_pid row = JStr "35S5S2ZC7B"
         /\ r_input_sku row = JStr "sku-1"
         /\ r_input_url row = JStr "https://www.michaelkors.com/p/35S5S2ZC7B.html"
         /\ r_product_name row = x_product_name x
         /\ r_brand row = x_brand x
         /\ r_has_size_attribute row = JBool (x_has_size_attribute x)
         /\ (exists c s,
               In c (x_colors x) /\ In s (x_sizes x)
               /\ r_color_id row = JStr (color_id c) /\ color_id c <> ""
               /\ r_size_id row = JStr (size_id s) /\ size_id s <> "")
         /\ (r_cta_type row = JStr "ADD_TO_BAG" ->
             r_ok row = true
             /\ r_available row = JBool true
             /\ r_notify_me_active row = JBool false).
Proof.
  eexists. split; [vm_compute; reflexivity|].
  apply (@rows_carry_the_product bagNet "2026-01-01T00:00:00.000Z"
           "35S5S2ZC7B" "sku-1" "https://www.michaelkors.com/p/35S5S2ZC7B.html"
           defaults).
  vm_compute. reflexivity.
Defined.

End ProductFacts.

Module BulkFacts.

Import Extract Bulk.

Section Run.

Variable net : nat -> network.
Variable clock : nat -> string.
Variable finishedAt : string.
Variable args : Args.
Variable validJobs : list Job.

(** While [main] awaits the pool, its steps are the steps of the pool. *)
Lemma main_run_pool (sched : list nat) :
  forall st p,
    main_run net clock finishedAt args validJobs sched (Processing st) = Some p ->
    sched <> [] ->
    exists st',
      Pool.run validJobs (jobMapper net clock args) sched st = Some st'
      /\ p = afterPool finishedAt st'.
Proof.
  induction sched as [|w sched IH]; intros st p H Hne; [congruence|].
  simpl in H. simpl.
  destruct (Pool.settle validJobs (jobMapper net clock args) w st)
    as [st1|] eqn:Hs; [|discriminate].
  destruct sched as [|w' sched].
  - simpl in H. injection H as <-. now exists st1.
  - assert (Hp : afterPool finishedAt st1 = Processing st1).
    { unfold afterPool in *.
      destruct (Pool.result st1) as [[processed | e]|]; [| |reflexivity].
      - destruct (buildBulkCSV (flat_map rowsOf processed)); discriminate H.
      - discriminate H. }
    rewrite Hp in H. apply IH; [exact H | discriminate].
Qed.

Lemma main_run_from_start (sched : list nat) (p : phase) :
  main_run net clock finishedAt args validJobs sched
    (main_start finishedAt args validJobs) = Some p ->
  exists st,
    Pool.run validJobs (jobMapper net clock args) sched
      (Pool.start validJobs (productConcurrency args)) = Some st
    /\ p = afterPool finishedAt st.
Proof.
  destruct sched as [|w sched]; intros H.
  - simpl in H. injection H as <-. eexists. split; reflexivity.
  - unfold main_start in H.
    assert (Hp : afterPool finishedAt
                   (Pool.start validJobs (productConcurrency args))
                 = Processing (Pool.start validJobs (productConcurrency args))).
    { unfold afterPool in *.
      destruct (Pool.result _) as [[processed | e]|]; [| |reflexivity].
      - destruct (buildBulkCSV (flat_map rowsOf processed)); discriminate H.
      - discriminate H. }
    rewrite Hp in H. apply main_run_pool; [exact H | discriminate].
Qed.

Lemma run_job_clean (sched : list nat) :
  forall st st',
    Pool.clean st ->
    Pool.run validJobs (jobMapper net clock args) sched st = Some st' ->
    Pool.clean st'.
Proof.
  induction sched as [|w sched IH]; intros st st' Hc H; simpl in H.
  - now injection H as <-.
  - destruct (Pool.settle validJobs (jobMapper net clock args) w st)
      as [st1|] eqn:Hs; [|discriminate].
    apply (IH st1); [|exact H].
    exact (@DriverFacts.settle_job_clean net clock args validJobs w st st1 Hc Hs).
Qed.




Lemma slots_from {X Y : Type} (g : X -> nat -> option Y) (l : list X) :
  forall (o : list (option Y)) (k : nat),
    length o = length l ->
    (forall i x, nth_error l i = Some x -> nth_error o i = Some (g x (k + i))) ->
    o = Pool.mapi_from g k l.
Proof.
  induction l as [|x l IH]; intros [|y o] k Hlen H; try discriminate Hlen.
  - reflexivity.
  - simpl. f_equal.
    + specialize (H 0 x eq_refl). simpl in H. rewrite Nat.add_0_r in H.
      now injection H.
    + apply IH; [now injection Hlen|].
      intros i x' Hx'. specialize (H (S i) x' Hx'). simpl in H.
      now rewrite Nat.add_succ_r in H.
Qed.



(** When every job has settled the pool returns its array, which holds
    at each index what the promise of that job was fulfilled with. *)
Lemma completed_pool (sched : list nat) (p : phase) :
  main_run net clock finishedAt args validJobs sched
    (main_start finishedAt args validJobs) = Some p ->
  length sched = length validJobs ->
  exists st,
    p = afterPool finishedAt st
    /\ Pool.result st = Some (inl (Pool.out st))
    /\ Pool.out st
       = Pool.mapi_from
           (fun job i => Pool.stored (jobMapper net clock args job i))
           0 validJobs.
Proof.
  intros Hrun Hlen.
  destruct (@main_run_from_start sched p Hrun) as (st & Hpool & ->).
  destruct (PoolFacts.inv_start validJobs (jobMapper net clock args)
              (productConcurrency args)) as (Hinv0 & Hlen0 & Hset & Hrej & Hthrew).
  destruct (PoolFacts.run_facts sched Hinv0 Hpool) as (Hinv & Hw & Hn).
  pose proof (@run_job_clean sched _ _ (conj Hrej Hthrew) Hpool) as Hc.
  rewrite Hset in Hn. simpl in Hn.
  assert (Hall : forallb Pool.isReturned (Pool.workers st) = true).
  { apply PoolFacts.no_awaiting_all_returned; [exact Hc|].
    pose proof (Pool.inv_count Hinv) as Hcnt.
    rewrite (Pool.inv_starts Hinv), length_seq in Hcnt.
    pose proof (Nat.le_min_r (Pool.idx st) (length validJobs)). lia. }
  assert (HK : 1 <= length (Pool.workers st)).
  { rewrite Hw, Hlen0. unfold Pool.workerCount. lia. }
  destruct (PoolFacts.all_returned Hinv HK Hall) as [_ Hout].
  exists st. split; [reflexivity|]. split.
  - unfold Pool.result. destruct Hc as [-> _]. now rewrite Hall.
  - apply slots_from; [exact (Pool.inv_out_len Hinv)|].
    intros i x Hx. exact (proj2 (Hout i x Hx)).
Qed.


(** What [fetchJson] throws when none of its attempts succeeds. *)
Lemma fetch_exhausted (T B : Z) (R : nat) (srv : Fetch.server) (e : Fetch.exn) :
  (forall k, k < R -> Fetch.failed (Fetch.outcomeOf T B srv k) = true) ->
  Fetch.outcomeOf T B srv R = inl e ->
  Fetch.returned (Fetch.fetchJson T (Z.of_nat R) B srv) = inl (Fetch.Thrown e).
Proof.
  intros Hfail Hlast.
  destruct (@FetchFacts.attemptLoop_retries T B R srv R 0 Fetch.ThrownUndefined
              ltac:(lia) ltac:(intros; apply Hfail; lia)) as [t E].
  unfold Fetch.fetchJson, Fetch.iterations.
  replace (Z.to_nat (Z.of_nat R + 1)) with (S R) by lia.
  change (Fetch.startOf T B srv 0) with 0%Z in E. rewrite E.
  cbn [Fetch.returned]. unfold Fetch.finalOutcome. now rewrite Hlast.
Qed.

(** X22.  From the remote end to the file: when none of the attempts of
    the base query of a job succeeds, the bulk run still completes, and
    the JSON file holds, at the position of that job, the failure
    record of the job: its product id, sku and url, and as its error
    the text of the error of the last attempt. *)
Theorem exhausted_base_query_is_recorded
    (sched : list nat) (p : phase) (i : nat) (job : Job) (R : nat)
    (e : Fetch.exn) :
  main_run net clock finishedAt args validJobs sched
    (main_start finishedAt args validJobs) = Some p ->
  length sched = length validJobs ->
  nth_error validJobs i = Some job ->
  retries args = Z.of_nat R ->
  (forall k, k < R ->
     Fetch.failed
       (Fetch.outcomeOf (timeoutMs args) (retryDelayMs args)
          (net i BaseQuery
             (nonCachedUrl (site args) (locale args) (job_pid job) "")) k)
     = true) ->
  Fetch.outcomeOf (timeoutMs args) (retryDelayMs args)
    (net i BaseQuery (nonCachedUrl (site args) (locale args) (job_pid job) ""))
    R = inl e ->
  exists processed,
    bulk_json (written p) = Some (finishedAt, processed)
    /\ length processed = length validJobs
    /\ nth_error processed i
       = Some (Some (Failed (job_pid job) (job_inputSku job) (job_inputUrl job)
                       (Fetch.describe (Fetch.Thrown e))))
    /\ rowsOf (Some (Failed (job_pid job) (job_inputSku job) (job_inputUrl job)
                       (Fetch.describe (Fetch.Thrown e)))) = [].
Proof.
  intros Hrun Hlen Hjob HR Hfail Hlast.
  destruct (@completed_pool sched p Hrun Hlen) as (st & -> & Hres & Hslots).
  exists (Pool.out st). split; [|split; [|split; [|reflexivity]]].
  - unfold afterPool. rewrite Hres.
    destruct (buildBulkCSV (flat_map rowsOf (Pool.out st))); reflexivity.
  - rewrite Hslots. apply PoolFacts.length_mapi_from.
  - rewrite Hslots, PoolFacts.nth_error_mapi_from, Hjob. cbn [option_map Nat.add].
    unfold jobMapper, extractOneProduct, fetchFrom.
    rewrite HR, (@fetch_exhausted _ _ _ _ _ Hfail Hlast). reflexivity.
Qed.

End Run.


Lemma exhausted_base_query_is_recorded_witness :
  exists p processed,
    main_run Output.firstJobDown (fun _ => "2026-01-01T00:00:00.000Z")
      "2026-01-01T00:01:00.000Z" oneAtATime twoJobs [0; 0]
      (main_start "2026-01-01T00:01:00.000Z" oneAtATime twoJobs)
    = Some p
    /\ bulk_json (written p) = Some ("2026-01-01T00:01:00.000Z", processed)
    /\ length processed = length twoJobs
    /\ nth_error processed 0
       = Some (Some (Failed "35S5S2ZC7B" "sku-1"
                       "https://www.michaelkors.com/p/35S5S2ZC7B.html"
                       (Fetch.describe
                          (Fetch.Thrown
                             (Fetch.httpError 503 "Service Unavailable" "busy")))))
    /\ rowsOf (Some (Failed "35S5S2ZC7B" "sku-1"
                       "https://www.michaelkors.com/p/35S5S2ZC7B.html"
                       (Fetch.describe
                          (Fetch.Thrown
                             (Fetch.httpError 503 "Service Unavailable" "busy")))))
       = [].
Proof.
  eexists.
  destruct (@exhausted_base_query_is_recorded Output.firstJobDown
              (fun _ => "2026-01-01T00:00:00.000Z") "2026-01-01T00:01:00.000Z"
              oneAtATime twoJobs [0; 0] _ 0
              (mkJob "sku-1" "https://www.michaelkors.com/p/35S5S2ZC7B.html"
                 "35S5S2ZC7B")
              2 (Fetch.httpError 503 "Service Unavailable" "busy")
              ltac:(vm_compute; reflexivity) eq_refl eq_refl eq_refl
              ltac:(intros k Hk; destruct k as [|[|k]];
                    [reflexivity | reflexivity | lia])
              eq_refl) as (processed & H).
  exists processed. split; [vm_compute; reflexivity | exact H].
Defined.

End BulkFacts.

Module IncrementalFacts.

Import Incremental.

(** X19.  The header of the CSV file is written once: when the script is
    run on a first input in an empty directory and then on a second
    input, the CSV file holds the header line, the lines of the first
    run and the lines of the second run, and the JSONL file one line
    per item of the first run followed by one line per item of the
    second. *)
Theorem header_is_written_once
    (extractA extractB :
       nat -> InputRow -> Fetch.thrown + (ProductSummary * list VariantRow))
    (clockA clockB : nat -> string) (rowsA rowsB : list InputRow) :
  rowsA <> [] ->
  csv (files (after extractB clockB rowsB (length rowsB)
                (files (after extractA clockA rowsA (length rowsA)
                          (mkSinks [] [])))))
  = csvHeader
      :: csvLinesUpTo extractA rowsA (length rowsA)
      ++ csvLinesUpTo extractB rowsB (length rowsB)
  /\ jsonl (files (after extractB clockB rowsB (length rowsB)
                     (files (after extractA clockA rowsA (length rowsA)
                               (mkSinks [] [])))))
     = summariesOf extractA clockA rowsA (length rowsA)
         ++ summariesOf extractB clockB rowsB (length rowsB)
  /\ length (summariesOf extractA clockA rowsA (length rowsA)
               ++ summariesOf extractB clockB rowsB (length rowsB))
     = length rowsA + length rowsB.
Proof.
  intros Hne. rewrite !DriverFacts.after_spec.
  cbn [files csv jsonl].
  split; [|split].
  - destruct rowsA as [|a rowsA]; [congruence|].
    unfold begin at 2. unfold prepare. cbn [csv files].
    unfold begin, prepare. destruct rowsB; reflexivity.
  - reflexivity.
  - unfold summariesOf.
    rewrite length_app, !ExtractFacts.length_mapi, !firstn_all. reflexivity.
Qed.

Lemma header_is_written_once_witness :
  csv (files (after Output.oneVariant (fun _ => "") [] (length (@nil InputRow))
                (files (after Output.oneVariant (fun _ => "") Input.sampleRows
                          (length Input.sampleRows) (mkSinks [] [])))))
  = csvHeader
      :: csvLinesUpTo Output.oneVariant Input.sampleRows (length Input.sampleRows)
      ++ csvLinesUpTo Output.oneVariant [] (length (@nil InputRow))
  /\ jsonl (files (after Output.oneVariant (fun _ => "") [] (length (@nil InputRow))
                     (files (after Output.oneVariant (fun _ => "") Input.sampleRows
                               (length Input.sampleRows) (mkSinks [] [])))))
     = summariesOf Output.oneVariant (fun _ => "") Input.sampleRows
         (length Input.sampleRows)
         ++ summariesOf Output.oneVariant (fun _ => "") [] (length (@nil InputRow))
  /\ length (summariesOf Output.oneVariant (fun _ => "") Input.sampleRows
               (length Input.sampleRows)
               ++ summariesOf Output.oneVariant (fun _ => "") []
                    (length (@nil InputRow)))
     = length Input.sampleRows + length (@nil InputRow).
Proof.
  apply (@header_is_written_once Output.oneVariant Output.oneVariant
           (fun _ => "") (fun _ => "") Input.sampleRows []).
  discriminate.
Defined.

End IncrementalFacts.

Module V4Facts.

Import Discovery Extract Output.



Section Single.

Variable net : network.
Variables pid inputSku inputUrl : string.
Variable args : Args.
Variables productName brand : value.
Variable hasSize : bool.




End Single.

End V4Facts.

Module DurationFacts.

Import Fetch Duration.
Local Open Scope Z_scope.








End DurationFacts.

Module BrandFacts.

Import Discovery Extract.

Lemma truthy_or_else (a b : value) :
  truthy b = true -> truthy (or_else a b) = true.
Proof. unfold or_else. intros H. destruct (truthy a) eqn:Ha; assumption. Qed.

Lemma brand_truthy (product : value) :
  truthy (snd (pickNameBrand product)) = true.
Proof.
  unfold pickNameBrand. cbn [snd].
  apply truthy_or_else. now apply truthy_or_else.
Qed.

(** X24.  The brand of a product is never missing and never comes from
    the fallback variation: [pickNameBrand] always gives a brand that
    is not empty (the default brand at worst), so when the name has to
    be looked up the brand stays that of the base product; and a name
    that is found in neither document stays [null], it is never
    [undefined]. *)
Theorem brand_comes_from_the_base_product
    (net : network) (pid : string) (args : Args) (baseProduct : value)
    (v : Variation) :
  truthy (snd (pickNameBrand baseProduct)) = true
  /\ fst (pickNameBrand baseProduct) <> JUndefined
  /\ forall productName brand,
       resolveNameBrand net pid args baseProduct v = inr (productName, brand) ->
       brand = snd (pickNameBrand baseProduct)
       /\ productName <> JUndefined
       /\ (truthy (fst (pickNameBrand baseProduct)) = true ->
           productName = fst (pickNameBrand baseProduct)).
Proof.
  assert (Hname : forall p, fst (pickNameBrand p) <> JUndefined).
  { intros p. unfold pickNameBrand. cbn [fst].
    destruct (get p "productName"); discriminate. }
  split; [apply brand_truthy|]. split; [apply Hname|].
  intros productName brand. unfold resolveNameBrand.
  pose proof (brand_truthy baseProduct) as Hb.
  pose proof (Hname baseProduct) as Hn.
  destruct (pickNameBrand baseProduct) as [n b]. cbn [fst snd] in *.
  destruct (truthy n) eqn:Ht.
  - intros H. injection H as <- <-. repeat split; assumption.
  - destruct (fetchFrom net args NameQuery _) as [e | vJson]; [discriminate|].
    intros H. injection H as <- <-.
    split; [unfold or_else; now rewrite Hb|].
    split; [unfold or_else; rewrite Ht; apply Hname | discriminate].
Qed.

End BrandFacts.
